(** * AuditTrailGPT: the symbolic engine of [forensics_engine.py]

    A shallow embedding of the log normaliser ([extract_causal_chain] and the
    functions it calls) together with the properties stated about it, and of
    the data of the two tables that [report_generator.py] makes of its
    document.

    Conventions of the embedding.
    - A Python [str] is a [list ascii]: a text of code points below 256.
      On these, whitespace ([str.strip], [\s]), the digits [\d] and the
      letters that [re.IGNORECASE] identifies in the patterns of the module
      are those of Python; the word characters [\w] and [str.upper] are those
      of ASCII text (code points below 128).
    - A Python exception is a value [Raise e]; a function that may raise
      returns [result].
    - A compiled pattern is a [regex]; matching is the ordered list of all the
      ways the pattern can match a prefix of the subject, in the order a
      backtracking matcher tries them.  The match returned by [re] is the
      first one.  Every pattern of the module starts with [^] and is used
      without [re.MULTILINE], so [search] and [match] agree: both only try
      position 0.
    - A Python [float] is a binary64 number ([spec_float] with precision 53).
    - Of [json.dumps] the model has the exceptions: the functions return
      the document that is serialised, [extract_causal_chain_text] when the
      serialisation succeeds. *)

From Stdlib Require Import Ascii String DecimalString DecimalNat DecimalN.
From Stdlib Require DecimalFacts.
From Stdlib Require Import ZArith Lia Bool Arith.
From Stdlib Require Import SpecFloat.
From Stdlib Require Import List Permutation Sorted.
Import ListNotations.

Local Open Scope list_scope.

(** ** Strings *)

Abbreviation str := (list ascii) (only parsing).

Definition s_ (s : string) : str := list_ascii_of_string s.

Definition code (c : ascii) : nat := nat_of_ascii c.

(** [str.isspace], which is also [\s], on the code points below 256: TAB,
    LF, VT, FF, CR, FS, GS, RS, US and space, NEL (133) and the no-break
    space (160). *)
Definition is_space (c : ascii) : bool :=
  let n := code c in
  ((9 <=? n) && (n <=? 13)) || ((28 <=? n) && (n <=? 32))
  || (n =? 133) || (n =? 160).

(** [\d] on ASCII. *)
Definition is_digit (c : ascii) : bool :=
  let n := code c in (48 <=? n) && (n <=? 57).

Definition is_upper (c : ascii) : bool :=
  let n := code c in (65 <=? n) && (n <=? 90).

Definition is_lower (c : ascii) : bool :=
  let n := code c in (97 <=? n) && (n <=? 122).

(** [\w], [str.lower] and [str.upper] on ASCII text: letters, digits and the
    underscore are the word characters, and the case of the 26 letters is
    changed.  Outside ASCII Python knows more letters, and [upper] can give
    two characters for one; a property that depends on it is stated for
    ASCII text. *)
Definition is_word (c : ascii) : bool :=
  is_digit c || is_upper c || is_lower c || (code c =? 95).

Definition lower (c : ascii) : ascii :=
  if is_upper c then ascii_of_nat (code c + 32) else c.

Definition upper (c : ascii) : ascii :=
  if is_lower c then ascii_of_nat (code c - 32) else c.

Definition newline : ascii := ascii_of_nat 10.

Fixpoint lstrip (s : str) : str :=
  match s with
  | c :: s' => if is_space c then lstrip s' else s
  | [] => []
  end.

Definition rstrip (s : str) : str := rev (lstrip (rev s)).

Definition strip (s : str) : str := rstrip (lstrip s).

(** [s.split('\n')]: the current line is accumulated in [cur]. *)
Fixpoint split_from (cur : str) (s : str) : list str :=
  match s with
  | [] => [rev cur]
  | c :: s' =>
      if Ascii.eqb c newline then rev cur :: split_from [] s'
      else split_from (c :: cur) s'
  end.

Definition split_lines (s : str) : list str := split_from [] s.

(** [s.replace(a, b)] for one-character [a] and [b]. *)
Definition replace_char (a b : ascii) (s : str) : str :=
  map (fun c => if Ascii.eqb c a then b else c) s.

(** [s.replace(a, '')]. *)
Definition remove_char (a : ascii) (s : str) : str :=
  filter (fun c => negb (Ascii.eqb c a)) s.

(** Comparison of strings as Python does it: by code point, a proper prefix
    first. *)
Fixpoint str_compare (a b : str) : comparison :=
  match a, b with
  | [], [] => Eq
  | [], _ :: _ => Lt
  | _ :: _, [] => Gt
  | x :: a', y :: b' =>
      match Nat.compare (code x) (code y) with
      | Eq => str_compare a' b'
      | o => o
      end
  end.

Definition str_leb (a b : str) : bool :=
  match str_compare a b with Gt => false | _ => true end.

Definition str_eqb (a b : str) : bool :=
  match str_compare a b with Eq => true | _ => false end.

(** Decimal digits of a natural number, as [str(n)] gives them. *)
Definition str_of_nat (n : nat) : str :=
  s_ (NilEmpty.string_of_uint (Nat.to_uint n)).

(** [format(n, '04d')]. *)
Definition pad4 (n : nat) : str :=
  let d := str_of_nat n in
  repeat (ascii_of_nat 48) (4 - length d) ++ d.

(** Value of a string of decimal digits. *)
Definition digit_val (c : ascii) : Z := Z.of_nat (code c - 48).

Definition Z_of_digits (s : str) : Z :=
  fold_left (fun acc c => (10 * acc + digit_val c)%Z) s 0%Z.

(** ** Exceptions *)

Inductive exn := ValueError | OverflowError.

Inductive result (A : Type) :=
| Ok (a : A)
| Raise (e : exn).
Arguments Ok {A} a.
Arguments Raise {A} e.

Definition bind {A B} (r : result A) (f : A -> result B) : result B :=
  match r with
  | Ok a => f a
  | Raise e => Raise e
  end.

Notation "x <- c1 ;; c2" := (bind c1 (fun x => c2))
  (at level 61, c1 at next level, right associativity).

(** ** Regular expressions *)

Inductive regex :=
| Eps
| Chr (p : ascii -> bool)
| Cat (r1 r2 : regex)
| Star (greedy : bool) (r : regex)
| Grp (r : regex).

(** A way of matching: the groups captured, in the order their parentheses
    open, and the rest of the subject. *)
Abbreviation mres := (list str * str)%type (only parsing).

Definition consumed (s rest : str) : str := firstn (length s - length rest) s.

Definition with_caps (c : list str) (m : mres) : mres := (c ++ fst m, snd m).

(** One more round of a starred pattern: [body] lists the ways of matching
    it once, [again] the ways of matching the remaining rounds.  A greedy
    star tries one more round before it tries to stop, a lazy one the other
    way round.  A round has to consume a character; no starred pattern of
    the module can match the empty string. *)
Definition star_round (greedy : bool) (body : str -> list mres)
    (again : str -> list mres) (s : str) : list mres :=
  let more :=
    flat_map (fun m =>
      if length (snd m) <? length s
      then map (with_caps (fst m)) (again (snd m))
      else []) (body s) in
  if greedy then more ++ [([], s)] else ([], s) :: more.

Fixpoint star_loop (greedy : bool) (body : str -> list mres) (fuel : nat)
    (s : str) : list mres :=
  match fuel with
  | O => [([], s)]
  | S fuel' => star_round greedy body (star_loop greedy body fuel') s
  end.

Fixpoint matches (r : regex) (s : str) : list mres :=
  match r with
  | Eps => [([], s)]
  | Chr p =>
      match s with
      | c :: s' => if p c then [([], s')] else []
      | [] => []
      end
  | Cat r1 r2 =>
      flat_map (fun m => map (with_caps (fst m)) (matches r2 (snd m)))
               (matches r1 s)
  | Star g r1 => star_loop g (matches r1) (length s) s
  | Grp r1 =>
      map (fun m => (consumed s (snd m) :: fst m, snd m)) (matches r1 s)
  end.

(** [pattern.match(s)]: the groups of the first way of matching. *)
Definition re_match (r : regex) (s : str) : option (list str) :=
  match matches r s with
  | m :: _ => Some (fst m)
  | [] => None
  end.

(** *** Pattern combinators *)

Definition seq (rs : list regex) : regex := fold_right Cat Eps rs.

(** A literal character under [re.IGNORECASE]. *)
Definition ci (c : ascii) : ascii -> bool :=
  fun x => Ascii.eqb (lower x) (lower c).

Definition lit (s : string) : regex :=
  seq (map (fun c => Chr (ci c)) (s_ s)).

Definition plus (r : regex) : regex := Cat r (Star true r).

Fixpoint times (n : nat) (r : regex) : regex :=
  match n with
  | O => Eps
  | S n' => Cat r (times n' r)
  end.

Definition ws : regex := Star true (Chr is_space).
Definition ws1 : regex := plus (Chr is_space).
Definition digit : regex := Chr is_digit.
Definition word1 : regex := plus (Chr is_word).
Definition dot : ascii -> bool := fun c => negb (Ascii.eqb c newline).
Definition is_digit_or (x : string) : ascii -> bool :=
  fun c => is_digit c || existsb (Ascii.eqb c) (s_ x).

(** *** The patterns of the module

    Each is the pattern of the same name in the source, piece by piece:
    [ws] is [\s*], [ws1] is [\s+], [digit] is [\d], [times n digit] is
    [\d{n}], [word1] is [\w+], [lit] a run of literal characters (compared
    without case, all four patterns are compiled with [re.IGNORECASE]),
    [Grp] a capturing group, [Star false (Chr dot)] the lazy [.*?], and
    [is_digit_or] a bracketed class of the digits and one more character. *)

Definition KAGGLE_PATTERN : regex :=
  seq [ ws; plus digit; ws; lit "|"; ws;
        Grp (seq [times 4 digit; lit "-"; times 2 digit; lit "-"; times 2 digit]);
        ws; lit "|"; ws;
        lit "Case"; ws; lit "ID"; ws1;
        Grp (seq [lit "FC"; times 6 digit]);
        ws; lit "|"; ws;
        Grp (Star false (Chr dot));
        ws1; lit "detected"; ws1; lit "involving"; ws1; lit "cross-border";
        ws1; lit "entities,"; ws;
        lit "automated"; ws1; lit "alert"; ws1; lit "triggered."; ws;
        lit "|"; ws;
        lit "Amount:"; ws; lit "$";
        Grp (plus (Chr (is_digit_or ","))) ].

Definition BEGIN_PATTERN : regex :=
  seq [ lit "BEGIN LAUNDERING ATTEMPT - ";
        Grp (seq [word1; Star true (seq [lit "-"; word1])]) ].

Definition END_PATTERN : regex := lit "END LAUNDERING ATTEMPT".

Definition TX_PATTERN : regex :=
  seq [ Grp (seq [times 4 digit; lit "/"; times 2 digit; lit "/"; times 2 digit]);
        ws1; times 2 digit; lit ":"; times 2 digit; lit ",";
        Star false (Chr dot); lit ",";
        plus digit; lit ","; word1; lit ",";
        Grp (plus (Chr (is_digit_or ".")));
        lit ","; word1 ].

(** ** Numbers *)

(** [int(s)] on the strings the module passes to it (decimal digits only):
    the empty string is refused, and so is a string longer than CPython's
    default limit on integer string conversion. *)
Definition int_max_str_digits : nat := 4300.

Definition py_int (s : str) : result Z :=
  match s with
  | [] => Raise ValueError
  | _ =>
      if forallb is_digit s && (length s <=? int_max_str_digits)
      then Ok (Z_of_digits s)
      else Raise ValueError
  end.

(** binary64 *)
Definition prec : Z := 53.
Definition emax : Z := 1024.
Definition float := spec_float.
Definition float_zero : float := S754_zero false.
Definition float_add : float -> float -> float := SFadd prec emax.

Fixpoint take_digits (s : str) : str * str :=
  match s with
  | c :: s' =>
      if is_digit c then let (d, r) := take_digits s' in (c :: d, r)
      else ([], s)
  | [] => ([], [])
  end.

(** The binary64 number nearest to the decimal numeral [ip.fp]: the quotient
    of two integers, rounded once. *)
Definition float_of_decimal (ip fp : str) : float :=
  match Z_of_digits (ip ++ fp), (10 ^ Z.of_nat (length fp))%Z with
  | Zpos m, Zpos d =>
      SFdiv prec emax (S754_finite false m 0) (S754_finite false d 0)
  | _, _ => float_zero
  end.

(** [float(s)] on the strings the module passes to it (digits and dots):
    digits with at most one dot, and at least one digit. *)
Definition py_float (s : str) : result float :=
  let (ip, r) := take_digits s in
  match r with
  | [] => if negb (length ip =? 0) then Ok (float_of_decimal ip [])
          else Raise ValueError
  | c :: fp =>
      if Ascii.eqb c "."%char && forallb is_digit fp
         && negb (length (ip ++ fp) =? 0)
      then Ok (float_of_decimal ip fp)
      else Raise ValueError
  end.

(** [int(x)] for a float: truncation towards zero. *)
Definition int_of_float (x : float) : result Z :=
  match x with
  | S754_zero _ => Ok 0%Z
  | S754_infinity _ => Raise OverflowError
  | S754_nan => Raise ValueError
  | S754_finite s m e => Ok (cond_Zopp s (Z.shiftl (Zpos m) e))
  end.

(** [math.isfinite]: neither an infinity nor a NaN. *)
Definition is_finite (x : float) : bool :=
  match x with
  | S754_zero _ | S754_finite _ _ _ => true
  | S754_infinity _ | S754_nan => false
  end.

(** [sum] of floats, from the integer 0, left to right, each addition
    rounded (CPython 3.12 and later compensate the rounding errors of the
    sum; the two agree whenever the partial sums are exact). *)
Definition float_sum (xs : list float) : float :=
  fold_left float_add xs float_zero.

(** ** Dates *)

Definition is_leap (y : nat) : bool :=
  ((y mod 4 =? 0) && negb (y mod 100 =? 0)) || (y mod 400 =? 0).

Definition days_in_month (y m : nat) : nat :=
  match m with
  | 2 => if is_leap y then 29 else 28
  | 4 | 6 | 9 | 11 => 30
  | _ => 31
  end.

Definition nat_of_digits (s : str) : nat := Z.to_nat (Z_of_digits s).

Definition pad2 (n : nat) : str :=
  let d := str_of_nat n in repeat "0"%char (2 - length d) ++ d.

(** [datetime.strptime(s, "%Y/%m/%d").strftime("%Y-%m-%d")] on the strings
    the module passes to it (four digits, two digits, two digits, with
    slashes): the date has to exist, from year 1 on.  The year is written
    as CPython 3.11 writes [%Y] with the C library of Linux: without
    leading zeros, so with fewer than four digits for the years below 1000;
    the month and the day have two digits. *)
Definition convert_date (s : str) : result str :=
  let y := nat_of_digits (firstn 4 s) in
  let m := nat_of_digits (firstn 2 (skipn 5 s)) in
  let d := nat_of_digits (firstn 2 (skipn 8 s)) in
  if (1 <=? y) && (1 <=? m) && (m <=? 12) && (1 <=? d)
     && (d <=? days_in_month y m)
  then Ok (str_of_nat y ++ s_ "-" ++ pad2 m ++ s_ "-" ++ pad2 d)
  else Raise ValueError.

(** ** Events *)

Inductive EventType := FINANCIAL_CRIME_ALERT | UNKNOWN.

Inductive Details :=
| AlertDetails (date case_id alert_type : str) (amount : Z)
| BlockDetails (date case_id alert_type : str) (amount : Z)
               (transaction_count : nat) (period : str)
| ErrorDetails (error : str).

Record Event := mkEvent {
  timestamp : str;
  event_type : EventType;
  raw_log : str;
  details : Details
}.

Definition NA : str := s_ "N/A".

(** ** parse_kaggle_format *)

Definition kaggle_line (line_num : nat) (raw_line : str)
  : result (list Event) :=
  match strip raw_line with
  | [] => Ok []
  | _ =>
      match re_match KAGGLE_PATTERN raw_line with
      | Some groups =>
          let date := nth 0 groups [] in
          let case_id := nth 1 groups [] in
          let alert_type := nth 2 groups [] in
          let amount_str := nth 3 groups [] in
          amount <- py_int (remove_char ","%char amount_str) ;;
          Ok [ {| timestamp := date ++ s_ " 00:00:00";
                  event_type := FINANCIAL_CRIME_ALERT;
                  raw_log := rstrip raw_line;
                  details := AlertDetails date case_id (strip alert_type)
                                          amount |} ]
      | None =>
          Ok [ {| timestamp := NA;
                  event_type := UNKNOWN;
                  raw_log := rstrip raw_line;
                  details := ErrorDetails
                    (s_ "Unmatched line " ++ str_of_nat line_num) |} ]
      end
  end.

(** The loop over [enumerate(lines, line_num)]. *)
Fixpoint kaggle_loop (line_num : nat) (lines : list str)
  : result (list Event) :=
  match lines with
  | [] => Ok []
  | raw_line :: rest =>
      es <- kaggle_line line_num raw_line ;;
      es' <- kaggle_loop (S line_num) rest ;;
      Ok (es ++ es')
  end.

Definition parse_kaggle_format (lines : list str) : result (list Event) :=
  kaggle_loop 1 lines.

(** ** summarize_block *)

Record Tx := mkTx { tx_date : str; tx_amount : float }.

Fixpoint insert_by {A} (key : A -> str) (x : A) (l : list A) : list A :=
  match l with
  | [] => [x]
  | y :: l' =>
      if str_leb (key x) (key y) then x :: l else y :: insert_by key x l'
  end.

(** A stable sort by key: what [sorted] and [list.sort] compute. *)
Definition sort_by {A} (key : A -> str) (l : list A) : list A :=
  fold_right (insert_by key) [] l.

Definition str_eq_dec : forall a b : str, {a = b} + {a <> b} :=
  list_eq_dec ascii_dec.

(** [sorted(set(l))] *)
Definition sorted_set (l : list str) : list str :=
  sort_by (fun x => x) (nodup str_eq_dec l).

Definition summarize_block (typology : str) (txs : list Tx)
  : result (list Event) :=
  match txs with
  | [] => Ok []
  | _ =>
      let total_amount := float_sum (map tx_amount txs) in
      let dates := sorted_set (map tx_date txs) in
      let start_date := hd [] dates in
      let end_date := last dates [] in
      let case_id := s_ "SYN" ++ firstn 2 typology ++ pad4 (length txs) in
      amount <- int_of_float total_amount ;;
      Ok [ {| timestamp := start_date ++ s_ " 00:00:00";
              event_type := FINANCIAL_CRIME_ALERT;
              raw_log := s_ "Synthetic alert from " ++ typology
                         ++ s_ " block (" ++ str_of_nat (length txs)
                         ++ s_ " transactions)";
              details := BlockDetails start_date case_id
                           (replace_char "_"%char "-"%char typology)
                           amount (length txs)
                           (start_date ++ s_ " to " ++ end_date) |} ]
  end.

(** ** parse_amlsim_format *)

Record AmlState := mkAml {
  events : list Event;
  current_typology : option str;
  current_txs : list Tx
}.

(** Truth value of [current_typology]: neither [None] nor the empty string. *)
Definition open_block (st : AmlState) : option str :=
  match current_typology st with
  | Some (c :: t) => Some (c :: t)
  | _ => None
  end.

(** The transaction of a line, when the line is one: a line that does not
    match, or whose amount or date is refused, adds nothing. *)
Definition parse_tx (raw_line : str) : option Tx :=
  match re_match TX_PATTERN raw_line with
  | Some [date_str; amount_str] =>
      match py_float amount_str with
      | Ok amount =>
          match convert_date date_str with
          | Ok date => Some {| tx_date := date; tx_amount := amount |}
          | Raise _ => None
          end
      | Raise _ => None
      end
  | _ => None
  end.

(** One round of the [while] loop, on the line [lines[line_num]]. *)
Definition amlsim_step (st : AmlState) (line : str) : result AmlState :=
  let raw_line := strip line in
  match re_match BEGIN_PATTERN raw_line with
  | Some groups =>
      evs <- match open_block st, current_txs st with
             | Some typ, _ :: _ =>
                 es <- summarize_block typ (current_txs st) ;;
                 Ok (events st ++ es)
             | _, _ => Ok (events st)
             end ;;
      Ok {| events := evs;
            current_typology :=
              Some (replace_char "-"%char "_"%char (map upper (hd [] groups)));
            current_txs := [] |}
  | None =>
      match re_match END_PATTERN raw_line, open_block st with
      | Some _, Some typ =>
          es <- summarize_block typ (current_txs st) ;;
          Ok {| events := events st ++ es;
                current_typology := None;
                current_txs := [] |}
      | _, Some _ =>
          match parse_tx raw_line with
          | Some t =>
              Ok {| events := events st;
                    current_typology := current_typology st;
                    current_txs := current_txs st ++ [t] |}
          | None => Ok st
          end
      | _, None => Ok st
      end
  end.

Fixpoint amlsim_loop (st : AmlState) (lines : list str) : result AmlState :=
  match lines with
  | [] => Ok st
  | line :: rest => st' <- amlsim_step st line ;; amlsim_loop st' rest
  end.

(** The final block, when the file ends without END. *)
Definition amlsim_finish (st : AmlState) : result (list Event) :=
  match open_block st, current_txs st with
  | Some typ, _ :: _ =>
      es <- summarize_block typ (current_txs st) ;;
      Ok (events st ++ es)
  | _, _ => Ok (events st)
  end.

Definition amlsim_init : AmlState :=
  {| events := []; current_typology := None; current_txs := [] |}.

Definition parse_amlsim_format (lines : list str) : result (list Event) :=
  st <- amlsim_loop amlsim_init lines ;;
  amlsim_finish st.

(** ** extract_causal_chain *)

Inductive Format := KAGGLE | AMLSIM | UNKNOWN_FORMAT.

Record Summary := mkSummary {
  total_alerts : nat;
  total_amount_at_risk : Z;
  total_lines : nat;
  unmatched_lines : Z;
  detected_format : Format
}.

Record Document := mkDocument {
  causal_chain : list Event;
  summary : Summary
}.

Definition is_match (r : regex) (s : str) : bool :=
  match re_match r s with Some _ => true | None => false end.

Definition is_alert (e : Event) : bool :=
  match event_type e with FINANCIAL_CRIME_ALERT => true | UNKNOWN => false end.

(** The sort key of [parsed_events.sort]. *)
Definition sort_key (e : Event) : str :=
  if str_eqb (timestamp e) NA then s_ "9999-99-99" else timestamp e.

(** [e["details"]["amount"]] when it is a number; alerts always have one. *)
Definition amount_of (e : Event) : option Z :=
  match details e with
  | AlertDetails _ _ _ a => Some a
  | BlockDetails _ _ _ a _ _ => Some a
  | ErrorDetails _ => None
  end.

Definition sum_amounts (es : list Event) : Z :=
  fold_left (fun acc e => match amount_of e with
                          | Some a => (acc + a)%Z
                          | None => acc
                          end) es 0%Z.

Definition fallback_events (lines : list str) : list Event :=
  map (fun line => {| timestamp := NA;
                      event_type := UNKNOWN;
                      raw_log := rstrip line;
                      details := ErrorDetails (s_ "Unsupported log format") |})
      (filter (fun line => negb (length (strip line) =? 0)) lines).

Definition input_lines (raw_logs : str) : list str :=
  split_lines (strip raw_logs).

Definition has_kaggle (lines : list str) : bool :=
  existsb (is_match KAGGLE_PATTERN) (firstn 50 lines).

Definition has_amlsim (lines : list str) : bool :=
  existsb (is_match BEGIN_PATTERN) lines.

Definition detect (lines : list str) : Format :=
  if has_kaggle lines then KAGGLE
  else if has_amlsim lines then AMLSIM
  else UNKNOWN_FORMAT.

(** The events of the parser the detection selects, in the order it
    produces them. *)
Definition parse_events (lines : list str) : result (list Event) :=
  if has_kaggle lines then parse_kaggle_format lines
  else if has_amlsim lines then parse_amlsim_format lines
  else Ok (fallback_events lines).

Definition extract_causal_chain (raw_logs : str) : result Document :=
  let lines := input_lines raw_logs in
  parsed_events <- parse_events lines ;;
  let parsed_events := sort_by sort_key parsed_events in
  let valid := filter is_alert parsed_events in
  let total_alerts := length valid in
  let total_amount := sum_amounts valid in
  Ok {| causal_chain := parsed_events;
        summary :=
          {| total_alerts := total_alerts;
             total_amount_at_risk := total_amount;
             total_lines := length lines;
             unmatched_lines :=
               (Z.of_nat (length lines) - Z.of_nat total_alerts)%Z;
             detected_format := detect lines |} |}.

(** ** The statements of the specification, as it words them *)

Definition nonblank (line : str) : bool := negb (length (strip line) =? 0).

(** The number of non-empty lines of a text. *)
Definition count_nonempty_lines (raw : str) : nat :=
  length (filter nonblank (split_lines raw)).

(** Detection of the tabular format as the specification words it: a match
    among the first 50 non-empty lines. *)
Definition kaggle_in_first_50_nonempty (lines : list str) : bool :=
  existsb (is_match KAGGLE_PATTERN) (firstn 50 (filter nonblank lines)).





(** The case identifier as the specification words it. *)
Definition case_id_two_chars_and_count (typology : str) (n : nat) : str :=
  firstn 2 typology ++ pad4 n.

Definition case_id_of (e : Event) : option str :=
  match details e with
  | AlertDetails _ c _ _ => Some c
  | BlockDetails _ c _ _ _ _ => Some c
  | ErrorDetails _ => None
  end.

(** ** Sample inputs *)

Definition nl : str := [newline].

Definition join_lines (ls : list str) : str :=
  match ls with
  | [] => []
  | l :: rest => l ++ flat_map (fun x => nl ++ x) rest
  end.

(** Scenario 1 of the specification. *)
Definition scenario1 : str :=
  s_ "1 | 2024-01-05 | Case ID FC000123 | Structuring detected involving cross-border entities, automated alert triggered. | Amount: $10,000".

Definition tx_line_1 : str :=
  s_ "2022/09/01 00:06,021174,800737690,012,80011F990,100.0,US Dollar,100.0,US Dollar,ACH,1".

Definition tx_line_2 : str :=
  s_ "2022/09/03 14:20,021174,800737690,020,80020C5B0,250.0,US Dollar,250.0,US Dollar,ACH,1".

Definition end_line : str := s_ "END LAUNDERING ATTEMPT".

(** Scenario 2 of the specification. *)
Definition scenario2 : str :=
  join_lines [ s_ "BEGIN LAUNDERING ATTEMPT - FAN-OUT";
               tx_line_1; tx_line_2; end_line ].

(** A transaction of the year 999, and a block of it. *)
Definition tx_line_early : str :=
  s_ "0999/01/01 00:06,021174,800737690,012,80011F990,100.0,US Dollar,100.0,US Dollar,ACH,1".

Definition early_block : str :=
  join_lines [ s_ "BEGIN LAUNDERING ATTEMPT - FAN-OUT";
               tx_line_early; end_line ].

(** Two lines with an empty line between them. *)
Definition blank_between : str := join_lines [ s_ "a"; []; s_ "b" ].

(** A line of the tabular format that is the 51st line of the text and its
    second non-empty line. *)
Definition kaggle_after_blanks : str :=
  join_lines (s_ "x" :: repeat [] 49 ++ [scenario1]).


(** A line of the tabular format dated 9999-99-99, then a line of no format. *)
Definition late_date : str :=
  join_lines
    [ s_ "1 | 9999-99-99 | Case ID FC000123 | Structuring detected involving cross-border entities, automated alert triggered. | Amount: $10,000";
      s_ "not a log line" ].

(** A line of the tabular format that starts with a space, as the second
    line of a text. *)
Definition indented_line : str := " "%char :: scenario1.

Definition indented_second : str := join_lines [ s_ "x"; indented_line ].

Definition sample_txs : list Tx :=
  [ {| tx_date := s_ "2022-09-01"; tx_amount := float_of_decimal (s_ "100") (s_ "0") |};
    {| tx_date := s_ "2022-09-03"; tx_amount := float_of_decimal (s_ "250") (s_ "0") |} ].

(** ** Notions used in the statements and in the proofs *)

(** A line among the first 50, empty lines counted, has the tabular format. *)
Definition kaggle_in_first_50 (lines : list str) : Prop :=
  exists i line, i < 50 /\ nth_error lines i = Some line
                 /\ is_match KAGGLE_PATTERN line = true.

(** Some line starts a block. *)
Definition begin_somewhere (lines : list str) : Prop :=
  exists line, In line lines /\ is_match BEGIN_PATTERN line = true.

(** A block that is not closed, and a block after which nothing is open. *)
Definition open_block_lines : list str :=
  [ s_ "BEGIN LAUNDERING ATTEMPT - FAN-OUT"; tx_line_1; tx_line_2 ].

Definition block_lines : list str :=
  [ s_ "BEGIN LAUNDERING ATTEMPT - FAN-OUT"; tx_line_1; tx_line_2; end_line ].

(** A block that is not closed, with two transactions of 1e308 each: each
    amount is a finite float, their sum is not. *)
Definition large_tx_line : str :=
  s_ "2022/09/01 00:06,021174,800737690,012,80011F990,"
    ++ "1"%char :: repeat "0"%char 308 ++ s_ ",US Dollar".

Definition overflow_block_lines : list str :=
  [ s_ "BEGIN LAUNDERING ATTEMPT - STACK"; large_tx_line; large_tx_line ].

(** The statement of the specification on the end of the input, as it words
    it: an input that ends inside a block that has transactions gets the
    summary alert of the block. *)
Definition open_block_yields_alert (lines : list str) : Prop :=
  forall st typ,
    amlsim_loop amlsim_init lines = Ok st ->
    open_block st = Some typ ->
    current_txs st <> [] ->
    exists evs e,
      parse_amlsim_format lines = Ok (evs ++ [e])
      /\ event_type e = FINANCIAL_CRIME_ALERT.

(** A way of matching [s ++ t], seen as a way of matching [s] when it
    leaves at least the [k] characters of [t]. *)
Definition cut (k : nat) (m : mres) : list mres :=
  if k <=? length (snd m)
  then [(fst m, firstn (length (snd m) - k) (snd m))]
  else [].

(** What a way of matching leaves is the end of the text. *)
Definition leaves_suffix (f : str -> list mres) : Prop :=
  forall s m, In m (f s) -> exists p, s = p ++ snd m.

(** The ways of matching a prefix are those of the text that stop in it. *)
Definition prefix_stable (f : str -> list mres) : Prop :=
  forall s t, f s = flat_map (cut (length t)) (f (s ++ t)).

(** Every way of matching [r] stops right after a character with [P]. *)
Definition ends_in (P : ascii -> Prop) (r : regex) : Prop :=
  forall s m, In m (matches r s) ->
    exists p c, s = (p ++ [c]) ++ snd m /\ P c.

(** The alert that [kaggle_line] builds from the groups of a match. *)
Definition alert_event (line : str) (groups : list str) (amount : Z) : Event :=
  {| timestamp := nth 0 groups [] ++ s_ " 00:00:00";
     event_type := FINANCIAL_CRIME_ALERT;
     raw_log := rstrip line;
     details := AlertDetails (nth 0 groups []) (nth 1 groups [])
                             (strip (nth 2 groups [])) amount |}.

(** The first event of a result, to name the event of a sample line. *)
Definition first_event (r : result (list Event)) : Event :=
  match r with
  | Ok (e :: _) => e
  | _ => {| timestamp := NA; event_type := UNKNOWN; raw_log := [];
            details := ErrorDetails [] |}
  end.

(** The order of the sort, and its classes of equal keys. *)
Definition key_le {A} (key : A -> str) (x y : A) : Prop :=
  str_leb (key x) (key y) = true.

Definition has_key {A} (key : A -> str) (k : str) (x : A) : bool :=
  str_eqb (key x) k.

(** ** Notions used in the further properties *)

(** A float that is not a negative number. *)
Definition not_negative (x : float) : Prop :=
  match x with
  | S754_finite true _ _ => False
  | _ => True
  end.

(** An alert that summarises a block: it counts at least one transaction. *)
Definition block_alert (e : Event) : Prop :=
  event_type e = FINANCIAL_CRIME_ALERT
  /\ exists date case_id alert_type amount n period,
       details e = BlockDetails date case_id alert_type amount n period
       /\ 1 <= n.

(** The line is a begin marker for [parse_amlsim_format]. *)
Definition is_begin (line : str) : bool :=
  is_match BEGIN_PATTERN (strip line).

(** The line is an end marker for [parse_amlsim_format]. *)
Definition is_end (line : str) : bool :=
  is_match END_PATTERN (strip line).

(** One when a typology is set, that is, when a block may still be flushed. *)
Definition pending (st : AmlState) : nat :=
  match current_typology st with
  | Some _ => 1
  | None => 0
  end.


(** The event of a line, when no format is detected. *)
Definition unsupported_event (line : str) : Event :=
  {| timestamp := NA;
     event_type := UNKNOWN;
     raw_log := rstrip line;
     details := ErrorDetails (s_ "Unsupported log format") |}.

(** A text of no format, with an empty line in it. *)
Definition no_format_text : str :=
  join_lines [ s_ "first line "; []; s_ "  second line" ].

(** A text of the tabular format whose third line does not match. *)
Definition kaggle_text : str :=
  join_lines [ scenario1; []; s_ "not a log line" ].

(** An event as the parsers build them: an alert carries an amount that is
    not negative, an UNKNOWN event carries none. *)
Definition event_ok (e : Event) : Prop :=
  match amount_of e with
  | Some a => is_alert e = true /\ (0 <= a)%Z
  | None => is_alert e = false
  end.

(** The events, the transactions and the typology of the open block of a
    state of the block parser have the properties [PE], [PT] and [PY]. *)
Definition state_inv (PE : Event -> Prop) (PT : Tx -> Prop)
    (PY : str -> Prop) (st : AmlState) : Prop :=
  Forall PE (events st)
  /\ Forall PT (current_txs st)
  /\ forall typ, open_block st = Some typ -> PY typ.

(** The typology that a begin marker sets, from the group of the marker. *)
Definition normalize_typology (group : str) : str :=
  replace_char "-"%char "_"%char (map upper group).

(** The characters of a typology as the parser keeps it, and of the alert
    type made from it. *)
Definition typology_char (c : ascii) : bool :=
  is_digit c || is_upper c || Ascii.eqb c "_".

Definition alert_type_char (c : ascii) : bool :=
  is_digit c || is_upper c || Ascii.eqb c "-".

(** The characters of the group of a begin marker. *)
Definition word_or_dash (c : ascii) : bool := is_word c || Ascii.eqb c "-".

(** Every character class of the pattern is within [X]. *)
Fixpoint within (X : ascii -> bool) (r : regex) : Prop :=
  match r with
  | Eps => True
  | Chr p => forall c, p c = true -> X c = true
  | Cat a b => within X a /\ within X b
  | Star _ a | Grp a => within X a
  end.

(** The alert of a block, from its typology. *)
Definition block_fields (e : Event) : Prop :=
  exists typ date amount n period,
    details e = BlockDetails date (s_ "SYN" ++ firstn 2 typ ++ pad4 n)
                  (replace_char "_"%char "-"%char typ) amount n period
    /\ typ <> []
    /\ forallb typology_char typ = true.

(** *** Groups of a pattern *)

(** No capturing group in the pattern. *)
Fixpoint capture_free (r : regex) : bool :=
  match r with
  | Eps | Chr _ => true
  | Cat a b => capture_free a && capture_free b
  | Star _ a => capture_free a
  | Grp _ => false
  end.

(** No capturing group under a star: every way of matching captures each
    group once. *)
Fixpoint groups_ok (r : regex) : bool :=
  match r with
  | Eps | Chr _ => true
  | Cat a b => groups_ok a && groups_ok b
  | Star _ a => capture_free a
  | Grp a => groups_ok a
  end.

(** The patterns of the groups, in the order their parentheses open. *)
Fixpoint captures_of (r : regex) : list regex :=
  match r with
  | Eps | Chr _ | Star _ _ => []
  | Cat a b => captures_of a ++ captures_of b
  | Grp a => a :: captures_of a
  end.

(** The pattern matches the whole of the text. *)
Definition full_match (r : regex) (t : str) : Prop :=
  exists c, In (c, []) (matches r t).

(** The character classes of a pattern that matches a fixed number of
    characters, one class for each. *)
Fixpoint chars_of (r : regex) : option (list (ascii -> bool)) :=
  match r with
  | Eps => Some []
  | Chr p => Some [p]
  | Cat a b =>
      match chars_of a, chars_of b with
      | Some x, Some y => Some (x ++ y)
      | _, _ => None
      end
  | Grp a => chars_of a
  | Star _ _ => None
  end.

(** The text has one character for each class, in the class. *)
Definition in_classes (ps : list (ascii -> bool)) (t : str) : Prop :=
  Forall2 (fun p c => p c = true) ps t.

(** *** The groups of the patterns of the module *)

Definition kaggle_date_group : regex :=
  seq [times 4 digit; lit "-"; times 2 digit; lit "-"; times 2 digit].

Definition kaggle_case_group : regex := seq [lit "FC"; times 6 digit].

Definition tx_date_group : regex :=
  seq [times 4 digit; lit "/"; times 2 digit; lit "/"; times 2 digit].

(** Four digits, two digits and two digits, with [sep] between them. *)
Definition is_date_with (sep : ascii) (t : str) : bool :=
  match t with
  | [y1; y2; y3; y4; a; m1; m2; b; d1; d2] =>
      forallb is_digit [y1; y2; y3; y4; m1; m2; d1; d2]
      && Ascii.eqb a sep && Ascii.eqb b sep
  | _ => false
  end.

Definition is_iso_date : str -> bool := is_date_with "-".

(** F and C, in either case, and six digits. *)
Definition is_case_id (t : str) : bool :=
  match t with
  | [f; c; d1; d2; d3; d4; d5; d6] =>
      ci "F" f && ci "C" c && forallb is_digit [d1; d2; d3; d4; d5; d6]
  | _ => false
  end.

(** The character of a decimal digit. *)
Definition digit_char (v : nat) : ascii := ascii_of_nat (48 + v).

(** The digits of a number without the zeros that start them. *)
Fixpoint drop_zeros (s : str) : str :=
  match s with
  | c :: s' => if Ascii.eqb c "0" then drop_zeros s' else s
  | [] => []
  end.

(** A year as [%Y] writes it: one to four digits, the first not a zero. *)
Definition is_written_year (y : str) : bool :=
  (1 <=? length y) && (length y <=? 4) && forallb is_digit y
  && negb (Ascii.eqb (hd "0"%char y) "0").

(** A date as [strftime("%Y-%m-%d")] writes it: the year as [%Y] writes it,
    then the month and the day, of two digits each, after dashes. *)
Definition is_written_date (t : str) : bool :=
  let k := length t - 6 in
  is_written_year (firstn k t)
  && match skipn k t with
     | [a; m1; m2; b; d1; d2] =>
         Ascii.eqb a "-" && Ascii.eqb b "-"
         && forallb is_digit [m1; m2; d1; d2]
     | _ => false
     end.

(** The date of a transaction line as the block parser keeps it: the year
    without its leading zeros, dashes for the slashes. *)
Definition written_date_of (date_str : str) : str :=
  drop_zeros (firstn 4 date_str)
  ++ replace_char "/" "-" (skipn 4 date_str).

(** An event has the timestamp of its kind: an alert its date at midnight,
    an UNKNOWN event ["N/A"].  The date of an alert of a line is the date of
    the line, of ten characters; the date of the alert of a block is a date
    as [strftime] writes it. *)
Definition event_dated (e : Event) : Prop :=
  match details e with
  | AlertDetails date _ _ _ =>
      event_type e = FINANCIAL_CRIME_ALERT
      /\ timestamp e = date ++ s_ " 00:00:00"
      /\ is_iso_date date = true
  | BlockDetails date _ _ _ _ _ =>
      event_type e = FINANCIAL_CRIME_ALERT
      /\ timestamp e = date ++ s_ " 00:00:00"
      /\ is_written_date date = true
  | ErrorDetails _ => event_type e = UNKNOWN /\ timestamp e = NA
  end.

(** Text of the ASCII range: every character has a code below 128.  On such
    text the tables [is_word], [lower] and [upper] are those of Python. *)
Definition ascii_text (s : str) : bool :=
  forallb (fun c => code c <? 128) s.

(** The line is of the tabular format and its amount cannot be read: it has
    no digit, only commas, or more digits than [int] accepts. *)
Definition amount_unreadable (line : str) : bool :=
  nonblank line
  && match re_match KAGGLE_PATTERN line with
     | Some groups =>
         let digits := remove_char ","%char (nth 3 groups []) in
         (length digits =? 0) || (int_max_str_digits <? length digits)
     | None => false
     end.

(** A line of the tabular format whose amount is a comma. *)
Definition comma_amount : str :=
  s_ "7 | 2024-01-05 | Case ID fc000123 | Smurfing detected involving cross-border entities, automated alert triggered. | Amount: $,".

Definition comma_amount_text : str := join_lines [ scenario1; comma_amount ].

(** A text of the tabular format with a case identifier in lower case. *)
Definition lower_case_text : str :=
  join_lines
    [ s_ "7 | 2024-01-05 | Case ID fc000123 |   Smurfing   detected involving cross-border entities, automated alert triggered. | Amount: $1,5" ].

(** A float that is zero, a positive number or plus infinity. *)
Definition plain (x : float) : Prop :=
  match x with
  | S754_zero _ | S754_finite false _ _ | S754_infinity false => True
  | _ => False
  end.

(** A block whose only transaction has an amount of 400 digits. *)
Definition huge_amount_text : str :=
  join_lines
    [ s_ "BEGIN LAUNDERING ATTEMPT - STACK";
      s_ "2022/09/01 00:06,021174,800737690,012,80011F990,"
        ++ repeat "9"%char 400 ++ s_ ",US Dollar";
      end_line ].

(** ** report_generator.py: the timeline table

    [generate_coverity_style_pdf] reads the document back from its JSON text
    with [json.loads]; the model takes the document itself.  Of the function
    the model has the rows of the table "Complete Event Timeline". *)

(** The digits of a number, last digit first, with a comma after every
    third digit that has a digit after it. *)
Fixpoint commas_from_right (l : str) : str :=
  match l with
  | a :: b :: c :: rest =>
      match rest with
      | [] => [a; b; c]
      | _ => a :: b :: c :: ","%char :: commas_from_right rest
      end
  | _ => l
  end.

(** The decimal digits of a natural number in binary representation. *)
Definition str_of_N (n : N) : str :=
  s_ (NilEmpty.string_of_uint (N.to_uint n)).

(** [format(n, ',')], the [{n:,}] of an f-string, for an integer: the
    conversion to decimal digits is refused beyond CPython's default limit,
    as [int] refuses the opposite one. *)
Definition format_commas (n : Z) : result str :=
  let d := str_of_N (Z.abs_N n) in
  if length d <=? int_max_str_digits then
    let digits := rev (commas_from_right (rev d)) in
    Ok (if (n <? 0)%Z then "-"%char :: digits else digits)
  else Raise ValueError.

Definition date_of (e : Event) : option str :=
  match details e with
  | AlertDetails d _ _ _ | BlockDetails d _ _ _ _ _ => Some d
  | ErrorDetails _ => None
  end.

Definition alert_type_of (e : Event) : option str :=
  match details e with
  | AlertDetails _ _ a _ | BlockDetails _ _ a _ _ _ => Some a
  | ErrorDetails _ => None
  end.

(** [d.get(key, default)] *)
Definition get_or {A} (default : A) (o : option A) : A :=
  match o with
  | Some x => x
  | None => default
  end.

(** [valid_events] *)
Definition valid_events (events : list Event) : list Event :=
  filter is_alert events.

(** The row that the loop appends for one event. *)
Definition timeline_row (e : Event) : result (list str) :=
  amount <- format_commas (get_or 0%Z (amount_of e)) ;;
  Ok [ firstn 10 (timestamp e);
       get_or NA (case_id_of e);
       get_or NA (alert_type_of e);
       s_ "$" ++ amount ].

(** The loop [for e in valid_events]: the rows in order, or the first
    exception. *)
Fixpoint timeline_rows (events : list Event) : result (list (list str)) :=
  match events with
  | [] => Ok []
  | e :: rest =>
      row <- timeline_row e ;;
      rows <- timeline_rows rest ;;
      Ok (row :: rows)
  end.

Definition timeline_header : list str :=
  [ s_ "Date"; s_ "Case ID"; s_ "Alert Type"; s_ "Amount" ].

(** [timeline_data] *)
Definition timeline_data (events : list Event) : result (list (list str)) :=
  rows <- timeline_rows (valid_events events) ;;
  Ok (timeline_header :: rows).

(** The columns of a row. *)
Definition date_column (row : list str) : str := nth 0 row [].
Definition case_column (row : list str) : str := nth 1 row [].
Definition type_column (row : list str) : str := nth 2 row [].
Definition amount_column (row : list str) : str := nth 3 row [].

(** What the core reads in the amount of a line, [int(amount.replace(',',
    ''))], applied to the amount of a row without its dollar sign. *)
Definition read_amount (text : str) : result Z :=
  py_int (remove_char ","%char text).

(** A text of the tabular format with dates that are not in order. *)
Definition unordered_text : str :=
  join_lines
    [ s_ "1 | 2024-03-09 | Case ID FC000001 | Layering detected involving cross-border entities, automated alert triggered. | Amount: $1,234,567";
      s_ "noise";
      s_ "2 | 2023-12-31 | Case ID FC000002 | Smurfing detected involving cross-border entities, automated alert triggered. | Amount: $980" ].

(** ** report_generator.py: the risk table

    The table "Risk Indicators & Alert Distribution" of
    [generate_coverity_style_pdf]: a row for each alert type, the most
    frequent first, and a row of totals. *)

(** The exceptions of the report: those of the core, and those of a missing
    key, of [next] on an exhausted generator and of a division by zero. *)
Inductive report_exn :=
| Builtin (x : exn)
| KeyError
| StopIteration
| ZeroDivisionError.

Inductive outcome (A : Type) :=
| Done (a : A)
| Fail (x : report_exn).
Arguments Done {A} a.
Arguments Fail {A} x.

Definition and_then {A B} (r : outcome A) (f : A -> outcome B) : outcome B :=
  match r with
  | Done a => f a
  | Fail x => Fail x
  end.

Notation "x <~ c1 ;; c2" := (and_then c1 (fun x => c2))
  (at level 61, c1 at next level, right associativity).

Definition lift {A} (r : result A) : outcome A :=
  match r with
  | Ok a => Done a
  | Raise x => Fail (Builtin x)
  end.

(** [e['details']['alert_type']] and [e['details']['amount']] *)
Definition alert_type_item (e : Event) : outcome str :=
  match alert_type_of e with
  | Some a => Done a
  | None => Fail KeyError
  end.

Definition amount_item (e : Event) : outcome Z :=
  match amount_of e with
  | Some a => Done a
  | None => Fail KeyError
  end.

(** A list comprehension, or a loop that appends: the results in order, or
    the first exception. *)
Fixpoint for_each {A B} (f : A -> outcome B) (l : list A) : outcome (list B) :=
  match l with
  | [] => Done []
  | a :: rest =>
      b <~ f a ;;
      bs <~ for_each f rest ;;
      Done (b :: bs)
  end.

(** [Counter(alert_types)]: the number of occurrences of each element, the
    elements in the order in which they first occur. *)
Fixpoint count_one (x : str) (counts : list (str * nat)) : list (str * nat) :=
  match counts with
  | [] => [(x, 1)]
  | (y, n) :: rest =>
      if str_eqb y x then (y, S n) :: rest else (y, n) :: count_one x rest
  end.

Definition Counter (l : list str) : list (str * nat) :=
  fold_left (fun counts x => count_one x counts) l [].

(** [most_common()]: [sorted(items, key=itemgetter(1), reverse=True)], a
    stable sort, the largest count first. *)
Fixpoint insert_count (x : str * nat) (l : list (str * nat))
  : list (str * nat) :=
  match l with
  | [] => [x]
  | y :: l' =>
      if snd y <=? snd x then x :: y :: l' else y :: insert_count x l'
  end.

Definition most_common (counts : list (str * nat)) : list (str * nat) :=
  fold_right insert_count [] counts.

(** [a / b] for two integers that are not negative: the float nearest to
    the quotient. *)
Definition true_div (a b : nat) : outcome float :=
  match Z.of_nat a, Z.of_nat b with
  | _, Z0 => Fail ZeroDivisionError
  | Zpos m, Zpos d =>
      match SFdiv prec emax (S754_finite false m 0) (S754_finite false d 0)
      with
      | S754_infinity _ => Fail (Builtin OverflowError)
      | x => Done x
      end
  | _, _ => Done float_zero
  end.

(** [x * 100] *)
Definition times_100 (x : float) : float :=
  SFmul prec emax x (S754_finite false 100 0).

(** [n / d] rounded to the nearest integer, to the even one of two nearest,
    for [d] positive. *)
Definition div_nearest_even (n d : Z) : Z :=
  let q := (n / d)%Z in
  match (2 * (n mod d) ?= d)%Z with
  | Lt => q
  | Gt => (q + 1)%Z
  | Eq => if Z.even q then q else (q + 1)%Z
  end.

(** [format(x, '.1f')]: the decimal numeral with one digit after the point
    that is nearest to the float. *)
Definition format_1f (x : float) : str :=
  let sign (s : bool) := if s then s_ "-" else [] in
  match x with
  | S754_zero s => sign s ++ s_ "0.0"
  | S754_infinity s => sign s ++ s_ "inf"
  | S754_nan => s_ "nan"
  | S754_finite s m e =>
      let tenths :=
        if (0 <=? e)%Z then (Zpos m * 2 ^ e * 10)%Z
        else div_nearest_even (Zpos m * 10) (2 ^ (- e)) in
      sign s ++ str_of_N (Z.to_N (tenths / 10)) ++ s_ "."
      ++ str_of_N (Z.to_N (tenths mod 10))
  end.

(** A cell of a table: a text or an integer. *)
Inductive cell :=
| Text (s : str)
| Number (n : Z).

(** [next(e for e in valid_events if e['details']['alert_type'] == atype)] *)
Fixpoint sample_event (atype : str) (valid : list Event) : outcome Event :=
  match valid with
  | [] => Fail StopIteration
  | e :: rest =>
      a <~ alert_type_item e ;;
      if str_eqb a atype then Done e else sample_event atype rest
  end.

(** One round of the loop over [type_count.most_common()]. *)
Definition risk_row (valid : list Event) (total_alerts : nat)
    (item : str * nat) : outcome (list cell) :=
  let (atype, count) := item in
  e <~ sample_event atype valid ;;
  amt <~ amount_item e ;;
  quotient <~ true_div count total_alerts ;;
  let pct := format_1f (times_100 quotient) ++ s_ "%" in
  per_alert <~ lift (format_commas amt) ;;
  total <~ lift (format_commas (amt * Z.of_nat count)) ;;
  Done [ Text atype; Number (Z.of_nat count); Text pct;
         Text (s_ "$" ++ per_alert); Text (s_ "$" ++ total) ].

Definition risk_header : list cell :=
  [ Text (s_ "Alert Type"); Text (s_ "Count"); Text (s_ "%");
    Text (s_ "Amount per Alert"); Text (s_ "Total Amount") ].

(** [table_data], or [None] when the report has no such table. *)
Definition risk_table (d : Document) : outcome (option (list (list cell))) :=
  let valid := valid_events (causal_chain d) in
  let total_alerts := total_alerts (summary d) in
  let total_amount := total_amount_at_risk (summary d) in
  if 0 <? total_alerts then
    alert_types <~ for_each alert_type_item valid ;;
    let type_count := Counter alert_types in
    rows <~ for_each (risk_row valid total_alerts) (most_common type_count) ;;
    total <~ lift (format_commas total_amount) ;;
    Done (Some (risk_header :: rows
                ++ [ [ Text (s_ "TOTAL"); Number (Z.of_nat total_alerts);
                       Text (s_ "100%"); Text [];
                       Text (s_ "$" ++ total) ] ]))
  else Done None.

(** ** json.dumps

    [extract_causal_chain] returns the text that [json.dumps] makes of the
    document.  [json.dumps] writes every integer in decimal digits, which
    CPython refuses, with a ValueError, for a number of more than 4300
    digits.  The counts of the document are lengths of lists, far below
    that; the amounts are integers of any size.  The model keeps the
    document for its text. *)

Definition dumps_int (n : Z) : result unit :=
  if length (str_of_N (Z.abs_N n)) <=? int_max_str_digits then Ok tt
  else Raise ValueError.

Fixpoint dumps_events (events : list Event) : result unit :=
  match events with
  | [] => Ok tt
  | e :: rest =>
      u <- match amount_of e with
           | Some a => dumps_int a
           | None => Ok tt
           end ;;
      dumps_events rest
  end.

Definition json_dumps (d : Document) : result Document :=
  u <- dumps_events (causal_chain d) ;;
  v <- dumps_int (total_amount_at_risk (summary d)) ;;
  Ok d.

(** [extract_causal_chain], serialisation included. *)
Definition extract_causal_chain_text (raw_logs : str) : result Document :=
  d <- extract_causal_chain raw_logs ;;
  json_dumps d.

(** The first number that has more digits than the conversion accepts. *)
Definition digits_limit : Z := 10 ^ Z.of_nat int_max_str_digits.

(** The characters of a grouped number, counted from the right: every
    fourth one is a comma, the others are digits. *)
Definition grouped_at (l : str) (i : nat) : Prop :=
  if i mod 4 =? 3 then nth i l "0"%char = ","%char
  else is_digit (nth i l "0"%char) = true.

(** A float whose mantissa and exponent are within those of binary64. *)
Definition in_range (x : float) : Prop :=
  match x with
  | S754_finite _ m e => (Zpos m < 2 ^ prec)%Z /\ (e <= emax - prec)%Z
  | _ => True
  end.

(** The amount of an event, when it has one, is within the limit of the
    conversion to decimal digits. *)
Definition amount_in_reach (e : Event) : Prop :=
  match amount_of e with
  | Some a => (Z.abs a < 10 ^ Z.of_nat int_max_str_digits)%Z
  | None => True
  end.

Definition midnight : str := s_ " 00:00:00".

(** A row shows an alert: the first ten characters of its timestamp, its
    case identifier, its alert type and its amount after a dollar sign.  The
    timestamp is the date of the alert followed by [" 00:00:00"]: its first
    ten characters are the date for the alert of a line, and for the alert
    of a block whose date has ten characters; a shorter date is followed by
    the start of the time.  The text of the amount, read as the core reads
    the amount of a line, is the amount. *)
Definition row_of_alert (e : Event) (row : list str) : Prop :=
  exists date case_id alert_type amount text,
    date_of e = Some date
    /\ timestamp e = date ++ midnight
    /\ case_id_of e = Some case_id
    /\ alert_type_of e = Some alert_type
    /\ amount_of e = Some amount
    /\ format_commas amount = Ok text
    /\ row = [ firstn 10 (date ++ midnight); case_id; alert_type;
               "$"%char :: text ]
    /\ match details e with
       | AlertDetails _ _ _ _ => date_column row = date
       | _ => length date = 10 -> date_column row = date
       end
    /\ read_amount text = Ok amount.

(** An alert as the parsers build them. *)
Definition alert_like (e : Event) : Prop :=
  event_ok e /\ event_dated e /\ amount_in_reach e /\ is_alert e = true.

Definition row_of (e : Event) (row : list str) : Prop :=
  row_of_alert e row
  /\ date_column row = firstn 10 (sort_key e).

(** ** Notions used in the properties of the risk table *)

(** The alert types of a list of alerts. *)
Definition types_of (events : list Event) : list str :=
  map (fun e => get_or NA (alert_type_of e)) events.

(** The order of [most_common]. *)
Definition count_ge (x y : str * nat) : Prop := snd y <= snd x.

(** The counts [c] are those of the elements of [l]. *)
Definition counts_of (c : list (str * nat)) (l : list str) : Prop :=
  NoDup (map fst c)
  /\ (forall k n, In (k, n) c -> n = count_occ str_eq_dec l k /\ 1 <= n)
  /\ (forall k, In k l -> In k (map fst c))
  /\ list_sum (map snd c) = length l.

(** The first alert of a type in a list of alerts. *)
Definition first_of_type (atype : str) (valid : list Event) (e : Event)
  : Prop :=
  exists before after,
    valid = before ++ e :: after
    /\ alert_type_of e = Some atype
    /\ Forall (fun e' => alert_type_of e' <> Some atype) before.

(** A row of the risk table for an alert type and its count: the amount per
    alert is the amount of the first alert of the type, the total amount is
    that amount times the count. *)
Definition risk_row_of (valid : list Event) (item : str * nat)
    (row : list cell) : Prop :=
  exists e amt pct per_alert total,
    first_of_type (fst item) valid e
    /\ amount_of e = Some amt
    /\ format_commas amt = Ok per_alert
    /\ format_commas (amt * Z.of_nat (snd item)) = Ok total
    /\ row = [ Text (fst item); Number (Z.of_nat (snd item)); Text pct;
               Text ("$"%char :: per_alert); Text ("$"%char :: total) ].

(** The count that [counts] holds for the key [k], 0 when it has none. *)
Fixpoint count_of (k : str) (counts : list (str * nat)) : nat :=
  match counts with
  | [] => 0
  | (y, n) :: rest => if str_eqb y k then n else count_of k rest
  end.

(** The invariant of the loop of [Counter]. *)
Definition counter_inv (c : list (str * nat)) (l : list str) : Prop :=
  NoDup (map fst c)
  /\ (forall k, count_of k c = count_occ str_eq_dec l k)
  /\ Forall (fun p => 1 <= snd p) c
  /\ list_sum (map snd c) = length l.

(** The sum of a list of integers. *)
Definition sum_of (l : list Z) : Z := fold_right Z.add 0%Z l.

(** The last cell of a row of the risk table is a dollar sign and the text
    of an amount, which reads as [n]. *)
Definition total_cell (row : list cell) (n : Z) : Prop :=
  exists t, nth 4 row (Text []) = Text ("$"%char :: t)
            /\ read_amount t = Ok n.

(** The amount of the first alert of a type, 0 when there is none. *)
Definition amount_of_type (valid : list Event) (atype : str) : Z :=
  match sample_event atype valid with
  | Done e => get_or 0%Z (amount_of e)
  | Fail _ => 0%Z
  end.

(** Alerts of the same type have the same amount. *)
Definition uniform_amounts (valid : list Event) : Prop :=
  forall e1 e2, In e1 valid -> In e2 valid ->
    alert_type_of e1 = alert_type_of e2 -> amount_of e1 = amount_of e2.

(** A text of the tabular format with two alert types, one of them twice. *)
Definition mixed_text : str :=
  join_lines
    [ s_ "1 | 2024-03-09 | Case ID FC000001 | Layering detected involving cross-border entities, automated alert triggered. | Amount: $1,000";
      s_ "2 | 2024-01-05 | Case ID FC000002 | Smurfing detected involving cross-border entities, automated alert triggered. | Amount: $500";
      s_ "3 | 2024-02-01 | Case ID FC000003 | Smurfing detected involving cross-border entities, automated alert triggered. | Amount: $500" ].

(** An open block: a BEGIN marker and one transaction, no END marker. *)
Definition two_blocks_no_end : list str :=
  [ s_ "BEGIN LAUNDERING ATTEMPT - FAN-OUT"; tx_line_1 ].

(** * Properties *)

(** ** The code on the sample inputs *)

(** C2. On the empty text the chain is empty, no alert is counted and no
    format is detected, but the text still splits into one (empty) line:
    [total_lines] and [unmatched_lines] are 1, not 0. *)
Theorem empty_input_document :
  extract_causal_chain [] =
  Ok {| causal_chain := [];
        summary := {| total_alerts := 0;
                      total_amount_at_risk := 0;
                      total_lines := 1;
                      unmatched_lines := 1;
                      detected_format := UNKNOWN_FORMAT |} |}.
Proof. reflexivity. Qed.


(** C1, as worded, fails: with an empty line between two lines,
    [total_lines] is 3 and the text has 2 non-empty lines. *)
Lemma total_lines_counts_empty_line :
  exists d, extract_causal_chain blank_between = Ok d
            /\ total_lines (summary d) = 3
            /\ count_nonempty_lines blank_between = 2
            /\ total_lines (summary d) <> count_nonempty_lines blank_between.
Proof.
  eexists. split; [vm_compute; reflexivity|].
  repeat split; vm_compute; congruence.
Qed.

(** C3, as worded, fails: a line of the tabular format that is the second
    non-empty line but the 51st line is not seen by the detection. *)
Lemma detection_counts_empty_lines :
  exists d, extract_causal_chain kaggle_after_blanks = Ok d
            /\ kaggle_in_first_50_nonempty (input_lines kaggle_after_blanks)
               = true
            /\ detected_format (summary d) <> KAGGLE.
Proof.
  eexists. split; [vm_compute; reflexivity|].
  split; vm_compute; congruence.
Qed.


(** C6. A line dated 9999-99-99 gets the timestamp ["9999-99-99 00:00:00"],
    which is above the key ["9999-99-99"] used for ["N/A"]: the event without
    timestamp comes first, although the parser produced it last. *)
Theorem na_event_before_late_date :
  exists d, extract_causal_chain late_date = Ok d
            /\ map timestamp (causal_chain d)
               = [ NA; s_ "9999-99-99 00:00:00" ]
            /\ map event_type (causal_chain d)
               = [ UNKNOWN; FINANCIAL_CRIME_ALERT ]
            /\ (exists evs, parse_events (input_lines late_date) = Ok evs
                  /\ map timestamp evs = [ s_ "9999-99-99 00:00:00"; NA ]).
Proof.
  eexists. split; [vm_compute; reflexivity|].
  split; [reflexivity|]. split; [reflexivity|].
  eexists. split; vm_compute; reflexivity.
Qed.

(** C8, as worded, fails: the identifier starts with SYN. *)
Lemma case_id_has_prefix :
  exists e, summarize_block (s_ "FAN_OUT") sample_txs = Ok [e]
            /\ case_id_of e = Some (s_ "SYNFA0002")
            /\ case_id_of e
               <> Some (case_id_two_chars_and_count (s_ "FAN_OUT")
                          (length sample_txs)).
Proof.
  eexists. split; [vm_compute; reflexivity|].
  split; vm_compute; congruence.
Qed.

(** C9, as worded, fails: the second line of [indented_second] matches the
    tabular format and starts with a space; its event keeps the space in
    [raw_log], the event obtained from that [raw_log] does not. *)
Lemma rerun_drops_leading_space :
  exists d e d',
    extract_causal_chain indented_second = Ok d
    /\ In e (causal_chain d)
    /\ is_match KAGGLE_PATTERN indented_line = true
    /\ kaggle_line 2 indented_line = Ok [e]
    /\ extract_causal_chain (raw_log e) = Ok d'
    /\ causal_chain d' <> [e].
Proof.
  eexists. eexists. eexists.
  split; [vm_compute; reflexivity|].
  split; [cbn; left; reflexivity|].
  split; [vm_compute; reflexivity|].
  split; [vm_compute; reflexivity|].
  split; [vm_compute; reflexivity|].
  vm_compute. intros H. discriminate H.
Qed.

(** ** Strings *)

Lemma lstrip_spec (s : str) :
  exists sp, s = sp ++ lstrip s /\ forallb is_space sp = true.
Proof.
  induction s as [|c s [sp [E F]]]; simpl.
  - exists []. auto.
  - destruct (is_space c) eqn:Hc.
    + exists (c :: sp). simpl. rewrite Hc, F. split; [congruence|reflexivity].
    + exists []. auto.
Qed.

Lemma lstrip_head (s : str) :
  match lstrip s with
  | c :: _ => is_space c = false
  | [] => True
  end.
Proof.
  induction s as [|c s IH]; simpl; auto.
  destruct (is_space c) eqn:Hc; auto.
Qed.

Lemma lstrip_fixed (c : ascii) (s : str) :
  is_space c = false -> lstrip (c :: s) = c :: s.
Proof. intros H. simpl. now rewrite H. Qed.

Lemma lstrip_idem (s : str) : lstrip (lstrip s) = lstrip s.
Proof.
  pose proof (lstrip_head s) as H. destruct (lstrip s) as [|c t]; auto.
  now apply lstrip_fixed.
Qed.

Lemma lstrip_all_space (sp s : str) :
  forallb is_space sp = true -> lstrip (sp ++ s) = lstrip s.
Proof.
  induction sp as [|c sp IH]; simpl; auto.
  intros H. apply andb_true_iff in H as [Hc H]. rewrite Hc. auto.
Qed.

(** [rstrip] removes a run of whitespace from the end, and nothing else. *)
Lemma rstrip_spec (s : str) :
  exists sp, s = rstrip s ++ sp /\ forallb is_space sp = true.
Proof.
  unfold rstrip. destruct (lstrip_spec (rev s)) as [sp [E F]].
  exists (rev sp). split.
  - rewrite <- rev_app_distr, <- E. now rewrite rev_involutive.
  - rewrite forallb_forall in *. intros x Hx. apply F. now apply in_rev.
Qed.

Lemma rstrip_last (s : str) :
  rstrip s = [] \/ exists p c, rstrip s = p ++ [c] /\ is_space c = false.
Proof.
  unfold rstrip. pose proof (lstrip_head (rev s)) as H.
  destruct (lstrip (rev s)) as [|c t]; [now left|right].
  exists (rev t), c. simpl. auto.
Qed.

Lemma rstrip_app_nonspace (p : str) (c : ascii) :
  is_space c = false -> rstrip (p ++ [c]) = p ++ [c].
Proof.
  intros H. unfold rstrip. rewrite rev_app_distr. simpl. rewrite H.
  simpl. now rewrite rev_involutive.
Qed.

Lemma rstrip_idem (s : str) : rstrip (rstrip s) = rstrip s.
Proof.
  destruct (rstrip_last s) as [E|[p [c [E H]]]]; rewrite E.
  - reflexivity.
  - now apply rstrip_app_nonspace.
Qed.

(** Without leading whitespace before, without leading whitespace after. *)
Lemma rstrip_keeps_head (c : ascii) (s : str) :
  is_space c = false -> exists t, rstrip (c :: s) = c :: t.
Proof.
  intros Hc. destruct (rstrip_spec (c :: s)) as [sp [E F]].
  destruct (rstrip (c :: s)) as [|x t] eqn:R.
  - simpl in E. subst sp. simpl in F. rewrite Hc in F. discriminate.
  - simpl in E. inversion E. subst x. now exists t.
Qed.

Lemma count_split_from (cur s : str) :
  length (split_from cur s) = S (count_occ ascii_dec s newline).
Proof.
  revert cur. induction s as [|c s IH]; intros cur; simpl; auto.
  destruct (Ascii.eqb_spec c newline) as [->|Hne].
  - simpl. rewrite IH. destruct (ascii_dec newline newline); congruence.
  - rewrite IH. destruct (ascii_dec c newline); congruence.
Qed.

Lemma split_no_newline (cur s : str) :
  ~ In newline s -> split_from cur s = [rev cur ++ s].
Proof.
  revert cur. induction s as [|c s IH]; intros cur H; simpl.
  - now rewrite app_nil_r.
  - destruct (Ascii.eqb_spec c newline) as [->|Hne].
    + exfalso. apply H. now left.
    + rewrite IH by (intros Hin; apply H; now right).
      simpl. now rewrite <- app_assoc.
Qed.

(** ** Results *)

Lemma bind_ok {A B} (r : result A) (f : A -> result B) (b : B) :
  bind r f = Ok b -> exists a, r = Ok a /\ f a = Ok b.
Proof. destruct r; simpl; [eauto|discriminate]. Qed.

(** What a returned document is made of. *)
Lemma extract_ok (raw : str) (d : Document) :
  extract_causal_chain raw = Ok d ->
  exists evs,
    parse_events (input_lines raw) = Ok evs
    /\ causal_chain d = sort_by sort_key evs
    /\ total_lines (summary d) = length (input_lines raw)
    /\ detected_format (summary d) = detect (input_lines raw)
    /\ total_alerts (summary d)
       = length (filter is_alert (sort_by sort_key evs)).
Proof.
  unfold extract_causal_chain. intros H.
  apply bind_ok in H as [evs [Hp H]]. inversion H; subst; clear H.
  exists evs. simpl. auto.
Qed.

(** C1, amended. For a text that is not blank, [total_lines] is the number
    of lines of the text once the whitespace around it is stripped, empty
    lines included: one more than the number of its newline characters. *)
Theorem total_lines_counts_all_lines (raw : str) (d : Document) :
  strip raw <> [] ->
  extract_causal_chain raw = Ok d ->
  total_lines (summary d) = length (split_lines (strip raw))
  /\ total_lines (summary d) = S (count_occ ascii_dec (strip raw) newline).
Proof.
  intros _ H. apply extract_ok in H as [evs [_ [_ [H _]]]].
  rewrite H. unfold input_lines, split_lines.
  split; [reflexivity|apply count_split_from].
Qed.

Lemma total_lines_counts_all_lines_witness :
  strip blank_between <> []
  /\ exists d, extract_causal_chain blank_between = Ok d
       /\ total_lines (summary d)
          = S (count_occ ascii_dec (strip blank_between) newline).
Proof.
  split; [vm_compute; discriminate|].
  eexists. split; [vm_compute; reflexivity|].
  apply (total_lines_counts_all_lines blank_between);
    [vm_compute; discriminate|vm_compute; reflexivity].
Defined.

(** ** Format detection *)

Lemma existsb_firstn {A} (f : A -> bool) (n : nat) (l : list A) :
  existsb f (firstn n l) = true <->
  exists i x, i < n /\ nth_error l i = Some x /\ f x = true.
Proof.
  revert l. induction n as [|n IH]; intros l.
  - simpl. split; [discriminate|]. intros [i [x [Hi _]]]. lia.
  - destruct l as [|a l]; simpl.
    + split; [discriminate|]. intros [i [x [_ [Hx _]]]].
      destruct i; discriminate.
    + rewrite orb_true_iff, IH. split.
      * intros [Ha|[i [x [Hi [Hx Hf]]]]].
        -- exists 0, a. repeat split; auto. lia.
        -- exists (S i), x. repeat split; auto. lia.
      * intros [[|i] [x [Hi [Hx Hf]]]]; simpl in Hx.
        -- left. congruence.
        -- right. exists i, x. repeat split; auto. lia.
Qed.

Lemma has_kaggle_iff (lines : list str) :
  has_kaggle lines = true <-> kaggle_in_first_50 lines.
Proof. apply existsb_firstn. Qed.

Lemma has_amlsim_iff (lines : list str) :
  has_amlsim lines = true <-> begin_somewhere lines.
Proof. unfold has_amlsim, begin_somewhere. now rewrite existsb_exists. Qed.

(** C3, amended. The detection looks at the first 50 lines of the stripped
    text, empty lines counted: the format is KAGGLE exactly when one of them
    matches the tabular pattern; otherwise it is AMLSIM exactly when some
    line of the whole text starts a block; otherwise it is UNKNOWN. *)
Theorem detection_first_50_lines (raw : str) (d : Document) :
  extract_causal_chain raw = Ok d ->
  let lines := input_lines raw in
  let fmt := detected_format (summary d) in
  (fmt = KAGGLE <-> kaggle_in_first_50 lines)
  /\ (fmt = AMLSIM <-> ~ kaggle_in_first_50 lines /\ begin_somewhere lines)
  /\ (fmt = UNKNOWN_FORMAT <->
      ~ kaggle_in_first_50 lines /\ ~ begin_somewhere lines).
Proof.
  intros H lines fmt. apply extract_ok in H as [evs [_ [_ [_ [H _]]]]].
  unfold fmt. rewrite H. fold lines. unfold detect.
  rewrite <- has_kaggle_iff, <- has_amlsim_iff.
  destruct (has_kaggle lines), (has_amlsim lines);
    repeat split; intros; try discriminate; try tauto;
    try (intuition congruence).
Qed.

Lemma detection_first_50_lines_witness :
  exists d, extract_causal_chain kaggle_after_blanks = Ok d
    /\ (detected_format (summary d) = UNKNOWN_FORMAT <->
        ~ kaggle_in_first_50 (input_lines kaggle_after_blanks)
        /\ ~ begin_somewhere (input_lines kaggle_after_blanks)).
Proof.
  eexists. split; [vm_compute; reflexivity|].
  apply (detection_first_50_lines kaggle_after_blanks).
  vm_compute; reflexivity.
Defined.

(** ** Sorting *)

Lemma insert_by_perm {A} (key : A -> str) (x : A) (l : list A) :
  Permutation (x :: l) (insert_by key x l).
Proof.
  induction l as [|y l IH]; simpl; auto.
  destruct (str_leb (key x) (key y)); auto.
  rewrite perm_swap. now constructor.
Qed.

Lemma sort_by_perm {A} (key : A -> str) (l : list A) :
  Permutation l (sort_by key l).
Proof.
  induction l as [|x l IH]; simpl; auto.
  rewrite <- insert_by_perm. now constructor.
Qed.

(** ** raw_log *)

Lemma kaggle_line_raw_log (n : nat) (line : str) (evs : list Event) :
  kaggle_line n line = Ok evs ->
  map raw_log evs = if nonblank line then [rstrip line] else [].
Proof.
  unfold kaggle_line, nonblank. destruct (strip line) as [|c t]; simpl.
  - intros H. inversion H. reflexivity.
  - destruct (re_match KAGGLE_PATTERN line) as [groups|].
    + intros H. apply bind_ok in H as [a [_ H]]. inversion H. reflexivity.
    + intros H. inversion H. reflexivity.
Qed.

Lemma kaggle_loop_raw_log (lines : list str) :
  forall n evs, kaggle_loop n lines = Ok evs ->
  map raw_log evs = map rstrip (filter nonblank lines).
Proof.
  induction lines as [|line lines IH]; intros n evs H; simpl in H.
  - inversion H. reflexivity.
  - apply bind_ok in H as [es [H1 H]]. apply bind_ok in H as [es' [H2 H]].
    inversion H; subst; clear H. rewrite map_app.
    rewrite (kaggle_line_raw_log _ _ _ H1), (IH _ _ H2). simpl.
    destruct (nonblank line); reflexivity.
Qed.

Lemma fallback_raw_log (lines : list str) :
  map raw_log (fallback_events lines) = map rstrip (filter nonblank lines).
Proof.
  unfold fallback_events. rewrite map_map. reflexivity.
Qed.









(** ** Blocks *)

Lemma matches_cat (r1 r2 : regex) (s : str) :
  matches (Cat r1 r2) s =
  flat_map (fun m => map (with_caps (fst m)) (matches r2 (snd m)))
           (matches r1 s).
Proof. reflexivity. Qed.

Lemma lit_head (x : string) (a : ascii) (rest : str) (c : ascii) (s : str) :
  s_ x = a :: rest -> ci a c = false -> matches (lit x) (c :: s) = [].
Proof. unfold lit. intros -> H. simpl. now rewrite H. Qed.

Lemma ci_B_E (c : ascii) : ci "E"%char c = true -> ci "B"%char c = false.
Proof.
  unfold ci. intros H. apply Ascii.eqb_eq in H. rewrite H. reflexivity.
Qed.

(** No line is both a begin marker and an end marker. *)
Lemma begin_end_disjoint (s : str) :
  is_match END_PATTERN s = true -> re_match BEGIN_PATTERN s = None.
Proof.
  unfold is_match, re_match. destruct s as [|c s].
  - vm_compute. discriminate.
  - destruct (ci "E"%char c) eqn:HE.
    + intros _. apply ci_B_E in HE.
      unfold BEGIN_PATTERN, seq. cbn [fold_right]. rewrite matches_cat.
      now rewrite (lit_head "BEGIN LAUNDERING ATTEMPT - "%string "B"%char _
                            c s eq_refl HE).
    + unfold END_PATTERN.
      now rewrite (lit_head "END LAUNDERING ATTEMPT"%string "E"%char _
                            c s eq_refl HE).
Qed.

Lemma amlsim_loop_app (l1 l2 : list str) :
  forall st, amlsim_loop st (l1 ++ l2) =
             (st' <- amlsim_loop st l1 ;; amlsim_loop st' l2).
Proof.
  induction l1 as [|l l1 IH]; intros st; simpl; auto.
  destruct (amlsim_step st l) as [st'|e]; simpl; auto.
Qed.

(** An end marker met while a block is open flushes the block. *)
Lemma end_marker_open (st : AmlState) (line typ : str) :
  is_match END_PATTERN (strip line) = true ->
  open_block st = Some typ ->
  amlsim_step st line =
  (es <- summarize_block typ (current_txs st) ;;
   Ok {| events := events st ++ es;
         current_typology := None;
         current_txs := [] |}).
Proof.
  intros He Ho. unfold amlsim_step.
  rewrite (begin_end_disjoint _ He). unfold is_match in He.
  destruct (re_match END_PATTERN (strip line)); [|discriminate].
  now rewrite Ho.
Qed.

(** An end marker met while no block is open changes nothing. *)
Lemma end_marker_closed (st : AmlState) (line : str) :
  is_match END_PATTERN (strip line) = true ->
  open_block st = None ->
  amlsim_step st line = Ok st.
Proof.
  intros He Ho. unfold amlsim_step.
  rewrite (begin_end_disjoint _ He). rewrite Ho.
  now destruct (re_match END_PATTERN (strip line)).
Qed.

(** The summary of a block that has transactions: one alert, unless the
    total cannot be converted to an integer. *)
Lemma summarize_block_nonempty (typ : str) (txs : list Tx) :
  txs <> [] ->
  summarize_block typ txs =
  (amount <- int_of_float (float_sum (map tx_amount txs)) ;;
   let dates := sorted_set (map tx_date txs) in
   Ok [ {| timestamp := hd [] dates ++ s_ " 00:00:00";
           event_type := FINANCIAL_CRIME_ALERT;
           raw_log := s_ "Synthetic alert from " ++ typ
                      ++ s_ " block (" ++ str_of_nat (length txs)
                      ++ s_ " transactions)";
           details := BlockDetails (hd [] dates)
                        (s_ "SYN" ++ firstn 2 typ ++ pad4 (length txs))
                        (replace_char "_"%char "-"%char typ)
                        amount (length txs)
                        (hd [] dates ++ s_ " to " ++ last dates []) |} ]).
Proof. destruct txs; [congruence|reflexivity]. Qed.

(** C7, as worded, fails: the input ends inside a block of two transactions
    whose amounts are finite and whose total is not; the conversion of the
    total raises, and no event is produced. *)
Lemma unterminated_block_overflows :
  (exists st typ,
     amlsim_loop amlsim_init overflow_block_lines = Ok st
     /\ open_block st = Some typ
     /\ length (current_txs st) = 2
     /\ Forall (fun t => is_finite (tx_amount t) = true) (current_txs st))
  /\ detect overflow_block_lines = AMLSIM
  /\ parse_amlsim_format overflow_block_lines = Raise OverflowError
  /\ extract_causal_chain (join_lines overflow_block_lines)
     = Raise OverflowError
  /\ ~ open_block_yields_alert overflow_block_lines.
Proof.
  assert (Hl : exists st,
             amlsim_loop amlsim_init overflow_block_lines = Ok st
             /\ open_block st = Some (s_ "STACK")
             /\ length (current_txs st) = 2
             /\ forallb (fun t => is_finite (tx_amount t)) (current_txs st)
                = true).
  { eexists. split; [vm_compute; reflexivity|].
    split; [reflexivity|]. split; reflexivity. }
  assert (Hp : parse_amlsim_format overflow_block_lines = Raise OverflowError)
    by (vm_compute; reflexivity).
  destruct Hl as [st [H1 [H2 [H3 H4]]]].
  split; [|split; [|split; [exact Hp|split]]].
  - exists st, (s_ "STACK"). repeat split; auto.
    apply Forall_forall. rewrite forallb_forall in H4. exact H4.
  - vm_compute. reflexivity.
  - vm_compute. reflexivity.
  - intros H. destruct (H st (s_ "STACK") H1 H2) as [evs [e [He _]]].
    + intros E. rewrite E in H3. discriminate H3.
    + rewrite Hp in He. discriminate He.
Qed.

(** C7, amended. When the input ends inside a block that has transactions,
    the block is summarised at the end of the input, and the result, events
    or exception, is the one obtained with an end marker as last line.  When
    the total of the block converts to an integer, the summary is an alert
    event with this amount, after the events of the blocks before; when the
    conversion raises, as it does for a total that is not finite, the parser
    raises the same exception and produces no event. *)
Theorem unterminated_block_is_flushed
    (lines : list str) (st : AmlState) (typ end_marker : str) :
  amlsim_loop amlsim_init lines = Ok st ->
  open_block st = Some typ ->
  current_txs st <> [] ->
  is_match END_PATTERN (strip end_marker) = true ->
  parse_amlsim_format lines =
    (es <- summarize_block typ (current_txs st) ;; Ok (events st ++ es))
  /\ parse_amlsim_format (lines ++ [end_marker]) = parse_amlsim_format lines
  /\ (forall a,
       int_of_float (float_sum (map tx_amount (current_txs st))) = Ok a ->
       exists e,
         summarize_block typ (current_txs st) = Ok [e]
         /\ parse_amlsim_format lines = Ok (events st ++ [e])
         /\ event_type e = FINANCIAL_CRIME_ALERT
         /\ amount_of e = Some a)
  /\ (forall x,
       int_of_float (float_sum (map tx_amount (current_txs st))) = Raise x ->
       parse_amlsim_format lines = Raise x)
  /\ (is_finite (float_sum (map tx_amount (current_txs st))) = false ->
      exists x, parse_amlsim_format lines = Raise x).
Proof.
  intros Hl Ho Ht He.
  assert (H1 : parse_amlsim_format lines =
               (es <- summarize_block typ (current_txs st) ;;
                Ok (events st ++ es))).
  { unfold parse_amlsim_format. rewrite Hl. simpl. unfold amlsim_finish.
    rewrite Ho. destruct (current_txs st); [congruence|reflexivity]. }
  split; [exact H1|]. split.
  - rewrite H1. unfold parse_amlsim_format.
    rewrite amlsim_loop_app, Hl. simpl.
    rewrite (end_marker_open _ _ _ He Ho).
    destruct (summarize_block typ (current_txs st)) as [es|x]; simpl; auto.
  - split; [|split].
    + intros a Ha. rewrite H1.
      rewrite (summarize_block_nonempty typ _ Ht), Ha. simpl.
      eexists. repeat split.
    + intros x Hx. rewrite H1.
      rewrite (summarize_block_nonempty typ _ Ht), Hx. reflexivity.
    + intros Hi. rewrite H1.
      rewrite (summarize_block_nonempty typ _ Ht).
      destruct (float_sum (map tx_amount (current_txs st))) as [sg|sg| |sg m e];
        try discriminate Hi; eexists; reflexivity.
Qed.

Lemma unterminated_block_is_flushed_witness :
  exists st a e,
    amlsim_loop amlsim_init open_block_lines = Ok st
    /\ int_of_float (float_sum (map tx_amount (current_txs st))) = Ok a
    /\ parse_amlsim_format (open_block_lines ++ [end_line])
       = parse_amlsim_format open_block_lines
    /\ parse_amlsim_format open_block_lines = Ok (events st ++ [e]).
Proof.
  eexists. eexists.
  assert (Hl : amlsim_loop amlsim_init open_block_lines
               = Ok {| events := [];
                       current_typology := Some (s_ "FAN_OUT");
                       current_txs := sample_txs |})
    by (vm_compute; reflexivity).
  destruct (unterminated_block_is_flushed open_block_lines _
              (s_ "FAN_OUT") end_line Hl)
    as [_ [H2 [H3 _]]];
    [vm_compute; reflexivity|vm_compute; discriminate
    |vm_compute; reflexivity|].
  destruct (H3 350%Z) as [e [_ [He _]]]; [vm_compute; reflexivity|].
  exists e. split; [exact Hl|]. split; [vm_compute; reflexivity|].
  split; [exact H2|exact He].
Defined.

(** C10. An end marker met while no block is open leaves the state of the
    parser as it is: no event, no error entry, and the rest of the input is
    parsed as if the line were not there. *)
Theorem stray_end_marker_is_ignored
    (before after : list str) (st : AmlState) (end_marker : str) :
  amlsim_loop amlsim_init before = Ok st ->
  current_typology st = None ->
  is_match END_PATTERN (strip end_marker) = true ->
  amlsim_step st end_marker = Ok st
  /\ parse_amlsim_format (before ++ end_marker :: after)
     = parse_amlsim_format (before ++ after).
Proof.
  intros Hl Hn He.
  assert (Ho : open_block st = None) by (unfold open_block; now rewrite Hn).
  pose proof (end_marker_closed _ _ He Ho) as Hs.
  split; [exact Hs|].
  unfold parse_amlsim_format. rewrite !amlsim_loop_app, Hl. simpl.
  now rewrite Hs.
Qed.

Lemma stray_end_marker_is_ignored_witness :
  exists evs,
    parse_amlsim_format ([] ++ end_line :: block_lines) = Ok evs
    /\ parse_amlsim_format ([] ++ block_lines) = Ok evs
    /\ length evs = 1.
Proof.
  eexists.
  destruct (stray_end_marker_is_ignored [] block_lines amlsim_init end_line)
    as [_ H]; [reflexivity|reflexivity|vm_compute; reflexivity|].
  split; [rewrite H|split]; vm_compute; reflexivity.
Defined.

Lemma digits_value (d : Decimal.uint) :
  forall acc,
    fold_left (fun a c => (10 * a + digit_val c)%Z)
      (s_ (NilEmpty.string_of_uint d)) (Z.of_nat acc)
    = Z.of_nat (Nat.of_uint_acc d acc).
Proof.
  induction d; intros acc;
    cbn [fold_left s_ list_ascii_of_string NilEmpty.string_of_uint
         Nat.of_uint_acc]; auto;
    rewrite <- IHd; f_equal; rewrite Nat.tail_mul_spec;
    match goal with
    | |- context [digit_val ?c] =>
        let v := eval vm_compute in (digit_val c) in
        change (digit_val c) with v
    end; lia.
Qed.

Lemma value_of_str_of_nat (n : nat) : Z_of_digits (str_of_nat n) = Z.of_nat n.
Proof.
  unfold Z_of_digits, str_of_nat.
  change 0%Z with (Z.of_nat 0). rewrite digits_value.
  f_equal. apply DecimalNat.Unsigned.of_to.
Qed.

Lemma value_of_zeros (k : nat) (s : str) :
  Z_of_digits (repeat "0"%char k ++ s) = Z_of_digits s.
Proof.
  unfold Z_of_digits. rewrite fold_left_app. f_equal.
  induction k; simpl; auto.
Qed.

(** The padded count reads as the count. *)
Lemma value_of_pad4 (n : nat) : Z_of_digits (pad4 n) = Z.of_nat n.
Proof. unfold pad4. now rewrite value_of_zeros, value_of_str_of_nat. Qed.

(** C8, amended. The case identifier of the summary of a block is SYN, then
    the first two characters of the typology (all of it when it is shorter),
    then the number of transactions padded with zeros to four digits at
    least; it depends on the typology and on that number only. *)
Theorem case_id_of_block (typ : str) (txs : list Tx) (evs : list Event) :
  txs <> [] ->
  summarize_block typ txs = Ok evs ->
  (exists e, evs = [e]
     /\ case_id_of e = Some (s_ "SYN" ++ firstn 2 typ ++ pad4 (length txs)))
  /\ 4 <= length (pad4 (length txs))
  /\ Z_of_digits (pad4 (length txs)) = Z.of_nat (length txs)
  /\ forall txs' evs',
       length txs' = length txs -> summarize_block typ txs' = Ok evs' ->
       map case_id_of evs' = map case_id_of evs.
Proof.
  intros Ht H. rewrite (summarize_block_nonempty typ txs Ht) in H.
  apply bind_ok in H as [a [_ H]]. inversion H; subst; clear H.
  split; [eexists; split; reflexivity|]. split; [|split].
  - unfold pad4. rewrite length_app, repeat_length. lia.
  - apply value_of_pad4.
  - intros txs' evs' Hlen H'.
    assert (Ht' : txs' <> []) by (destruct txs', txs; simpl in *; congruence).
    rewrite (summarize_block_nonempty typ txs' Ht') in H'.
    apply bind_ok in H' as [a' [_ H']]. inversion H'; subst; clear H'.
    simpl. now rewrite Hlen.
Qed.

Lemma case_id_of_block_witness :
  sample_txs <> []
  /\ exists e, summarize_block (s_ "FAN_OUT") sample_txs = Ok [e]
       /\ case_id_of e = Some (s_ "SYNFA0002").
Proof.
  split; [discriminate|].
  destruct (case_id_of_block (s_ "FAN_OUT") sample_txs
              ltac:(let v := eval vm_compute in
                      (match summarize_block (s_ "FAN_OUT") sample_txs with
                       | Ok l => l | Raise _ => [] end) in exact v))
    as [[e [He Hc]] _]; [discriminate|vm_compute; reflexivity|].
  exists e. split; [rewrite <- He; vm_compute; reflexivity|exact Hc].
Defined.

(** ** Matching a text and a prefix of it

    The ways of matching a prefix [s] of a text [s ++ t] are the ways of
    matching the text that stop inside [s], in the same order: the patterns
    have neither an end anchor nor a look-ahead. *)

Section ListFacts.
Context {A B C : Type}.

Lemma flat_map_pointwise (f g : A -> list B) (l : list A) :
  (forall x, In x l -> f x = g x) -> flat_map f l = flat_map g l.
Proof.
  induction l as [|a l IH]; simpl; intros H; auto.
  rewrite H by auto. now rewrite IH by auto.
Qed.

Lemma flat_map_nil (f : A -> list B) (l : list A) :
  (forall x, In x l -> f x = []) -> flat_map f l = [].
Proof.
  induction l as [|a l IH]; simpl; intros H; auto.
  rewrite H by auto. now rewrite IH by auto.
Qed.

Lemma flat_map_twice (f : A -> list B) (g : B -> list C) (l : list A) :
  flat_map g (flat_map f l) = flat_map (fun x => flat_map g (f x)) l.
Proof.
  induction l as [|a l IH]; simpl; auto.
  now rewrite flat_map_app, IH.
Qed.

Lemma map_of_flat_map (f : A -> list B) (g : B -> C) (l : list A) :
  map g (flat_map f l) = flat_map (fun x => map g (f x)) l.
Proof.
  induction l as [|a l IH]; simpl; auto.
  now rewrite map_app, IH.
Qed.

Lemma flat_map_one (f : A -> list B) (x : A) : flat_map f [x] = f x.
Proof. simpl. apply app_nil_r. Qed.

Lemma flat_map_first (f : A -> list B) (x : A) (l : list A) :
  flat_map f (x :: l) = f x ++ flat_map f l.
Proof. reflexivity. Qed.

Lemma flat_map_of_map (f : A -> B) (g : B -> list C) (l : list A) :
  flat_map g (map f l) = flat_map (fun x => g (f x)) l.
Proof.
  induction l as [|a l IH]; simpl; auto. now rewrite IH.
Qed.
End ListFacts.

Lemma suffix_split {A} (p y s t : list A) :
  p ++ y = s ++ t -> length t <= length y ->
  exists s1, y = s1 ++ t /\ s = p ++ s1.
Proof.
  revert s. induction p as [|a p IH]; intros s E L; simpl in E.
  - subst y. exists s. auto.
  - destruct s as [|b s]; simpl in E.
    + subst t. simpl in L. rewrite length_app in L. lia.
    + inversion E; subst. destruct (IH s H1 L) as [s1 [E1 E2]].
      exists s1. subst. auto.
Qed.

Lemma cut_keep (c : list str) (s1 t : str) :
  cut (length t) (c, s1 ++ t) = [(c, s1)].
Proof.
  unfold cut. simpl. rewrite length_app.
  destruct (Nat.leb_spec (length t) (length s1 + length t)); [|lia].
  replace (length s1 + length t - length t) with (length s1) by lia.
  now rewrite firstn_app, Nat.sub_diag, firstn_all, app_nil_r.
Qed.

Lemma cut_drop (k : nat) (m : mres) : length (snd m) < k -> cut k m = [].
Proof.
  intros H. unfold cut. destruct (Nat.leb_spec k (length (snd m))); [lia|auto].
Qed.

Lemma cut_with_caps (k : nat) (c : list str) (m : mres) :
  cut k (with_caps c m) = map (with_caps c) (cut k m).
Proof. unfold cut, with_caps. simpl. now destruct (k <=? length (snd m)). Qed.

Lemma consumed_prefix (p x : str) : consumed (p ++ x) x = p.
Proof.
  unfold consumed. rewrite length_app.
  replace (length p + length x - length x) with (length p) by lia.
  now rewrite firstn_app, Nat.sub_diag, firstn_all, app_nil_r.
Qed.

Section Star.
Variable greedy : bool.
Variable body : str -> list mres.
Hypothesis body_suffix : leaves_suffix body.

Lemma star_loop_suffix (n : nat) :
  forall s m, In m (star_loop greedy body n s) -> exists p, s = p ++ snd m.
Proof.
  induction n as [|n IH]; intros s m H; simpl in H.
  - destruct H as [<-|[]]. now exists [].
  - unfold star_round in H.
    assert (Hmore :
      In m (flat_map (fun m0 =>
              if length (snd m0) <? length s
              then map (with_caps (fst m0))
                       (star_loop greedy body n (snd m0))
              else []) (body s)) -> exists p, s = p ++ snd m).
    { intros Hin. apply in_flat_map in Hin as [m1 [H1 H2]].
      destruct (length (snd m1) <? length s); [|destruct H2].
      apply in_map_iff in H2 as [m2 [<- H2]].
      destruct (body_suffix _ _ H1) as [p1 E1].
      destruct (IH _ _ H2) as [p2 E2].
      exists (p1 ++ p2). unfold with_caps. simpl.
      rewrite <- app_assoc, <- E2. exact E1. }
    destruct greedy.
    + apply in_app_or in H as [H|[<-|[]]]; auto. now exists [].
    + destruct H as [<-|H]; auto. now exists [].
Qed.

(** Fuel beyond the length of the text is not used. *)
Lemma star_loop_fuel (n : nat) :
  forall k s, length s <= n -> length s <= k ->
  star_loop greedy body n s = star_loop greedy body k s.
Proof.
  induction n as [|n IH]; intros k s Hn Hk.
  - destruct s; [|simpl in Hn; lia]. destruct k; auto.
    simpl. unfold star_round.
    rewrite flat_map_nil by (intros x _; reflexivity).
    now destruct greedy.
  - destruct k as [|k].
    + destruct s; [|simpl in Hk; lia]. simpl. unfold star_round.
      rewrite flat_map_nil by (intros x _; reflexivity).
      now destruct greedy.
    + simpl. unfold star_round.
      rewrite (flat_map_pointwise _
        (fun m => if length (snd m) <? length s
                  then map (with_caps (fst m))
                           (star_loop greedy body k (snd m))
                  else [])); auto.
      intros m _. destruct (Nat.ltb_spec (length (snd m)) (length s)); auto.
      rewrite (IH k) by lia. reflexivity.
Qed.

Hypothesis body_stable : prefix_stable body.

Lemma star_loop_stable (n : nat) :
  forall s t, length (s ++ t) <= n ->
  star_loop greedy body n s
  = flat_map (cut (length t)) (star_loop greedy body n (s ++ t)).
Proof.
  induction n as [|n IH]; intros s t Hn.
  - destruct s; [|simpl in Hn; lia]. destruct t; [|simpl in Hn; lia].
    reflexivity.
  - simpl. unfold star_round.
    assert (Hmore :
      flat_map (fun m =>
         if length (snd m) <? length s
         then map (with_caps (fst m)) (star_loop greedy body n (snd m))
         else []) (body s)
      = flat_map (cut (length t))
          (flat_map (fun m =>
             if length (snd m) <? length (s ++ t)
             then map (with_caps (fst m)) (star_loop greedy body n (snd m))
             else []) (body (s ++ t)))).
    { rewrite (body_stable s t), !flat_map_twice.
      apply flat_map_pointwise. intros m1 H1.
      destruct (body_suffix _ _ H1) as [p E].
      destruct (Nat.le_gt_cases (length t) (length (snd m1))) as [L|L].
      - symmetry in E. destruct (suffix_split _ _ _ _ E L) as [s1 [E1 E2]].
        destruct m1 as [c1 r1]. simpl in *. subst r1.
        rewrite cut_keep. simpl. rewrite app_nil_r.
        rewrite !length_app.
        destruct (Nat.ltb_spec (length s1) (length s));
          destruct (Nat.ltb_spec (length s1 + length t)
                                 (length s + length t)); try lia; auto.
        rewrite flat_map_of_map.
        rewrite (flat_map_pointwise _
           (fun x => map (with_caps c1) (cut (length t) x)))
          by (intros; apply cut_with_caps).
        rewrite <- map_of_flat_map. f_equal.
        apply IH. rewrite length_app in *. lia.
      - rewrite cut_drop by auto. simpl.
        match goal with
        | |- context [if ?b then _ else _] => destruct b; auto
        end.
        rewrite flat_map_of_map. symmetry. apply flat_map_nil.
        intros m2 H2. destruct (star_loop_suffix _ _ _ H2) as [p2 E2].
        apply cut_drop. unfold with_caps. simpl.
        apply (f_equal (@length _)) in E2. rewrite length_app in E2. lia. }
    destruct greedy.
    + rewrite flat_map_app, <- Hmore, flat_map_one.
      now rewrite (cut_keep [] s t).
    + rewrite flat_map_first, (cut_keep [] s t), <- Hmore. reflexivity.
Qed.
End Star.

Lemma matches_suffix (r : regex) : leaves_suffix (matches r).
Proof.
  induction r as [|p|r1 IH1 r2 IH2|g r IH|r IH]; intros s m H; simpl in H.
  - destruct H as [<-|[]]. now exists [].
  - destruct s as [|c s]; [destruct H|].
    destruct (p c); [|destruct H]. destruct H as [<-|[]]. now exists [c].
  - apply in_flat_map in H as [m1 [H1 H2]].
    apply in_map_iff in H2 as [m2 [<- H2]].
    destruct (IH1 _ _ H1) as [p1 E1]. destruct (IH2 _ _ H2) as [p2 E2].
    exists (p1 ++ p2). unfold with_caps. simpl.
        rewrite <- app_assoc, <- E2. exact E1.
  - now apply (star_loop_suffix g (matches r) IH (length s)).
  - apply in_map_iff in H as [m1 [<- H1]]. simpl. now apply IH.
Qed.

Theorem matches_prefix_stable (r : regex) : prefix_stable (matches r).
Proof.
  induction r as [|p|r1 IH1 r2 IH2|g r IH|r IH]; intros s t.
  - simpl. rewrite (cut_keep [] s t). reflexivity.
  - destruct s as [|c s]; simpl.
    + destruct t as [|c t]; simpl; auto. destruct (p c); simpl; auto.
      rewrite cut_drop by (simpl; lia). reflexivity.
    + destruct (p c); simpl; auto. now rewrite (cut_keep [] s t).
  - simpl. rewrite (IH1 s t), !flat_map_twice.
    apply flat_map_pointwise. intros m1 H1.
    destruct (matches_suffix r1 _ _ H1) as [p E].
    destruct (Nat.le_gt_cases (length t) (length (snd m1))) as [L|L].
    + symmetry in E. destruct (suffix_split _ _ _ _ E L) as [s1 [E1 E2]].
      destruct m1 as [c1 x1]. simpl in *. subst x1.
      rewrite cut_keep. simpl. rewrite app_nil_r.
      rewrite flat_map_of_map.
      rewrite (flat_map_pointwise _
         (fun x => map (with_caps c1) (cut (length t) x)))
        by (intros; apply cut_with_caps).
      rewrite <- map_of_flat_map. f_equal. apply IH2.
    + rewrite cut_drop by auto. simpl.
      rewrite flat_map_of_map. symmetry. apply flat_map_nil.
      intros m2 H2. destruct (matches_suffix r2 _ _ H2) as [p2 E2].
      apply cut_drop. unfold with_caps. simpl.
      apply (f_equal (@length _)) in E2. rewrite length_app in E2. lia.
  - simpl.
    rewrite (star_loop_fuel g (matches r) (length s) (length (s ++ t)))
      by (rewrite ?length_app; lia).
    apply star_loop_stable; auto. apply matches_suffix.
  - simpl. rewrite (IH s t), map_of_flat_map, flat_map_of_map.
    apply flat_map_pointwise. intros m1 H1.
    destruct (matches_suffix r _ _ H1) as [p E].
    destruct (Nat.le_gt_cases (length t) (length (snd m1))) as [L|L].
    + symmetry in E. destruct (suffix_split _ _ _ _ E L) as [s1 [E1 E2]].
      destruct m1 as [c1 x1]. simpl in *. subst x1 s.
      rewrite !cut_keep. simpl.
      rewrite <- app_assoc. now rewrite !consumed_prefix.
    + rewrite !cut_drop by auto. reflexivity.
Qed.

(** ** Where a match of the tabular pattern ends and starts *)

Lemma ends_in_cat (P : ascii -> Prop) (r1 r2 : regex) :
  ends_in P r2 -> ends_in P (Cat r1 r2).
Proof.
  intros H s m Hm. simpl in Hm.
  apply in_flat_map in Hm as [m1 [H1 H2]].
  apply in_map_iff in H2 as [m2 [<- H2]].
  destruct (matches_suffix r1 _ _ H1) as [p1 E1].
  destruct (H _ _ H2) as [p2 [c [E2 Hc]]].
  exists (p1 ++ p2), c. split; auto. unfold with_caps. simpl.
  rewrite E1, E2. now rewrite <- !app_assoc.
Qed.

Lemma ends_in_eps (P : ascii -> Prop) (r : regex) :
  ends_in P r -> ends_in P (Cat r Eps).
Proof.
  intros H s m Hm. simpl in Hm.
  apply in_flat_map in Hm as [m1 [H1 H2]].
  simpl in H2. destruct H2 as [<-|[]]. unfold with_caps. simpl.
  now apply H.
Qed.

Lemma ends_in_grp (P : ascii -> Prop) (r : regex) :
  ends_in P r -> ends_in P (Grp r).
Proof.
  intros H s m Hm. simpl in Hm.
  apply in_map_iff in Hm as [m1 [<- H1]]. simpl. now apply H.
Qed.

Lemma ends_in_seq (P : ascii -> Prop) (rs : list regex) :
  rs <> [] -> ends_in P (last rs Eps) -> ends_in P (seq rs).
Proof.
  induction rs as [|r rs IH]; [congruence|]. intros _ H.
  destruct rs as [|r' rs].
  - simpl in *. now apply ends_in_eps.
  - change (seq (r :: r' :: rs)) with (Cat r (seq (r' :: rs))).
    apply ends_in_cat. apply IH; [discriminate|exact H].
Qed.

Lemma star_chr_all (g : bool) (X : ascii -> bool) (n : nat) :
  forall s m, In m (star_loop g (matches (Chr X)) n s) ->
    exists p, s = p ++ snd m /\ Forall (fun c => X c = true) p.
Proof.
  induction n as [|n IH]; intros s m H; simpl in H.
  - destruct H as [<-|[]]. exists []. auto.
  - unfold star_round in H.
    assert (Hmore :
      In m (flat_map (fun m0 =>
              if length (snd m0) <? length s
              then map (with_caps (fst m0))
                       (star_loop g (matches (Chr X)) n (snd m0))
              else []) (matches (Chr X) s)) ->
      exists p, s = p ++ snd m /\ Forall (fun c => X c = true) p).
    { intros Hin. apply in_flat_map in Hin as [m1 [H1 H2]].
      simpl in H1. destruct s as [|c s]; [destruct H1|].
      destruct (X c) eqn:Hc; [|destruct H1]. destruct H1 as [<-|[]].
      simpl in H2.
      destruct (length s <? S (length s)); [|destruct H2].
      apply in_map_iff in H2 as [m2 [<- H2]].
      destruct (IH _ _ H2) as [p [E F]].
      exists (c :: p). unfold with_caps. simpl. split; [congruence|auto]. }
    destruct g.
    + apply in_app_or in H as [H|[<-|[]]]; auto. exists []. auto.
    + destruct H as [<-|H]; auto. exists []. auto.
Qed.

Lemma ends_in_plus_chr (P : ascii -> Prop) (X : ascii -> bool) :
  (forall c, X c = true -> P c) -> ends_in P (plus (Chr X)).
Proof.
  intros HX s m Hm. unfold plus in Hm. rewrite matches_cat in Hm.
  apply in_flat_map in Hm as [m1 [H1 H2]].
  simpl in H1. destruct s as [|c s]; [destruct H1|].
  destruct (X c) eqn:Hc; [|destruct H1]. destruct H1 as [<-|[]].
  apply in_map_iff in H2 as [m2 [<- H2]]. simpl in H2.
  destruct (star_chr_all _ _ _ _ _ H2) as [p [E F]].
  unfold with_caps. simpl.
  assert (Hall : Forall (fun c => X c = true) (c :: p)) by auto.
  destruct (exists_last (l := c :: p)) as [q [c' Eq]]; [discriminate|].
  exists q, c'. split.
  - rewrite <- Eq. simpl. congruence.
  - apply HX. rewrite Forall_forall in Hall. apply Hall.
    rewrite Eq. apply in_or_app. right. now left.
Qed.

Lemma digit_not_space (c : ascii) : is_space c = true -> is_digit c = false.
Proof.
  unfold is_space, is_digit. intros H.
  rewrite !orb_true_iff, !andb_true_iff, !Nat.leb_le, !Nat.eqb_eq in H.
  apply andb_false_iff. rewrite !Nat.leb_gt. lia.
Qed.

Lemma amount_char_not_space (c : ascii) :
  is_digit_or "," c = true -> is_space c = false.
Proof.
  unfold is_digit_or. intros H. apply orb_true_iff in H as [H|H].
  - destruct (is_space c) eqn:Hs; auto.
    apply digit_not_space in Hs. congruence.
  - simpl in H. rewrite orb_false_r in H. apply Ascii.eqb_eq in H.
    subst c. reflexivity.
Qed.

(** A match of the tabular pattern stops after a digit or a comma. *)
Lemma kaggle_ends_in_amount :
  ends_in (fun c => is_space c = false) KAGGLE_PATTERN.
Proof.
  unfold KAGGLE_PATTERN. apply ends_in_seq; [discriminate|].
  cbn [last]. apply ends_in_grp. apply ends_in_plus_chr.
  apply amount_char_not_space.
Qed.

(** Whitespace before a pattern that starts with [\s*] and goes on with
    something that is not whitespace does not change the ways of matching. *)
Lemma leading_space_skipped (r : regex) (sp s : str) :
  (forall c t, is_space c = true -> matches r (c :: t) = []) ->
  forallb is_space sp = true ->
  lstrip s = s ->
  matches (Cat ws r) (sp ++ s) = matches (Cat ws r) s.
Proof.
  intros Hr Hsp Hs. rewrite !matches_cat.
  set (F := fun m : mres => map (with_caps (fst m)) (matches r (snd m))).
  assert (Hbase : forall n, star_loop true (matches (Chr is_space)) n s
                            = [([], s)]).
  { intros [|n]; auto. simpl. unfold star_round.
    destruct s as [|c s]; auto. simpl in Hs |- *.
    destruct (is_space c); auto.
    exfalso. pose proof (lstrip_spec s) as [q [E _]].
    apply (f_equal (@length _)) in Hs, E.
    simpl in Hs. rewrite length_app in E. lia. }
  assert (Hgen : forall n, length (sp ++ s) <= n ->
            flat_map F (star_loop true (matches (Chr is_space)) n (sp ++ s))
            = F ([], s)).
  { induction sp as [|c sp IH]; intros n Hn.
    - simpl. rewrite Hbase. apply flat_map_one.
    - simpl in Hsp. apply andb_true_iff in Hsp as [Hc Hsp].
      destruct n as [|n]; [simpl in Hn; lia|].
      simpl. unfold star_round. simpl. rewrite Hc. simpl.
      destruct (Nat.ltb_spec (length (sp ++ s)) (S (length (sp ++ s))));
        [|lia].
      rewrite app_nil_r, flat_map_app, flat_map_one, flat_map_of_map.
      unfold F at 2. simpl. rewrite (Hr c _ Hc). rewrite app_nil_r.
      rewrite <- (IH Hsp n) by (simpl in Hn; lia).
      apply flat_map_pointwise. intros [c0 x0] _. reflexivity. }
  change (matches ws (sp ++ s)) with
    (star_loop true (matches (Chr is_space)) (length (sp ++ s)) (sp ++ s)).
  change (matches ws s) with
    (star_loop true (matches (Chr is_space)) (length s) s).
  rewrite (Hgen _ (Nat.le_refl _)). rewrite Hbase. now rewrite flat_map_one.
Qed.

Lemma rstrip_app_space (s sp : str) :
  forallb is_space sp = true -> rstrip (s ++ sp) = rstrip s.
Proof.
  intros H. unfold rstrip. rewrite rev_app_distr.
  rewrite lstrip_all_space; auto.
  rewrite forallb_forall in *. intros x Hx. apply H. now apply in_rev.
Qed.

(** A line that is not blank: whitespace, the stripped line, whitespace. *)
Lemma strip_decompose (s : str) :
  strip s <> [] ->
  exists sp1 sp2,
    forallb is_space sp1 = true /\ forallb is_space sp2 = true
    /\ s = sp1 ++ lstrip s /\ lstrip s = strip s ++ sp2
    /\ rstrip s = sp1 ++ strip s
    /\ lstrip (strip s) = strip s /\ rstrip (strip s) = strip s.
Proof.
  intros Hne.
  destruct (lstrip_spec s) as [sp1 [E1 F1]].
  destruct (rstrip_spec (lstrip s)) as [sp2 [E2 F2]].
  fold (strip s) in E2.
  assert (Hl : lstrip (strip s) = strip s).
  { pose proof (lstrip_head s) as Hh. unfold strip in *.
    destruct (lstrip s) as [|c t]; [reflexivity|].
    destruct (rstrip_keeps_head c t Hh) as [t' ->]. now apply lstrip_fixed. }
  assert (Hr : rstrip (strip s) = strip s) by apply rstrip_idem.
  exists sp1, sp2. repeat split; auto.
  rewrite E1 at 1. rewrite E2, app_assoc, rstrip_app_space by auto.
  destruct (rstrip_last (lstrip s)) as [E|[p [c [E Hc]]]];
    fold (strip s) in E; [congruence|].
  rewrite E, app_assoc. now apply rstrip_app_nonspace.
Qed.

Lemma in_tail_of_split {A} (p : list A) (c : A) (b x y : list A) :
  (p ++ [c]) ++ b = x ++ y -> length b < length y -> In c y.
Proof.
  revert x. induction p as [|a p IH]; intros x E L.
  - destruct x as [|a x]; simpl in E.
    + subst y. now left.
    + injection E as _ Eb. apply (f_equal (@length _)) in Eb.
      rewrite length_app in Eb. lia.
  - destruct x as [|a' x]; simpl in E.
    + subst y. right. apply in_or_app. left. apply in_or_app. right.
      now left.
    + injection E as _ Eb. eapply IH; eauto.
Qed.

(** The groups of a line of the tabular format are those of the line
    without the whitespace around it. *)
Lemma kaggle_match_strip (line : str) (groups : list str) :
  re_match KAGGLE_PATTERN line = Some groups ->
  strip line <> [] ->
  re_match KAGGLE_PATTERN (strip line) = Some groups.
Proof.
  intros Hm Hne.
  destruct (strip_decompose line Hne)
    as [sp1 [sp2 [F1 [F2 [E1 [E2 _]]]]]].
  assert (Hlead : matches KAGGLE_PATTERN line
                  = matches KAGGLE_PATTERN (lstrip line)).
  { rewrite E1 at 1. unfold KAGGLE_PATTERN, seq. cbn [fold_right].
    apply leading_space_skipped; auto using lstrip_idem.
    intros c t Hc. unfold plus, digit.
    rewrite !matches_cat. simpl. now rewrite (digit_not_space c Hc). }
  unfold re_match in *. rewrite Hlead in Hm.
  rewrite (matches_prefix_stable KAGGLE_PATTERN (strip line) sp2), <- E2.
  destruct (matches KAGGLE_PATTERN (lstrip line)) as [|m0 ms] eqn:Hms;
    [discriminate|].
  inversion Hm; subst groups; clear Hm.
  destruct (kaggle_ends_in_amount (lstrip line) m0) as [p [c [E Hc]]];
    [rewrite Hms; now left|].
  rewrite flat_map_first. unfold cut at 1.
  destruct (Nat.leb_spec (length sp2) (length (snd m0))) as [L|L];
    [reflexivity|].
  exfalso. rewrite E2 in E. symmetry in E.
  apply in_tail_of_split in E; auto.
  rewrite forallb_forall in F2. rewrite (F2 c E) in Hc. discriminate.
Qed.

(** ** Running the core again on a [raw_log] *)

Lemma kaggle_line_alert (n : nat) (line : str) (e : Event) :
  kaggle_line n line = Ok [e] ->
  event_type e = FINANCIAL_CRIME_ALERT ->
  exists groups a,
    strip line <> []
    /\ re_match KAGGLE_PATTERN line = Some groups
    /\ py_int (remove_char ","%char (nth 3 groups [])) = Ok a
    /\ e = alert_event line groups a.
Proof.
  unfold kaggle_line. intros H He.
  destruct (strip line) as [|c t] eqn:Hs; [discriminate|].
  destruct (re_match KAGGLE_PATTERN line) as [groups|].
  - apply bind_ok in H as [a [Ha H]]. inversion H; subst; clear H.
    exists groups, a. repeat split; auto. discriminate.
  - inversion H; subst. discriminate.
Qed.

Lemma kaggle_line_of_match (n : nat) (line : str) (groups : list str) (a : Z) :
  strip line <> [] ->
  re_match KAGGLE_PATTERN line = Some groups ->
  py_int (remove_char ","%char (nth 3 groups [])) = Ok a ->
  kaggle_line n line = Ok [alert_event line groups a].
Proof.
  unfold kaggle_line. intros Hs Hm Ha.
  destruct (strip line); [congruence|]. rewrite Hm, Ha. reflexivity.
Qed.

Lemma strip_rstrip (s : str) : strip s <> [] -> strip (rstrip s) = strip s.
Proof.
  intros Hne.
  destruct (strip_decompose s Hne) as [sp1 [_ [F1 [_ [_ [_ [E [Hl Hr]]]]]]]].
  unfold strip at 1. rewrite E, lstrip_all_space by auto.
  now rewrite Hl.
Qed.

Lemma strip_idem (s : str) : strip (strip s) = strip s.
Proof.
  destruct (strip s) as [|c t] eqn:Hs; [reflexivity|]. rewrite <- Hs.
  assert (Hne : strip s <> []) by congruence.
  destruct (strip_decompose s Hne) as [_ [_ [_ [_ [_ [_ [_ [Hl Hr]]]]]]]].
  unfold strip at 1. now rewrite Hl.
Qed.

Lemma in_strip (s : str) (c : ascii) : In c (strip s) -> In c s.
Proof.
  intros H. destruct (lstrip_spec s) as [sp1 [E1 _]].
  destruct (rstrip_spec (lstrip s)) as [sp2 [E2 _]].
  rewrite E1, E2. apply in_or_app. right. apply in_or_app. now left.
Qed.

(** C9, amended. The event of a line of the tabular format is obtained
    again, alone, by running the core on its [raw_log], up to the whitespace
    that starts the line: timestamp, type and details are the same, and the
    new [raw_log] is the old one without its leading whitespace.  For a line
    that does not start with whitespace the event is the same. *)
Theorem rerun_on_raw_log (n : nat) (line : str) (e : Event) :
  ~ In newline line ->
  kaggle_line n line = Ok [e] ->
  event_type e = FINANCIAL_CRIME_ALERT ->
  exists d e',
    extract_causal_chain (raw_log e) = Ok d
    /\ causal_chain d = [e']
    /\ timestamp e' = timestamp e
    /\ event_type e' = event_type e
    /\ details e' = details e
    /\ raw_log e' = lstrip (raw_log e)
    /\ (lstrip line = line -> e' = e).
Proof.
  intros Hnl H He.
  destruct (kaggle_line_alert n line e H He)
    as [groups [a [Hne [Hm [Ha ->]]]]].
  destruct (strip_decompose line Hne)
    as [sp1 [sp2 [F1 [F2 [E1 [E2 [Er [Hl Hr]]]]]]]].
  pose proof (kaggle_match_strip line groups Hm Hne) as Hm'.
  assert (Hlines : input_lines (rstrip line) = [strip line]).
  { unfold input_lines, split_lines. rewrite (strip_rstrip line Hne).
    apply split_no_newline. intros Hin. apply Hnl. now apply in_strip. }
  assert (Hne' : strip (strip line) <> []) by now rewrite strip_idem.
  assert (Hparse : parse_events [strip line]
                   = Ok [alert_event (strip line) groups a]).
  { unfold parse_events, has_kaggle. simpl firstn. simpl existsb.
    unfold is_match. rewrite Hm'. simpl.
    unfold parse_kaggle_format. simpl.
    now rewrite (kaggle_line_of_match 1 _ groups a Hne' Hm' Ha). }
  exists {| causal_chain := [alert_event (strip line) groups a];
            summary :=
              {| total_alerts := 1;
                 total_amount_at_risk := a;
                 total_lines := 1;
                 unmatched_lines := 0;
                 detected_format := detect [strip line] |} |},
         (alert_event (strip line) groups a).
  split.
  - unfold extract_causal_chain. simpl raw_log. rewrite Hlines, Hparse.
    reflexivity.
  - simpl. repeat split; auto.
    + rewrite Hr, Er, lstrip_all_space by auto. now rewrite Hl.
    + intros Hfix. unfold alert_event. f_equal.
      rewrite Hr. unfold strip. now rewrite Hfix.
Qed.

Lemma rerun_on_raw_log_witness :
  let e := first_event (kaggle_line 2 indented_line) in
  ~ In newline indented_line
  /\ kaggle_line 2 indented_line = Ok [e]
  /\ event_type e = FINANCIAL_CRIME_ALERT
  /\ exists d e',
       extract_causal_chain (raw_log e) = Ok d
       /\ causal_chain d = [e']
       /\ details e' = details e
       /\ raw_log e' = lstrip (raw_log e).
Proof.
  intros e.
  assert (H1 : ~ In newline indented_line).
  { intros H. vm_compute in H.
    repeat (destruct H as [H|H]; [discriminate H|]). exact H. }
  assert (H2 : kaggle_line 2 indented_line = Ok [e])
    by (vm_compute; reflexivity).
  assert (H3 : event_type e = FINANCIAL_CRIME_ALERT)
    by (vm_compute; reflexivity).
  split; [exact H1|]. split; [exact H2|]. split; [exact H3|].
  destruct (rerun_on_raw_log 2 indented_line e H1 H2 H3)
    as [d [e' [Hd [Hc [_ [_ [Hdet [Hraw _]]]]]]]].
  exists d, e'. auto.
Defined.

(** ** The order of the chain *)

Lemma str_compare_refl (a : str) : str_compare a a = Eq.
Proof.
  induction a as [|x a IH]; simpl; auto. now rewrite Nat.compare_refl.
Qed.

Lemma str_compare_eq (a b : str) : str_compare a b = Eq -> a = b.
Proof.
  revert b. induction a as [|x a IH]; intros [|y b] H; simpl in H;
    try discriminate; auto.
  destruct (Nat.compare_spec (code x) (code y)) as [E| |]; try discriminate.
  unfold code in E.
  rewrite <- (ascii_nat_embedding x), <- (ascii_nat_embedding y), E.
  f_equal. now apply IH.
Qed.

Lemma str_compare_flip (a b : str) :
  str_compare b a = CompOpp (str_compare a b).
Proof.
  revert b. induction a as [|x a IH]; intros [|y b]; simpl; auto.
  rewrite (Nat.compare_antisym (code x) (code y)).
  destruct (code x ?= code y); simpl; auto.
Qed.

Lemma str_leb_total (a b : str) : str_leb a b = false -> str_leb b a = true.
Proof.
  unfold str_leb. rewrite (str_compare_flip a b).
  destruct (str_compare a b); simpl; congruence.
Qed.

Lemma insert_by_sorted {A} (key : A -> str) (x : A) (l : list A) :
  Sorted (key_le key) l -> Sorted (key_le key) (insert_by key x l).
Proof.
  induction l as [|y l IH]; intros H; simpl.
  - repeat constructor.
  - destruct (str_leb (key x) (key y)) eqn:Hxy.
    + constructor; auto.
    + inversion H; subst. constructor; auto.
      destruct l as [|z l]; simpl.
      * constructor. now apply str_leb_total.
      * destruct (str_leb (key x) (key z)) eqn:Hxz.
        -- constructor. now apply str_leb_total.
        -- inversion H3; subst. now constructor.
Qed.

Lemma sort_by_sorted {A} (key : A -> str) (l : list A) :
  Sorted (key_le key) (sort_by key l).
Proof.
  induction l as [|x l IH]; simpl; [constructor|].
  now apply insert_by_sorted.
Qed.

Lemma insert_by_stable {A} (key : A -> str) (k : str) (x : A) (l : list A) :
  filter (has_key key k) (insert_by key x l)
  = filter (has_key key k) (x :: l).
Proof.
  induction l as [|y l IH]; simpl; auto.
  destruct (str_leb (key x) (key y)) eqn:Hxy; [reflexivity|].
  simpl. rewrite IH. simpl.
  destruct (has_key key k x) eqn:Hx, (has_key key k y) eqn:Hy; auto.
  exfalso. unfold has_key, str_eqb in Hx, Hy.
  destruct (str_compare (key x) k) eqn:Cx; try discriminate.
  destruct (str_compare (key y) k) eqn:Cy; try discriminate.
  apply str_compare_eq in Cx, Cy. unfold str_leb in Hxy.
  rewrite Cx, Cy, str_compare_refl in Hxy. discriminate.
Qed.

(** Events with the same key keep their order. *)
Lemma sort_by_stable {A} (key : A -> str) (k : str) (l : list A) :
  filter (has_key key k) (sort_by key l) = filter (has_key key k) l.
Proof.
  induction l as [|x l IH]; simpl; auto.
  rewrite insert_by_stable. simpl. now rewrite IH.
Qed.

(** What holds of the order of the chain on every input: it is the list of
    the events of the parser, ordered by the key of the sort (the timestamp,
    ["9999-99-99"] for ["N/A"]), events of equal key in the order of the
    parser; the events themselves, and so their timestamps, are unchanged. *)
Theorem chain_sorted_by_key (raw : str) (d : Document) :
  extract_causal_chain raw = Ok d ->
  exists evs,
    parse_events (input_lines raw) = Ok evs
    /\ Permutation evs (causal_chain d)
    /\ Sorted (key_le sort_key) (causal_chain d)
    /\ forall k, filter (has_key sort_key k) (causal_chain d)
                 = filter (has_key sort_key k) evs.
Proof.
  intros H. apply extract_ok in H as [evs [Hp [Hc _]]].
  exists evs. rewrite Hc. split; auto. split; [apply sort_by_perm|].
  split; [apply sort_by_sorted|intros k; apply sort_by_stable].
Qed.


(** * Further properties of the code *)

(** ** The document when no format is detected *)

Lemma str_leb_refl (a : str) : str_leb a a = true.
Proof. unfold str_leb. now rewrite str_compare_refl. Qed.

(** Sorting a list that is in order leaves it as it is. *)
Lemma sort_by_sorted_id {A} (key : A -> str) (l : list A) :
  Sorted (key_le key) l -> sort_by key l = l.
Proof.
  induction l as [|x l IH]; intros H; simpl; auto.
  inversion H as [|? ? Hs Hr]; subst. rewrite (IH Hs).
  destruct l as [|y l]; simpl; auto.
  inversion Hr as [|? ? Hxy]; subst. unfold key_le in Hxy. now rewrite Hxy.
Qed.

Lemma fallback_sorted (lines : list str) :
  Sorted (key_le sort_key) (fallback_events lines).
Proof.
  unfold fallback_events.
  induction (filter (fun line => negb (length (strip line) =? 0)) lines)
    as [|x l IH]; simpl; constructor; auto.
  destruct l; simpl; constructor. reflexivity.
Qed.

Lemma fallback_no_alert (lines : list str) :
  filter is_alert (fallback_events lines) = [].
Proof.
  unfold fallback_events.
  induction (filter (fun line => negb (length (strip line) =? 0)) lines);
    simpl; auto.
Qed.

(** With no format detected a document is always built: the chain has one
    UNKNOWN event for each non-blank line, in the order of the input, with
    the error "Unsupported log format", and no alert and no amount are
    counted. *)
Lemma unknown_format_chain (raw : str) :
  detect (input_lines raw) = UNKNOWN_FORMAT ->
  exists d,
    extract_causal_chain raw = Ok d
    /\ causal_chain d
       = map unsupported_event (filter nonblank (input_lines raw))
    /\ total_alerts (summary d) = 0
    /\ total_amount_at_risk (summary d) = 0%Z
    /\ unmatched_lines (summary d) = Z.of_nat (total_lines (summary d)).
Proof.
  intros H. unfold detect in H. unfold extract_causal_chain, parse_events.
  destruct (has_kaggle (input_lines raw)); [discriminate|].
  destruct (has_amlsim (input_lines raw)); [discriminate|].
  eexists. split; [reflexivity|]. simpl.
  rewrite (sort_by_sorted_id _ _ (fallback_sorted _)), fallback_no_alert.
  simpl. repeat split; auto. lia.
Qed.

(** ** Line numbers in the tabular format *)



Lemma detect_kaggle (lines : list str) :
  detect lines = KAGGLE -> parse_events lines = parse_kaggle_format lines.
Proof.
  unfold detect, parse_events. destruct (has_kaggle lines); auto.
  destruct (has_amlsim lines); discriminate.
Qed.



(** ** The events of the block parser *)

Lemma summarize_block_shape (typ : str) (txs : list Tx) (es : list Event) :
  summarize_block typ txs = Ok es ->
  Forall block_alert es /\ length es <= 1.
Proof.
  destruct txs as [|t txs].
  - intros H. inversion H. split; [constructor|simpl; lia].
  - intros H.
    rewrite (summarize_block_nonempty typ (t :: txs)) in H by discriminate.
    apply bind_ok in H as [a [_ H]]. inversion H; subst; clear H.
    split; [|simpl; lia]. constructor; [|constructor].
    split; [reflexivity|]. simpl.
    do 6 eexists. split; [reflexivity|lia].
Qed.

Lemma open_block_pending (st : AmlState) (typ : str) :
  open_block st = Some typ -> pending st = 1.
Proof.
  unfold open_block, pending.
  destruct (current_typology st) as [[|c t]|]; discriminate || reflexivity.
Qed.

Lemma amlsim_step_events (st st' : AmlState) (line : str) :
  amlsim_step st line = Ok st' ->
  Forall block_alert (events st) ->
  Forall block_alert (events st')
  /\ length (events st') + pending st'
     <= length (events st) + pending st + (if is_begin line then 1 else 0).
Proof.
  unfold amlsim_step, is_begin, is_match. intros H Hinv.
  destruct (re_match BEGIN_PATTERN (strip line)) as [groups|].
  - apply bind_ok in H as [evs [He H]]. inversion H; subst; clear H.
    unfold pending at 1. simpl.
    destruct (open_block st) as [typ|] eqn:Ho.
    + rewrite (open_block_pending _ _ Ho).
      destruct (current_txs st) as [|t txs] eqn:Ht.
      * inversion He; subst. split; [auto|lia].
      * apply bind_ok in He as [es [Hs He]]. inversion He; subst; clear He.
        apply summarize_block_shape in Hs as [Hs Hl].
        split; [apply Forall_app; auto|rewrite length_app; lia].
    + inversion He; subst. split; [auto|lia].
  - destruct (re_match END_PATTERN (strip line)) as [g|].
    + destruct (open_block st) as [typ|] eqn:Ho.
      * apply bind_ok in H as [es [Hs H]]. inversion H; subst; clear H.
        rewrite (open_block_pending _ _ Ho).
        apply summarize_block_shape in Hs as [Hs Hl].
        unfold pending at 1. simpl.
        split; [apply Forall_app; auto|rewrite length_app; lia].
      * inversion H; subst. split; [auto|lia].
    + destruct (open_block st) as [typ|] eqn:Ho.
      * destruct (parse_tx (strip line)); inversion H; subst; clear H;
          (split; [auto|unfold pending; simpl; lia]).
      * inversion H; subst. split; [auto|lia].
Qed.

Lemma amlsim_loop_events (lines : list str) :
  forall st st',
    amlsim_loop st lines = Ok st' ->
    Forall block_alert (events st) ->
    Forall block_alert (events st')
    /\ length (events st') + pending st'
       <= length (events st) + pending st + length (filter is_begin lines).
Proof.
  induction lines as [|l lines IH]; intros st st' H Hinv; simpl in H.
  - inversion H; subst. split; [auto|simpl; lia].
  - apply bind_ok in H as [st1 [H1 H]].
    destruct (amlsim_step_events _ _ _ H1 Hinv) as [Hinv1 Hc1].
    destruct (IH _ _ H Hinv1) as [Hinv' Hc']. split; auto.
    simpl. destruct (is_begin l); simpl; lia.
Qed.

Lemma parse_amlsim_events (lines : list str) (evs : list Event) :
  parse_amlsim_format lines = Ok evs ->
  Forall block_alert evs
  /\ length evs <= length (filter is_begin lines).
Proof.
  unfold parse_amlsim_format. intros H.
  apply bind_ok in H as [st [Hl H]].
  destruct (amlsim_loop_events _ _ _ Hl) as [Hinv Hc]; [constructor|].
  simpl in Hc. unfold amlsim_finish in H.
  destruct (open_block st) as [typ|] eqn:Ho.
  - rewrite (open_block_pending _ _ Ho) in Hc.
    destruct (current_txs st) as [|t txs].
    + inversion H; subst. split; [auto|lia].
    + apply bind_ok in H as [es [Hs H]]. inversion H; subst; clear H.
      apply summarize_block_shape in Hs as [Hs Hle].
      split; [apply Forall_app; auto|rewrite length_app; lia].
  - assert (E : evs = events st) by (destruct (current_txs st); congruence).
    subst evs. split; [auto|lia].
Qed.

(** Whatever the lines, every event of the block parser is a
    FINANCIAL_CRIME_ALERT that summarises at least one transaction: lines
    that are no transaction yield neither an event nor an error entry.
    There are at most as many events as begin markers. *)
Theorem amlsim_events_are_block_alerts (lines : list str) (evs : list Event) :
  parse_amlsim_format lines = Ok evs ->
  Forall block_alert evs
  /\ length evs <= length (filter is_begin lines).
Proof. apply parse_amlsim_events. Qed.

Lemma amlsim_events_are_block_alerts_witness :
  exists evs,
    parse_amlsim_format (s_ "2022/09/01 00:06,1,2,3,4,5.0,x" :: block_lines)
    = Ok evs
    /\ Forall block_alert evs /\ length evs <= 1.
Proof.
  eexists. split; [vm_compute; reflexivity|].
  apply (amlsim_events_are_block_alerts
           (s_ "2022/09/01 00:06,1,2,3,4,5.0,x" :: block_lines)).
  vm_compute. reflexivity.
Defined.

(** ** Markers and the lines around them *)

Lemma step_end_then_begin (st : AmlState) (e b : str) :
  is_end e = true -> is_begin b = true ->
  (st1 <- amlsim_step st e ;; amlsim_step st1 b) = amlsim_step st b.
Proof.
  unfold is_end, is_begin. intros He Hb.
  destruct (open_block st) as [typ|] eqn:Ho.
  - rewrite (end_marker_open _ _ _ He Ho).
    unfold amlsim_step, is_match in *.
    destruct (re_match BEGIN_PATTERN (strip b)) as [groups|]; [|discriminate].
    rewrite Ho. destruct (current_txs st) as [|t txs] eqn:Ht.
    + simpl. now rewrite app_nil_r.
    + destruct (summarize_block typ (t :: txs)) as [es|x]; reflexivity.
  - now rewrite (end_marker_closed _ _ He Ho).
Qed.

(** A begin marker met while a block is open closes it first: the events
    are those of the same lines with an end marker put before that begin
    marker.  An exception is raised in both runs or in none. *)
Theorem begin_closes_open_block (before after : list str) (e b : str) :
  is_end e = true -> is_begin b = true ->
  parse_amlsim_format (before ++ e :: b :: after)
  = parse_amlsim_format (before ++ b :: after).
Proof.
  intros He Hb. unfold parse_amlsim_format.
  rewrite !amlsim_loop_app.
  destruct (amlsim_loop amlsim_init before) as [st|x]; [|reflexivity].
  simpl. rewrite <- (step_end_then_begin st e b He Hb).
  destruct (amlsim_step st e); reflexivity.
Qed.

Lemma begin_closes_open_block_witness :
  exists evs,
    parse_amlsim_format
      (two_blocks_no_end
       ++ s_ "BEGIN LAUNDERING ATTEMPT - CYCLE" :: [tx_line_2]) = Ok evs
    /\ parse_amlsim_format
         (two_blocks_no_end
          ++ end_line :: s_ "BEGIN LAUNDERING ATTEMPT - CYCLE" :: [tx_line_2])
       = Ok evs
    /\ length evs = 2.
Proof.
  eexists. split; [vm_compute; reflexivity|]. split; [|reflexivity].
  rewrite (begin_closes_open_block two_blocks_no_end [tx_line_2] end_line
             (s_ "BEGIN LAUNDERING ATTEMPT - CYCLE"));
    vm_compute; reflexivity.
Defined.

(** While no block is open, a line that is not a begin marker, be it a
    transaction, changes nothing: the events are those of the input without
    that line. *)
Theorem line_outside_block_is_ignored
    (before after : list str) (st : AmlState) (line : str) :
  amlsim_loop amlsim_init before = Ok st ->
  current_typology st = None ->
  is_begin line = false ->
  amlsim_step st line = Ok st
  /\ parse_amlsim_format (before ++ line :: after)
     = parse_amlsim_format (before ++ after).
Proof.
  intros Hl Hn Hb.
  assert (Hs : amlsim_step st line = Ok st).
  { unfold amlsim_step. unfold is_begin, is_match in Hb.
    destruct (re_match BEGIN_PATTERN (strip line)); [discriminate|].
    unfold open_block. rewrite Hn.
    now destruct (re_match END_PATTERN (strip line)). }
  split; [exact Hs|].
  unfold parse_amlsim_format. rewrite !amlsim_loop_app, Hl. simpl.
  now rewrite Hs.
Qed.

Lemma line_outside_block_is_ignored_witness :
  exists evs,
    parse_amlsim_format (block_lines ++ tx_line_1 :: block_lines) = Ok evs
    /\ parse_amlsim_format (block_lines ++ block_lines) = Ok evs
    /\ length evs = 2.
Proof.
  eexists.
  destruct (line_outside_block_is_ignored block_lines block_lines
              {| events := first_event (parse_amlsim_format block_lines) :: [];
                 current_typology := None; current_txs := [] |} tx_line_1)
    as [_ H]; [vm_compute; reflexivity|reflexivity|vm_compute; reflexivity|].
  split; [rewrite H|split]; vm_compute; reflexivity.
Defined.

(** ** The period of a block *)

Lemma str_leb_trans (a : str) :
  forall b c, str_leb a b = true -> str_leb b c = true -> str_leb a c = true.
Proof.
  unfold str_leb.
  induction a as [|x a IH]; intros [|y b] [|z c]; simpl; auto;
    try discriminate.
  destruct (Nat.compare_spec (code x) (code y)) as [Exy|Lxy|Gxy];
    destruct (Nat.compare_spec (code y) (code z)) as [Eyz|Lyz|Gyz];
    destruct (Nat.compare_spec (code x) (code z)) as [Exz|Lxz|Gxz];
    try lia; try discriminate; auto.
  apply IH.
Qed.

Lemma sort_by_strongly_sorted {A} (key : A -> str) (l : list A) :
  StronglySorted (key_le key) (sort_by key l).
Proof.
  apply Sorted_StronglySorted; [|apply sort_by_sorted].
  intros x y z. unfold key_le. apply str_leb_trans.
Qed.

Lemma strongly_sorted_hd {A} (key : A -> str) (l : list A) (d x : A) :
  StronglySorted (key_le key) l -> In x l -> key_le key (hd d l) x.
Proof.
  intros H Hx. destruct l as [|y l]; [destruct Hx|]. simpl.
  inversion H as [|? ? _ Hall]; subst. destruct Hx as [<-|Hx].
  - apply str_leb_refl.
  - rewrite Forall_forall in Hall. now apply Hall.
Qed.

Lemma strongly_sorted_last {A} (key : A -> str) (l : list A) (d x : A) :
  StronglySorted (key_le key) l -> In x l -> key_le key x (last l d).
Proof.
  induction l as [|y l IH]; intros H Hx; [destruct Hx|].
  inversion H as [|? ? Hs Hall]; subst.
  destruct l as [|z l].
  - destruct Hx as [<-|[]]. apply str_leb_refl.
  - change (last (y :: z :: l) d) with (last (z :: l) d).
    destruct Hx as [<-|Hx]; [|now apply IH].
    rewrite Forall_forall in Hall. apply Hall.
    destruct (exists_last (l := z :: l)) as [q [w E]]; [discriminate|].
    rewrite E, last_last. apply in_or_app. right. now left.
Qed.

Lemma hd_in {A} (l : list A) (d : A) : l <> [] -> In (hd d l) l.
Proof. destruct l; [congruence|now left]. Qed.

Lemma last_in {A} (l : list A) (d : A) : l <> [] -> In (last l d) l.
Proof.
  intros H. destruct (exists_last H) as [q [w E]]. rewrite E, last_last.
  apply in_or_app. right. now left.
Qed.

Lemma sorted_set_in (l : list str) (x : str) :
  In x (sorted_set l) <-> In x l.
Proof.
  unfold sorted_set. rewrite <- (nodup_In str_eq_dec l x). split.
  - apply Permutation_in. symmetry. apply sort_by_perm.
  - apply Permutation_in. apply sort_by_perm.
Qed.

(** The summary of a block runs from its earliest to its latest
    transaction date: both are dates of transactions of the block, every
    transaction date lies between them in the order of strings, the
    timestamp is the earliest date at midnight and the count is the number
    of transactions. *)
Theorem block_period_bounds (typ : str) (txs : list Tx) (e : Event) :
  summarize_block typ txs = Ok [e] ->
  exists start_date end_date case_id alert_type amount,
    details e = BlockDetails start_date case_id alert_type amount (length txs)
                  (start_date ++ s_ " to " ++ end_date)
    /\ timestamp e = start_date ++ s_ " 00:00:00"
    /\ In start_date (map tx_date txs)
    /\ In end_date (map tx_date txs)
    /\ forall t, In t txs ->
         str_leb start_date (tx_date t) = true
         /\ str_leb (tx_date t) end_date = true.
Proof.
  intros H. destruct txs as [|t0 txs]; [discriminate|].
  rewrite (summarize_block_nonempty typ (t0 :: txs)) in H by discriminate.
  apply bind_ok in H as [a [_ H]]. inversion H; subst; clear H.
  set (l := map tx_date (t0 :: txs)).
  assert (Hne : sorted_set l <> []).
  { intros E. assert (Hin : In (tx_date t0) (sorted_set l))
      by (apply sorted_set_in; now left).
    rewrite E in Hin. destruct Hin. }
  do 5 eexists. split; [reflexivity|]. split; [reflexivity|].
  split; [|split].
  - apply sorted_set_in. now apply hd_in.
  - apply sorted_set_in. now apply last_in.
  - intros t Ht.
    assert (Hin : In (tx_date t) (sorted_set l))
      by (apply sorted_set_in; now apply in_map).
    pose proof (sort_by_strongly_sorted (fun x : str => x)
                  (nodup str_eq_dec l)) as Hs.
    split.
    + apply (strongly_sorted_hd (fun x : str => x) _ [] _ Hs Hin).
    + apply (strongly_sorted_last (fun x : str => x) _ [] _ Hs Hin).
Qed.

Lemma block_period_bounds_witness :
  exists e start_date end_date,
    summarize_block (s_ "CYCLE") (rev sample_txs) = Ok [e]
    /\ timestamp e = start_date ++ s_ " 00:00:00"
    /\ In start_date (map tx_date (rev sample_txs))
    /\ In end_date (map tx_date (rev sample_txs)).
Proof.
  destruct (block_period_bounds (s_ "CYCLE") (rev sample_txs)
              (first_event (summarize_block (s_ "CYCLE") (rev sample_txs))))
    as [sd [ed [_ [_ [_ [_ [Ht [Hs [He _]]]]]]]]]; [vm_compute; reflexivity|].
  eexists. exists sd, ed. split; [vm_compute; reflexivity|]. auto.
Defined.

(** ** Amounts *)

Lemma binary_round_aux_sign (m e : Z) (l : location) :
  not_negative (binary_round_aux prec emax false m e l).
Proof.
  unfold binary_round_aux.
  destruct (shr_fexp prec emax m e l) as [mrs' e'].
  destruct (shr_fexp prec emax _ e' loc_Exact) as [mrs'' e''].
  destruct (shr_m mrs''); simpl; auto.
  match goal with
  | |- context [if ?b then _ else _] => destruct b; simpl; auto
  end.
Qed.

Lemma float_add_sign (x y : float) :
  not_negative x -> not_negative y -> not_negative (float_add x y).
Proof.
  unfold float_add, SFadd.
  destruct x as [sx|sx| |sx mx ex], y as [sy|sy| |sy my ey];
    simpl; auto; try (destruct sx, sy; simpl; auto; fail).
  destruct sx, sy; simpl; try contradiction. intros _ _.
  unfold binary_normalize, binary_round.
  destruct (shl_align mx ex (Z.min ex ey)) as [mx' ex'].
  destruct (shl_align my ey (Z.min ex ey)) as [my' ey']. simpl.
  match goal with
  | |- context [shl_align ?a ?b ?c] => destruct (shl_align a b c)
  end.
  apply binary_round_aux_sign.
Qed.

Lemma float_sum_sign (xs : list float) :
  Forall not_negative xs -> not_negative (float_sum xs).
Proof.
  unfold float_sum.
  assert (H : forall acc, not_negative acc -> Forall not_negative xs ->
                          not_negative (fold_left float_add xs acc)).
  { induction xs as [|x xs IH]; intros acc Ha Hx; simpl; auto.
    inversion Hx; subst. apply IH; auto. now apply float_add_sign. }
  apply H. exact I.
Qed.

Lemma float_of_decimal_sign (ip fp : str) :
  not_negative (float_of_decimal ip fp).
Proof.
  unfold float_of_decimal.
  destruct (Z_of_digits (ip ++ fp)); simpl; auto.
  destruct (10 ^ Z.of_nat (length fp))%Z; simpl; auto.
  destruct (SFdiv_core_binary prec emax (Z.pos p) 0 (Z.pos p0) 0) as [[mz ez] lz].
  apply binary_round_aux_sign.
Qed.

Lemma py_float_sign (s : str) (x : float) :
  py_float s = Ok x -> not_negative x.
Proof.
  unfold py_float. destruct (take_digits s) as [ip r].
  destruct r as [|c fp].
  - destruct (negb (length ip =? 0)); [|discriminate].
    intros H. inversion H. apply float_of_decimal_sign.
  - destruct (_ && _); [|discriminate].
    intros H. inversion H. apply float_of_decimal_sign.
Qed.

Lemma int_of_float_sign (x : float) (a : Z) :
  not_negative x -> int_of_float x = Ok a -> (0 <= a)%Z.
Proof.
  destruct x as [s|s| |s m e]; simpl; try discriminate.
  - intros _ H. inversion H. lia.
  - destruct s; [contradiction|]. intros _ H. inversion H; subst.
    simpl. apply Z.shiftl_nonneg. lia.
Qed.

Lemma Z_of_digits_nonneg (s : str) : (0 <= Z_of_digits s)%Z.
Proof.
  unfold Z_of_digits.
  assert (H : forall acc, (0 <= acc)%Z ->
            (0 <= fold_left (fun a c => 10 * a + digit_val c) s acc)%Z).
  { induction s as [|c s IH]; intros acc Ha; cbn [fold_left]; auto.
    apply IH. pose proof (Nat2Z.is_nonneg (code c - 48)).
    unfold digit_val. lia. }
  apply H. lia.
Qed.

Lemma py_int_nonneg (s : str) (a : Z) : py_int s = Ok a -> (0 <= a)%Z.
Proof.
  unfold py_int. destruct s as [|c s]; [discriminate|].
  destruct (_ && _); [|discriminate].
  intros H. inversion H. apply Z_of_digits_nonneg.
Qed.

Lemma kaggle_line_ok (n : nat) (line : str) (es : list Event) :
  kaggle_line n line = Ok es -> Forall event_ok es.
Proof.
  unfold kaggle_line. destruct (strip line) as [|c0 t0].
  - intros H. inversion H. constructor.
  - destruct (re_match KAGGLE_PATTERN line) as [groups|].
    + intros H. apply bind_ok in H as [a [Ha H]]. inversion H; subst.
      constructor; [|constructor]. unfold event_ok. simpl.
      split; [reflexivity|now apply py_int_nonneg in Ha].
    + intros H. inversion H; subst. constructor; [|constructor]. reflexivity.
Qed.

Lemma kaggle_loop_ok (lines : list str) :
  forall n evs, kaggle_loop n lines = Ok evs -> Forall event_ok evs.
Proof.
  induction lines as [|l lines IH]; intros n evs H; simpl in H.
  - inversion H. constructor.
  - apply bind_ok in H as [es [H1 H]]. apply bind_ok in H as [es' [H2 H]].
    inversion H; subst. apply Forall_app. split.
    + now apply kaggle_line_ok in H1.
    + now apply IH in H2.
Qed.

Lemma fallback_ok (lines : list str) : Forall event_ok (fallback_events lines).
Proof.
  unfold fallback_events. apply Forall_forall. intros e He.
  apply in_map_iff in He as [l [<- _]]. reflexivity.
Qed.

Lemma summarize_block_ok (typ : str) (txs : list Tx) (es : list Event) :
  Forall (fun t => not_negative (tx_amount t)) txs ->
  summarize_block typ txs = Ok es -> Forall event_ok es.
Proof.
  intros Hn H. destruct txs as [|t txs].
  - inversion H. constructor.
  - rewrite (summarize_block_nonempty typ (t :: txs)) in H by discriminate.
    apply bind_ok in H as [a [Ha H]]. inversion H; subst; clear H.
    constructor; [|constructor]. unfold event_ok. simpl.
    split; [reflexivity|]. apply (int_of_float_sign _ _ (float_sum_sign _
      ltac:(apply Forall_map; exact Hn)) Ha).
Qed.

Lemma parse_tx_sign (line : str) (t : Tx) :
  parse_tx line = Some t -> not_negative (tx_amount t).
Proof.
  unfold parse_tx. destruct (re_match TX_PATTERN line) as [g|]; [|discriminate].
  destruct g as [|d [|a [|x0 g]]]; try discriminate.
  destruct (py_float a) as [x|] eqn:Hf; [|discriminate].
  destruct (convert_date d); [|discriminate].
  intros H. inversion H; subst. simpl. now apply py_float_sign in Hf.
Qed.

(** A property of the events of the block parser follows from a property of
    its transactions that [summarize_block] turns into it. *)
Section BlockInvariant.
Variable PE : Event -> Prop.
Variable PT : Tx -> Prop.
Variable PY : str -> Prop.
Hypothesis summarize_inv : forall typ txs es,
  PY typ -> Forall PT txs -> summarize_block typ txs = Ok es -> Forall PE es.
Hypothesis parse_tx_inv : forall line t, parse_tx line = Some t -> PT t.
Hypothesis begin_inv : forall line groups,
  re_match BEGIN_PATTERN line = Some groups ->
  normalize_typology (hd [] groups) <> [] ->
  PY (normalize_typology (hd [] groups)).

Lemma amlsim_step_inv (st st' : AmlState) (line : str) :
  amlsim_step st line = Ok st' ->
  state_inv PE PT PY st -> state_inv PE PT PY st'.
Proof.
  unfold amlsim_step, state_inv. intros H [He [Ht Hy]].
  assert (Hflush : forall typ es,
            open_block st = Some typ ->
            summarize_block typ (current_txs st) = Ok es ->
            Forall PE (events st ++ es)).
  { intros typ es Ho Hs. apply Forall_app. split; auto.
    apply (summarize_inv typ (current_txs st)); auto. }
  destruct (re_match BEGIN_PATTERN (strip line)) as [groups|] eqn:Hb.
  - apply bind_ok in H as [evs [Hev H]]. inversion H; subst; clear H.
    simpl. split; [|split; [constructor|]].
    + destruct (open_block st) as [typ|] eqn:Ho; [|now inversion Hev; subst].
      destruct (current_txs st) as [|t txs] eqn:Hc;
        [now inversion Hev; subst|].
      apply bind_ok in Hev as [es [Hs Hev]]. inversion Hev; subst.
      now apply (Hflush typ).
    + intros typ Ho. unfold open_block in Ho. simpl in Ho.
      fold (normalize_typology (hd [] groups)) in Ho.
      destruct (normalize_typology (hd [] groups)) as [|c t] eqn:En;
        [discriminate|].
      inversion Ho; subst. rewrite <- En. apply (begin_inv _ _ Hb).
      rewrite En. discriminate.
  - destruct (re_match END_PATTERN (strip line)) as [g|].
    + destruct (open_block st) as [typ|] eqn:Ho; [|inversion H; subst; repeat split; auto;
         intros ty Hx; rewrite Ho in Hx; discriminate Hx].
      apply bind_ok in H as [es [Hs H]]. inversion H; subst; clear H.
      simpl. split; [now apply (Hflush typ)|split; [constructor|]].
      intros ty Hx. discriminate Hx.
    + destruct (open_block st) as [typ|] eqn:Ho; [|inversion H; subst; repeat split; auto;
         intros ty Hx; rewrite Ho in Hx; discriminate Hx].
      assert (Hy' : forall st2, current_typology st2 = current_typology st ->
                forall ty, open_block st2 = Some ty -> PY ty).
      { intros st2 E ty Hx. apply Hy. unfold open_block in Hx, Ho.
        rewrite E, Ho in Hx. exact Hx. }
      destruct (parse_tx (strip line)) as [t|] eqn:Hp;
        inversion H; subst; clear H.
      * split; [auto|split; [|now apply Hy']].
        apply Forall_app. split; auto.
        constructor; [|constructor]. now apply parse_tx_inv in Hp.
      * split; [auto|split; [auto|now apply Hy']].
Qed.

Lemma amlsim_loop_inv (lines : list str) :
  forall st st', amlsim_loop st lines = Ok st' ->
                 state_inv PE PT PY st -> state_inv PE PT PY st'.
Proof.
  induction lines as [|l lines IH]; intros st st' H Hok; simpl in H.
  - now inversion H; subst.
  - apply bind_ok in H as [st1 [H1 H]].
    apply (IH _ _ H). now apply (amlsim_step_inv _ _ _ H1).
Qed.

Lemma parse_amlsim_inv (lines : list str) (evs : list Event) :
  parse_amlsim_format lines = Ok evs -> Forall PE evs.
Proof.
  unfold parse_amlsim_format. intros H. apply bind_ok in H as [st [Hl H]].
  destruct (amlsim_loop_inv _ _ _ Hl) as [He [Ht Hy]].
  { split; [constructor|split; [constructor|]].
    intros typ Hx. discriminate Hx. }
  unfold amlsim_finish in H.
  destruct (open_block st) as [typ|] eqn:Ho; [|now inversion H; subst].
  destruct (current_txs st) as [|t txs] eqn:Hc; [now inversion H; subst|].
  apply bind_ok in H as [es [Hs H]]. inversion H; subst.
  apply Forall_app. split; auto.
  apply (summarize_inv typ (t :: txs)); auto.
Qed.
End BlockInvariant.

Lemma parse_amlsim_ok (lines : list str) (evs : list Event) :
  parse_amlsim_format lines = Ok evs -> Forall event_ok evs.
Proof.
  apply (parse_amlsim_inv event_ok (fun t => not_negative (tx_amount t))
           (fun _ => True)); auto.
  - intros typ txs es _. apply summarize_block_ok.
  - apply parse_tx_sign.
Qed.

Lemma parse_events_ok (lines : list str) (evs : list Event) :
  parse_events lines = Ok evs -> Forall event_ok evs.
Proof.
  unfold parse_events. destruct (has_kaggle lines).
  - apply kaggle_loop_ok.
  - destruct (has_amlsim lines); [apply parse_amlsim_ok|].
    intros H. inversion H. apply fallback_ok.
Qed.

Lemma sum_amounts_bounds (es : list Event) :
  Forall event_ok es ->
  (0 <= sum_amounts es)%Z
  /\ forall e a, In e es -> amount_of e = Some a -> (a <= sum_amounts es)%Z.
Proof.
  unfold sum_amounts. intros Hok.
  assert (H : forall acc, (0 <= acc)%Z ->
    let r := fold_left (fun acc e => match amount_of e with
                                     | Some a => (acc + a)%Z
                                     | None => acc
                                     end) es acc in
    (acc <= r)%Z
    /\ forall e a, In e es -> amount_of e = Some a -> (a <= r)%Z).
  { induction Hok as [|x l Hx Hl IH]; intros acc Ha; simpl.
    - split; [lia|]. intros e a [].
    - unfold event_ok in Hx.
      destruct (amount_of x) as [b|] eqn:Hb.
      + destruct Hx as [_ Hb0].
        destruct (IH (acc + b)%Z) as [I1 I2]; [lia|]. split; [lia|].
        intros e a [<-|Hin] Hea; [|eauto].
        rewrite Hb in Hea. inversion Hea; subst. lia.
      + destruct (IH acc Ha) as [I1 I2]. split; auto.
        intros e a [<-|Hin] Hea; [congruence|eauto]. }
  destruct (H 0%Z) as [H1 H2]; [lia|]. split; auto.
Qed.

Lemma extract_ok_summary (raw : str) (d : Document) :
  extract_causal_chain raw = Ok d ->
  total_alerts (summary d) = length (filter is_alert (causal_chain d))
  /\ total_amount_at_risk (summary d)
     = sum_amounts (filter is_alert (causal_chain d))
  /\ unmatched_lines (summary d)
     = (Z.of_nat (total_lines (summary d))
        - Z.of_nat (total_alerts (summary d)))%Z.
Proof.
  unfold extract_causal_chain. intros H.
  apply bind_ok in H as [evs [_ H]]. inversion H; subst. simpl. auto.
Qed.

(** The alerts of the chain are exactly its events that carry an amount.
    No amount is negative, [total_amount_at_risk] is not negative, and no
    alert has an amount above it. *)
Theorem amounts_are_not_negative (raw : str) (d : Document) :
  extract_causal_chain raw = Ok d ->
  (0 <= total_amount_at_risk (summary d))%Z
  /\ forall e, In e (causal_chain d) ->
       match amount_of e with
       | Some a => event_type e = FINANCIAL_CRIME_ALERT
                   /\ (0 <= a <= total_amount_at_risk (summary d))%Z
       | None => event_type e = UNKNOWN
       end.
Proof.
  intros H. destruct (extract_ok_summary _ _ H) as [_ [Ha _]].
  apply extract_ok in H as [evs [Hp [Hc _]]].
  apply parse_events_ok in Hp.
  assert (Hok : Forall event_ok (causal_chain d)).
  { rewrite Hc. rewrite Forall_forall in *. intros e He. apply Hp.
    apply (Permutation_in _ (Permutation_sym (sort_by_perm sort_key evs)) He). }
  assert (Hf : Forall event_ok (filter is_alert (causal_chain d))).
  { rewrite Forall_forall in *. intros e He.
    apply filter_In in He as [He _]. auto. }
  destruct (sum_amounts_bounds _ Hf) as [H0 Hle]. rewrite Ha.
  split; auto. intros e He. rewrite Forall_forall in Hok.
  pose proof (Hok e He) as Hev. unfold event_ok, is_alert in Hev.
  destruct (amount_of e) as [a|] eqn:Hae.
  - destruct Hev as [Hal Hpos].
    split; [destruct (event_type e); congruence|]. split; auto.
    apply (Hle e a); auto. apply filter_In. split; auto.
  - destruct (event_type e); congruence.
Qed.

Lemma amounts_are_not_negative_witness :
  exists d,
    extract_causal_chain kaggle_text = Ok d
    /\ (0 <= total_amount_at_risk (summary d))%Z.
Proof.
  eexists. split; [vm_compute; reflexivity|].
  apply (amounts_are_not_negative kaggle_text). vm_compute. reflexivity.
Defined.

(** ** Counts *)

Lemma block_alert_is_alert (e : Event) : block_alert e -> is_alert e = true.
Proof. intros [H _]. unfold is_alert. now rewrite H. Qed.

Lemma filter_all {A} (f : A -> bool) (l : list A) :
  Forall (fun x => f x = true) l -> filter f l = l.
Proof.
  induction 1 as [|x l Hx _ IH]; simpl; auto. now rewrite Hx, IH.
Qed.

(** The chain has at most one event for each line: exactly one for each
    non-blank line in the KAGGLE and UNKNOWN formats, and in the AMLSIM
    format only alerts, at most one for each begin marker.  So
    [total_alerts] is at most [total_lines] and [unmatched_lines] is never
    negative. *)
Theorem summary_counts (raw : str) (d : Document) :
  extract_causal_chain raw = Ok d ->
  let lines := input_lines raw in
  length (causal_chain d) <= total_lines (summary d)
  /\ total_alerts (summary d) <= length (causal_chain d)
  /\ (0 <= unmatched_lines (summary d))%Z
  /\ (detected_format (summary d) <> AMLSIM ->
      length (causal_chain d) = length (filter nonblank lines))
  /\ (detected_format (summary d) = AMLSIM ->
      total_alerts (summary d) = length (causal_chain d)
      /\ length (causal_chain d) <= length (filter is_begin lines)).
Proof.
  intros H lines. destruct (extract_ok_summary _ _ H) as [Ha [_ Hu]].
  apply extract_ok in H as [evs [Hp [Hc [Hl [Hd _]]]]]. fold lines in Hp, Hl, Hd.
  assert (Hlen : length (causal_chain d) = length evs).
  { rewrite Hc. symmetry. apply Permutation_length, sort_by_perm. }
  assert (Hal : total_alerts (summary d) <= length (causal_chain d)).
  { rewrite Ha. apply filter_length_le. }
  assert (Hcases :
    (detect lines <> AMLSIM /\ length evs = length (filter nonblank lines))
    \/ (detect lines = AMLSIM /\ Forall block_alert evs
        /\ length evs <= length (filter is_begin lines))).
  { unfold detect, parse_events in *. destruct (has_kaggle lines).
    - left. split; [discriminate|].
      apply kaggle_loop_raw_log in Hp.
      apply (f_equal (@length _)) in Hp. now rewrite !length_map in Hp.
    - destruct (has_amlsim lines).
      + right. split; auto. now apply parse_amlsim_events.
      + left. split; [discriminate|]. inversion Hp.
        pose proof (fallback_raw_log lines) as Hr.
        apply (f_equal (@length _)) in Hr. now rewrite !length_map in Hr. }
  assert (Hle : length (causal_chain d) <= total_lines (summary d)).
  { rewrite Hlen, Hl. destruct Hcases as [[_ E]|[_ [_ E]]].
    - rewrite E. apply filter_length_le.
    - etransitivity; [exact E|apply filter_length_le]. }
  split; auto. split; auto. split; [lia|]. rewrite Hd, Hlen. split.
  - intros Hn. destruct Hcases as [[_ E]|[E _]]; [exact E|contradiction].
  - intros Hf. destruct Hcases as [[E _]|[_ [Hb E]]]; [contradiction|].
    split; auto. rewrite Ha, Hc, filter_all; [now rewrite <- Hc|].
    rewrite Forall_forall in *. intros e He. apply block_alert_is_alert, Hb.
    apply (Permutation_in _ (Permutation_sym (sort_by_perm sort_key evs)) He).
Qed.

Lemma summary_counts_witness :
  exists d,
    extract_causal_chain scenario2 = Ok d
    /\ (0 <= unmatched_lines (summary d))%Z
    /\ total_alerts (summary d) <= length (causal_chain d).
Proof.
  eexists. split; [vm_compute; reflexivity|].
  destruct (summary_counts scenario2
              (match extract_causal_chain scenario2 with
               | Ok d => d
               | Raise _ => {| causal_chain := [];
                               summary := mkSummary 0 0 0 0 KAGGLE |}
               end)) as [_ [H1 [H2 _]]]; [vm_compute; reflexivity|].
  split; [exact H2|exact H1].
Defined.

(** ** What the groups of a match hold *)

Lemma star_loop_no_caps (g : bool) (body : str -> list mres) (n : nat) :
  (forall s m, In m (body s) -> fst m = []) ->
  forall s m, In m (star_loop g body n s) -> fst m = [].
Proof.
  intros Hb. induction n as [|n IH]; intros s m H; simpl in H.
  - destruct H as [<-|[]]. reflexivity.
  - unfold star_round in H.
    assert (Hmore :
      In m (flat_map (fun m0 =>
              if length (snd m0) <? length s
              then map (with_caps (fst m0)) (star_loop g body n (snd m0))
              else []) (body s)) -> fst m = []).
    { intros Hin. apply in_flat_map in Hin as [m1 [H1 H2]].
      destruct (length (snd m1) <? length s); [|destruct H2].
      apply in_map_iff in H2 as [m2 [<- H2]]. unfold with_caps. simpl.
      now rewrite (Hb _ _ H1), (IH _ _ H2). }
    destruct g.
    + apply in_app_or in H as [H|[<-|[]]]; auto.
    + destruct H as [<-|H]; auto.
Qed.

Lemma capture_free_no_caps (r : regex) :
  capture_free r = true -> forall s m, In m (matches r s) -> fst m = [].
Proof.
  induction r as [|p|r1 IH1 r2 IH2|g r IH|r IH]; simpl; intros Hf s m H.
  - destruct H as [<-|[]]. reflexivity.
  - destruct s as [|c s]; [destruct H|].
    destruct (p c); [|destruct H]. destruct H as [<-|[]]. reflexivity.
  - apply andb_true_iff in Hf as [F1 F2].
    apply in_flat_map in H as [m1 [H1 H2]].
    apply in_map_iff in H2 as [m2 [<- H2]]. unfold with_caps. simpl.
    now rewrite (IH1 F1 _ _ H1), (IH2 F2 _ _ H2).
  - apply (star_loop_no_caps g (matches r) (length s) (IH Hf) s m H).
  - discriminate.
Qed.

(** What a group captures is matched, whole, by the pattern of the group. *)
Lemma consumed_full_match (r : regex) (s : str) (m : mres) :
  In m (matches r s) -> full_match r (consumed s (snd m)).
Proof.
  intros H. destruct (matches_suffix r _ _ H) as [p E].
  rewrite E at 1. rewrite consumed_prefix.
  exists (fst m). rewrite (matches_prefix_stable r p (snd m)), <- E.
  apply in_flat_map. exists m. split; auto.
  destruct m as [c x]. simpl in *.
  pose proof (cut_keep c [] x) as Hk. simpl in Hk. rewrite Hk. now left.
Qed.

Theorem captures_spec (r : regex) :
  groups_ok r = true ->
  forall s m, In m (matches r s) ->
    Forall2 full_match (captures_of r) (fst m).
Proof.
  induction r as [|p|r1 IH1 r2 IH2|g r IH|r IH]; simpl; intros Hf s m H.
  - destruct H as [<-|[]]. constructor.
  - destruct s as [|c s]; [destruct H|].
    destruct (p c); [|destruct H]. destruct H as [<-|[]]. constructor.
  - apply andb_true_iff in Hf as [F1 F2].
    apply in_flat_map in H as [m1 [H1 H2]].
    apply in_map_iff in H2 as [m2 [<- H2]]. unfold with_caps. simpl.
    apply Forall2_app; eauto.
  - rewrite (star_loop_no_caps g (matches r) (length s)
               (capture_free_no_caps r Hf) s m H). constructor.
  - apply in_map_iff in H as [m1 [<- H1]]. simpl.
    constructor; [now apply consumed_full_match|eauto].
Qed.

Lemma chars_of_spec (r : regex) :
  forall ps, chars_of r = Some ps ->
  forall s m, In m (matches r s) ->
    exists p, s = p ++ snd m /\ in_classes ps p.
Proof.
  unfold in_classes.
  induction r as [|p|r1 IH1 r2 IH2|g r IH|r IH]; simpl; intros ps Hc s m H.
  - inversion Hc; subst. destruct H as [<-|[]]. exists []. split; auto.
  - inversion Hc; subst. destruct s as [|c s]; [destruct H|].
    destruct (p c) eqn:Hp; [|destruct H]. destruct H as [<-|[]].
    exists [c]. split; auto.
  - destruct (chars_of r1) as [x|]; [|discriminate].
    destruct (chars_of r2) as [y|]; [|discriminate]. inversion Hc; subst.
    apply in_flat_map in H as [m1 [H1 H2]].
    apply in_map_iff in H2 as [m2 [<- H2]]. unfold with_caps. simpl.
    destruct (IH1 x eq_refl _ _ H1) as [p1 [E1 F1]].
    destruct (IH2 y eq_refl _ _ H2) as [p2 [E2 F2]].
    exists (p1 ++ p2). split; [|now apply Forall2_app].
    rewrite <- app_assoc, <- E2. exact E1.
  - discriminate.
  - apply in_map_iff in H as [m1 [<- H1]]. simpl. eauto.
Qed.

Lemma full_match_classes (r : regex) (ps : list (ascii -> bool)) (t : str) :
  chars_of r = Some ps -> full_match r t -> in_classes ps t.
Proof.
  intros Hc [c H]. destruct (chars_of_spec r ps Hc _ _ H) as [p [E F]].
  simpl in E. rewrite app_nil_r in E. now subst.
Qed.

Lemma full_match_plus_chr (X : ascii -> bool) (t : str) :
  full_match (plus (Chr X)) t -> t <> [] /\ forallb X t = true.
Proof.
  intros [c H]. unfold plus in H. rewrite matches_cat in H.
  apply in_flat_map in H as [m1 [H1 H2]].
  simpl in H1. destruct t as [|a t]; [destruct H1|].
  destruct (X a) eqn:Ha; [|destruct H1]. destruct H1 as [<-|[]].
  apply in_map_iff in H2 as [m2 [E H2]]. simpl in H2.
  destruct (star_chr_all _ _ _ _ _ H2) as [p [Ep F]].
  unfold with_caps in E. simpl in E. injection E as E1 E2.
  rewrite E2 in Ep.
  rewrite app_nil_r in Ep. subst p. split; [discriminate|].
  simpl. rewrite Ha. apply forallb_forall. now apply Forall_forall.
Qed.

Lemma full_match_star_chr (g : bool) (X : ascii -> bool) (t : str) :
  full_match (Star g (Chr X)) t -> forallb X t = true.
Proof.
  intros [c H]. simpl in H.
  destruct (star_chr_all _ _ _ _ _ H) as [p [Ep F]].
  simpl in Ep. rewrite app_nil_r in Ep. subst p.
  apply forallb_forall. now apply Forall_forall.
Qed.

Ltac invert_classes :=
  repeat match goal with
         | H : in_classes _ _ |- _ => unfold in_classes in H
         | H : Forall2 _ (_ :: _) _ |- _ => inversion H; subst; clear H
         | H : Forall2 _ [] _ |- _ => inversion H; subst; clear H
         end.

Lemma ci_dash (c : ascii) : ci "-" c = true -> c = "-"%char.
Proof.
  destruct c as [[] [] [] [] [] [] [] []]; vm_compute;
    intros H; try discriminate H; reflexivity.
Qed.

Lemma ci_slash (c : ascii) : ci "/" c = true -> c = "/"%char.
Proof.
  destruct c as [[] [] [] [] [] [] [] []]; vm_compute;
    intros H; try discriminate H; reflexivity.
Qed.

Lemma kaggle_date_shape (t : str) :
  full_match kaggle_date_group t -> is_iso_date t = true.
Proof.
  intros H.
  assert (Hc : chars_of kaggle_date_group
               = Some [is_digit; is_digit; is_digit; is_digit; ci "-";
                       is_digit; is_digit; ci "-"; is_digit; is_digit])
    by reflexivity.
  pose proof (full_match_classes _ _ _ Hc H) as F. invert_classes.
  repeat match goal with
         | H : ci "-" _ = true |- _ => apply ci_dash in H; subst
         end.
  unfold is_iso_date, is_date_with. simpl.
  repeat match goal with H : is_digit _ = true |- _ => rewrite H; clear H end.
  reflexivity.
Qed.

Lemma tx_date_shape (t : str) :
  full_match tx_date_group t -> is_date_with "/" t = true.
Proof.
  intros H.
  assert (Hc : chars_of tx_date_group
               = Some [is_digit; is_digit; is_digit; is_digit; ci "/";
                       is_digit; is_digit; ci "/"; is_digit; is_digit])
    by reflexivity.
  pose proof (full_match_classes _ _ _ Hc H) as F. invert_classes.
  repeat match goal with
         | H : ci "/" _ = true |- _ => apply ci_slash in H; subst
         end.
  unfold is_date_with. simpl.
  repeat match goal with H : is_digit _ = true |- _ => rewrite H; clear H end.
  reflexivity.
Qed.

Lemma kaggle_case_shape (t : str) :
  full_match kaggle_case_group t -> is_case_id t = true.
Proof.
  intros H.
  assert (Hc : chars_of kaggle_case_group
               = Some [ci "F"; ci "C"; is_digit; is_digit; is_digit;
                       is_digit; is_digit; is_digit])
    by reflexivity.
  pose proof (full_match_classes _ _ _ Hc H) as F. invert_classes.
  unfold is_case_id. simpl.
  repeat match goal with
         | H : _ = true |- _ => rewrite H; clear H
         end.
  reflexivity.
Qed.

(** The four groups of a line of the tabular format. *)
Lemma kaggle_groups (line : str) (groups : list str) :
  re_match KAGGLE_PATTERN line = Some groups ->
  exists date case_id alert_type amount_str,
    groups = [date; case_id; alert_type; amount_str]
    /\ is_iso_date date = true
    /\ is_case_id case_id = true
    /\ forallb dot alert_type = true
    /\ amount_str <> []
    /\ forallb (is_digit_or ",") amount_str = true.
Proof.
  unfold re_match. destruct (matches KAGGLE_PATTERN line) as [|m ms] eqn:Hm;
    [discriminate|].
  intros H. inversion H; subst; clear H.
  assert (Hin : In m (matches KAGGLE_PATTERN line))
    by (rewrite Hm; now left).
  pose proof (captures_spec KAGGLE_PATTERN eq_refl _ _ Hin) as F.
  change (captures_of KAGGLE_PATTERN)
    with [kaggle_date_group; kaggle_case_group; Star false (Chr dot);
          plus (Chr (is_digit_or ","))] in F.
  destruct (fst m) as [|date [|cid [|at_ [|amt [|x l]]]]];
    try (exfalso; repeat (inversion F; subst; clear F;
           match goal with
           | H : Forall2 _ _ _ |- _ => rename H into F
           | _ => idtac
           end); fail).
  apply Forall2_cons_iff in F as [Hg1 F].
  apply Forall2_cons_iff in F as [Hg2 F].
  apply Forall2_cons_iff in F as [Hg3 F].
  apply Forall2_cons_iff in F as [Hg4 _].
  exists date, cid, at_, amt.
  destruct (full_match_plus_chr _ _ Hg4) as [Hne Hall].
  repeat split; auto.
  - now apply kaggle_date_shape.
  - now apply kaggle_case_shape.
  - now apply (full_match_star_chr false).
Qed.

(** ** Dates *)

Lemma is_digit_char (c : ascii) :
  is_digit c = true -> exists v, v < 10 /\ c = digit_char v.
Proof.
  unfold is_digit, digit_char. intros H.
  apply andb_true_iff in H as [H1 H2]. apply Nat.leb_le in H1, H2.
  exists (code c - 48). split; [lia|].
  replace (48 + (code c - 48)) with (code c) by lia.
  unfold code. now rewrite ascii_nat_embedding.
Qed.

Lemma pad2_of_digits_check :
  forallb (fun a => forallb (fun b =>
    str_eqb (pad2 (nat_of_digits [digit_char a; digit_char b]))
            [digit_char a; digit_char b])
    (List.seq 0 10)) (List.seq 0 10) = true.
Proof. vm_compute. reflexivity. Qed.

Lemma str_eqb_eq (a b : str) : str_eqb a b = true -> a = b.
Proof.
  unfold str_eqb. destruct (str_compare a b) eqn:E; try discriminate.
  intros _. now apply str_compare_eq.
Qed.

Lemma pad2_of_digits (a b : ascii) :
  is_digit a = true -> is_digit b = true ->
  pad2 (nat_of_digits [a; b]) = [a; b].
Proof.
  intros Ha Hb.
  apply is_digit_char in Ha as [va [La ->]]. apply is_digit_char in Hb as [vb [Lb ->]].
  pose proof pad2_of_digits_check as H.
  rewrite forallb_forall in H. specialize (H va). rewrite in_seq in H.
  specialize (H ltac:(lia)).
  rewrite forallb_forall in H. specialize (H vb). rewrite in_seq in H.
  specialize (H ltac:(lia)).
  now apply str_eqb_eq.
Qed.

Lemma digit_not_slash (c : ascii) :
  is_digit c = true -> Ascii.eqb c "/" = false.
Proof.
  intros H. destruct (Ascii.eqb_spec c "/"%char) as [E|E]; [|reflexivity].
  subst c. discriminate H.
Qed.

Lemma year_of_digits_check :
  forallb (fun a => forallb (fun b => forallb (fun c => forallb (fun d =>
    let y := [digit_char a; digit_char b; digit_char c; digit_char d] in
    (nat_of_digits y =? 0)
    || (str_eqb (str_of_nat (nat_of_digits y)) (drop_zeros y)
        && is_written_year (drop_zeros y)))
    (List.seq 0 10)) (List.seq 0 10)) (List.seq 0 10)) (List.seq 0 10) = true.
Proof. vm_compute. reflexivity. Qed.

(** A year of four digits, not 0000, is written without its leading
    zeros. *)
Lemma year_of_digits (a b c d : ascii) :
  is_digit a = true -> is_digit b = true ->
  is_digit c = true -> is_digit d = true ->
  1 <= nat_of_digits [a; b; c; d] ->
  str_of_nat (nat_of_digits [a; b; c; d]) = drop_zeros [a; b; c; d]
  /\ is_written_year (drop_zeros [a; b; c; d]) = true.
Proof.
  intros Ha Hb Hc Hd Hy.
  apply is_digit_char in Ha as [va [La ->]]. apply is_digit_char in Hb as [vb [Lb ->]].
  apply is_digit_char in Hc as [vc [Lc ->]]. apply is_digit_char in Hd as [vd [Ld ->]].
  pose proof year_of_digits_check as H.
  rewrite forallb_forall in H. specialize (H va). rewrite in_seq in H.
  specialize (H ltac:(lia)).
  rewrite forallb_forall in H. specialize (H vb). rewrite in_seq in H.
  specialize (H ltac:(lia)).
  rewrite forallb_forall in H. specialize (H vc). rewrite in_seq in H.
  specialize (H ltac:(lia)).
  rewrite forallb_forall in H. specialize (H vd). rewrite in_seq in H.
  specialize (H ltac:(lia)).
  cbv zeta in H. apply orb_true_iff in H as [H|H].
  - apply Nat.eqb_eq in H. lia.
  - apply andb_true_iff in H as [H1 H2]. split; [now apply str_eqb_eq|exact H2].
Qed.

Lemma written_date_shape (y : str) (m1 m2 d1 d2 : ascii) :
  is_written_year y = true ->
  is_digit m1 = true -> is_digit m2 = true ->
  is_digit d1 = true -> is_digit d2 = true ->
  is_written_date (y ++ [ "-"%char; m1; m2; "-"%char; d1; d2 ]) = true.
Proof.
  intros Hy M1 M2 D1 D2. unfold is_written_date.
  rewrite length_app. cbn [length].
  replace (length y + 6 - 6) with (length y) by lia.
  rewrite firstn_app, Nat.sub_diag, firstn_all, firstn_O, app_nil_r, Hy.
  rewrite skipn_app, Nat.sub_diag, skipn_all. cbn [app skipn].
  cbn [forallb]. rewrite M1, M2, D1, D2. reflexivity.
Qed.

(** On a date that exists, the conversion replaces the slashes by dashes and
    leaves the leading zeros of the year out. *)
Lemma convert_date_writes (s t : str) :
  is_date_with "/" s = true ->
  convert_date s = Ok t ->
  t = written_date_of s /\ is_written_date t = true.
Proof.
  unfold is_date_with. intros Hs H.
  destruct s as [|y1 [|y2 [|y3 [|y4 [|a [|m1 [|m2 [|b [|d1 [|d2 [|x s]]]]]]]]]]];
    try discriminate.
  apply andb_true_iff in Hs as [Hs Hb]. apply andb_true_iff in Hs as [Hs Ha].
  apply Ascii.eqb_eq in Ha, Hb. subst a b.
  simpl in Hs. rewrite !andb_true_iff in Hs.
  destruct Hs as [Y1 [Y2 [Y3 [Y4 [M1 [M2 [D1 [D2 _]]]]]]]].
  unfold convert_date in H.
  cbn [firstn skipn] in H.
  rewrite (pad2_of_digits _ _ M1 M2), (pad2_of_digits _ _ D1 D2) in H.
  destruct (Nat.leb_spec 1 (nat_of_digits [y1; y2; y3; y4])) as [Hy|Hy];
    [|discriminate H].
  destruct (year_of_digits _ _ _ _ Y1 Y2 Y3 Y4 Hy) as [Ey Hw].
  rewrite Ey in H.
  destruct (_ && _) in H; [|discriminate]. inversion H; subst; clear H.
  split.
  - unfold written_date_of, replace_char.
    cbn [firstn skipn map app s_ list_ascii_of_string].
    rewrite (digit_not_slash _ M1), (digit_not_slash _ M2),
      (digit_not_slash _ D1), (digit_not_slash _ D2).
    reflexivity.
  - cbn [app s_ list_ascii_of_string].
    now apply written_date_shape.
Qed.

(** A date whose year has four digits, the first not a zero, is kept with
    dashes for the slashes: it is a date of ten characters. *)
Lemma written_date_of_full (s : str) :
  is_date_with "/" s = true ->
  Ascii.eqb (hd "0"%char s) "0" = false ->
  written_date_of s = replace_char "/" "-" s
  /\ is_iso_date (written_date_of s) = true.
Proof.
  unfold is_date_with. intros Hs H0.
  destruct s as [|y1 [|y2 [|y3 [|y4 [|a [|m1 [|m2 [|b [|d1 [|d2 [|x s]]]]]]]]]]];
    try discriminate.
  apply andb_true_iff in Hs as [Hs Hb]. apply andb_true_iff in Hs as [Hs Ha].
  apply Ascii.eqb_eq in Ha, Hb. subst a b.
  simpl in Hs. rewrite !andb_true_iff in Hs.
  destruct Hs as [Y1 [Y2 [Y3 [Y4 [M1 [M2 [D1 [D2 _]]]]]]]].
  cbn [hd] in H0.
  unfold written_date_of, replace_char.
  cbn [firstn skipn map app drop_zeros]. rewrite H0.
  rewrite (digit_not_slash _ Y1), (digit_not_slash _ Y2),
    (digit_not_slash _ Y3), (digit_not_slash _ Y4),
    (digit_not_slash _ M1), (digit_not_slash _ M2),
    (digit_not_slash _ D1), (digit_not_slash _ D2).
  split; [reflexivity|].
  unfold is_iso_date, is_date_with. cbn [app].
  simpl. rewrite Y1, Y2, Y3, Y4, M1, M2, D1, D2. reflexivity.
Qed.

Lemma matches_grp (r : regex) (s : str) :
  matches (Grp r) s
  = map (fun m => (consumed s (snd m) :: fst m, snd m)) (matches r s).
Proof. reflexivity. Qed.

(** The two groups of a transaction line. *)
Lemma tx_groups (line : str) (groups : list str) :
  re_match TX_PATTERN line = Some groups ->
  exists date_str amount_str rest,
    groups = [date_str; amount_str]
    /\ line = date_str ++ rest
    /\ is_date_with "/" date_str = true
    /\ amount_str <> []
    /\ forallb (is_digit_or ".") amount_str = true.
Proof.
  unfold re_match. destruct (matches TX_PATTERN line) as [|m ms] eqn:Hm;
    [discriminate|].
  intros H. inversion H; subst; clear H.
  assert (Hin : In m (matches TX_PATTERN line)) by (rewrite Hm; now left).
  pose proof (captures_spec TX_PATTERN eq_refl _ _ Hin) as F.
  change (captures_of TX_PATTERN)
    with [tx_date_group; plus (Chr (is_digit_or "."))] in F.
  assert (Hpre : exists rest, line = hd [] (fst m) ++ rest).
  { unfold TX_PATTERN, seq in Hin. cbn [fold_right] in Hin.
    rewrite matches_cat in Hin.
    apply in_flat_map in Hin as [m1 [H1 H2]].
    apply in_map_iff in H2 as [m2 [<- H2]].
    rewrite matches_grp in H1. apply in_map_iff in H1 as [m0 [<- H0]].
    destruct (matches_suffix _ _ _ H0) as [p E].
    exists (snd m0). unfold with_caps. simpl.
    rewrite E at 2. now rewrite consumed_prefix. }
  destruct (fst m) as [|d [|a [|x l]]];
    try (exfalso; repeat (inversion F; subst; clear F;
           match goal with
           | H : Forall2 _ _ _ |- _ => rename H into F
           | _ => idtac
           end); fail).
  apply Forall2_cons_iff in F as [Hg1 F].
  apply Forall2_cons_iff in F as [Hg2 _].
  destruct Hpre as [rest Hpre]. simpl in Hpre.
  destruct (full_match_plus_chr _ _ Hg2) as [Hne Hall].
  exists d, a, rest. repeat split; auto. now apply tx_date_shape.
Qed.

(** A pattern without groups, before another: it takes a prefix. *)
Lemma cat_free_split (a r : regex) (s : str) (m : list str * str) :
  capture_free a = true ->
  In m (matches (Cat a r) s) ->
  exists p s', s = p ++ s' /\ In m (matches r s').
Proof.
  intros Hf H. rewrite matches_cat in H.
  apply in_flat_map in H as [m1 [H1 H2]].
  apply in_map_iff in H2 as [m2 [<- H2]].
  destruct (matches_suffix _ _ _ H1) as [p E].
  exists p, (snd m1). split; [exact E|].
  unfold with_caps. rewrite (capture_free_no_caps a Hf _ _ H1).
  simpl. now destruct m2.
Qed.

Lemma ci_comma (c : ascii) : ci "," c = true -> c = ","%char.
Proof.
  destruct c as [[] [] [] [] [] [] [] []]; intros H; try discriminate H;
    reflexivity.
Qed.

Lemma cat_comma_split (r : regex) (s : str) (m : list str * str) :
  In m (matches (Cat (lit ",") r) s) ->
  exists s', s = ","%char :: s' /\ In m (matches r s').
Proof.
  intros H. rewrite matches_cat in H.
  apply in_flat_map in H as [m1 [H1 H2]].
  apply in_map_iff in H2 as [m2 [<- H2]].
  unfold lit in H1. cbn [s_ list_ascii_of_string map seq fold_right] in H1.
  rewrite matches_cat in H1.
  apply in_flat_map in H1 as [m0 [H0 H1]].
  destruct s as [|c s]; [destruct H0|]. simpl in H0.
  destruct (ci "," c) eqn:Hc; [|destruct H0]. destruct H0 as [<-|[]].
  simpl in H1. destruct H1 as [<-|[]].
  apply ci_comma in Hc. subst c. exists s. split; [reflexivity|].
  unfold with_caps. simpl. now destruct m2.
Qed.

(** A group without inner groups, before another pattern: it captures the
    prefix it takes. *)
Lemma cat_grp_split (g r : regex) (s : str) (m : list str * str) :
  capture_free g = true ->
  In m (matches (Cat (Grp g) r) s) ->
  exists a s' caps,
    s = a ++ s' /\ fst m = a :: caps /\ In (caps, snd m) (matches r s').
Proof.
  intros Hf H. rewrite matches_cat in H.
  apply in_flat_map in H as [m1 [H1 H2]].
  apply in_map_iff in H2 as [m2 [<- H2]].
  rewrite matches_grp in H1. apply in_map_iff in H1 as [m0 [<- H0]].
  destruct (matches_suffix _ _ _ H0) as [p E].
  exists p, (snd m0), (fst m2). unfold with_caps. simpl.
  rewrite (capture_free_no_caps g Hf _ _ H0).
  split; [exact E|]. split.
  - rewrite E at 1. now rewrite consumed_prefix.
  - now destruct m2.
Qed.

(** The parts of a transaction line: the date, the fields up to the amount,
    the amount between two commas, the rest. *)
Lemma tx_line_parts (line date_str amount_str : str) :
  re_match TX_PATTERN line = Some [date_str; amount_str] ->
  exists between after,
    line = date_str ++ between ++ ","%char :: amount_str ++ ","%char :: after.
Proof.
  unfold re_match. destruct (matches TX_PATTERN line) as [|m ms] eqn:Hm;
    [discriminate|].
  intros H. inversion H as [Hg]; clear H.
  assert (Hin : In m (matches TX_PATTERN line)) by (rewrite Hm; now left).
  clear Hm. unfold TX_PATTERN, seq in Hin. cbn [fold_right] in Hin.
  apply cat_grp_split in Hin as [d [s0 [caps [E0 [Hd Hin]]]]];
    [|reflexivity].
  rewrite Hg in Hd. inversion Hd; subst d caps; clear Hd.
  apply cat_free_split in Hin as [p1 [s1 [E1 Hin]]]; [|reflexivity].
  apply cat_free_split in Hin as [p2 [s2 [E2 Hin]]]; [|reflexivity].
  apply cat_free_split in Hin as [p3 [s3 [E3 Hin]]]; [|reflexivity].
  apply cat_free_split in Hin as [p4 [s4 [E4 Hin]]]; [|reflexivity].
  apply cat_free_split in Hin as [p5 [s5 [E5 Hin]]]; [|reflexivity].
  apply cat_free_split in Hin as [p6 [s6 [E6 Hin]]]; [|reflexivity].
  apply cat_free_split in Hin as [p7 [s7 [E7 Hin]]]; [|reflexivity].
  apply cat_free_split in Hin as [p8 [s8 [E8 Hin]]]; [|reflexivity].
  apply cat_free_split in Hin as [p9 [s9 [E9 Hin]]]; [|reflexivity].
  apply cat_free_split in Hin as [p10 [s10 [E10 Hin]]]; [|reflexivity].
  apply cat_comma_split in Hin as [s11 [E11 Hin]].
  apply cat_grp_split in Hin as [a [s12 [caps [E12 [Ha Hin]]]]];
    [|reflexivity].
  simpl in Ha. inversion Ha; subst a caps; clear Ha.
  apply cat_comma_split in Hin as [s13 [E13 _]].
  exists (p1 ++ p2 ++ p3 ++ p4 ++ p5 ++ p6 ++ p7 ++ p8 ++ p9 ++ p10), s13.
  subst. now rewrite <- !app_assoc.
Qed.

(** A transaction is read from a line of a block, stripped, that matches the
    pattern of a transaction: the line starts with the date, of four digits,
    two digits and two digits with slashes, and has the amount, the second
    group of the pattern, between two commas.
    The date has to exist; it is kept with dashes for the slashes and the
    year without its leading zeros.  The amount of the transaction is the
    number written in the amount field of the line, and is not negative. *)
Theorem transaction_of_line (line : str) (t : Tx) :
  parse_tx line = Some t ->
  exists date_str amount_str between after,
    re_match TX_PATTERN line = Some [date_str; amount_str]
    /\ line = date_str ++ between
              ++ ","%char :: amount_str ++ ","%char :: after
    /\ is_date_with "/" date_str = true
    /\ amount_str <> []
    /\ forallb (is_digit_or ".") amount_str = true
    /\ convert_date date_str = Ok (tx_date t)
    /\ tx_date t = written_date_of date_str
    /\ is_written_date (tx_date t) = true
    /\ (Ascii.eqb (hd "0"%char date_str) "0" = false ->
        tx_date t = replace_char "/" "-" date_str
        /\ is_iso_date (tx_date t) = true)
    /\ py_float amount_str = Ok (tx_amount t)
    /\ not_negative (tx_amount t).
Proof.
  unfold parse_tx. intros H.
  destruct (re_match TX_PATTERN line) as [groups|] eqn:Hm; [|discriminate].
  destruct (tx_groups _ _ Hm) as [d [a [rest [-> [El [Hd [Hne Hall]]]]]]].
  destruct (py_float a) as [x|] eqn:Hf; [|discriminate].
  destruct (convert_date d) as [date|] eqn:Hc; [|discriminate].
  inversion H; subst t; clear H. cbn [tx_date tx_amount].
  destruct (convert_date_writes _ _ Hd Hc) as [Hr Hi].
  destruct (tx_line_parts _ _ _ Hm) as [between [after Ep]].
  exists d, a, between, after.
  split; [reflexivity|]. split; [exact Ep|]. split; [exact Hd|].
  split; [exact Hne|]. split; [exact Hall|]. split; [exact Hc|].
  split; [exact Hr|]. split; [exact Hi|]. split.
  - intros H0. rewrite Hr. now apply written_date_of_full.
  - split; [exact Hf|]. now apply py_float_sign in Hf.
Qed.

Lemma transaction_of_line_witness :
  exists t,
    parse_tx tx_line_early = Some t
    /\ tx_date t = s_ "999-01-01"
    /\ is_written_date (tx_date t) = true.
Proof.
  eexists. split; [vm_compute; reflexivity|]. split; [reflexivity|].
  destruct (transaction_of_line tx_line_early
              {| tx_date := s_ "999-01-01";
                 tx_amount := float_of_decimal (s_ "100") (s_ "0") |})
    as [d [a [b [c [_ [_ [_ [_ [_ [_ [_ [H _]]]]]]]]]]]];
    [vm_compute; reflexivity|].
  exact H.
Defined.

(** ** Timestamps *)

Lemma kaggle_line_dated (n : nat) (line : str) (es : list Event) :
  kaggle_line n line = Ok es -> Forall event_dated es.
Proof.
  unfold kaggle_line. destruct (strip line) as [|c0 t0].
  - intros H. inversion H. constructor.
  - destruct (re_match KAGGLE_PATTERN line) as [groups|] eqn:Hm.
    + destruct (kaggle_groups _ _ Hm) as [d [c [a [m [-> [Hd _]]]]]].
      intros H. apply bind_ok in H as [x [_ H]]. inversion H; subst.
      constructor; [|constructor]. unfold event_dated. simpl. auto.
    + intros H. inversion H; subst. constructor; [|constructor].
      unfold event_dated. simpl. auto.
Qed.

Lemma kaggle_loop_dated (lines : list str) :
  forall n evs, kaggle_loop n lines = Ok evs -> Forall event_dated evs.
Proof.
  induction lines as [|l lines IH]; intros n evs H; simpl in H.
  - inversion H. constructor.
  - apply bind_ok in H as [es [H1 H]]. apply bind_ok in H as [es' [H2 H]].
    inversion H; subst. apply Forall_app. split.
    + now apply kaggle_line_dated in H1.
    + now apply IH in H2.
Qed.

Lemma summarize_block_dated (typ : str) (txs : list Tx) (es : list Event) :
  Forall (fun t => is_written_date (tx_date t) = true) txs ->
  summarize_block typ txs = Ok es -> Forall event_dated es.
Proof.
  intros Hn H. destruct txs as [|t txs].
  - inversion H. constructor.
  - rewrite (summarize_block_nonempty typ (t :: txs)) in H by discriminate.
    apply bind_ok in H as [a [Ha H]]. inversion H; subst; clear H.
    constructor; [|constructor]. unfold event_dated. simpl.
    split; [reflexivity|]. split; [reflexivity|].
    set (l := map tx_date (t :: txs)).
    assert (Hin : In (hd [] (sorted_set l)) l).
    { apply sorted_set_in, hd_in. intros E.
      assert (Hx : In (tx_date t) (sorted_set l))
        by (apply sorted_set_in; now left).
      rewrite E in Hx. destruct Hx. }
    apply in_map_iff in Hin as [t' [E Ht']].
    change (is_written_date (hd [] (sorted_set l)) = true). rewrite <- E.
    rewrite Forall_forall in Hn. now apply Hn.
Qed.

Lemma parse_events_dated (lines : list str) (evs : list Event) :
  parse_events lines = Ok evs -> Forall event_dated evs.
Proof.
  unfold parse_events. destruct (has_kaggle lines).
  - apply kaggle_loop_dated.
  - destruct (has_amlsim lines).
    + apply (parse_amlsim_inv event_dated
               (fun t => is_written_date (tx_date t) = true) (fun _ => True));
        auto.
      * intros typ txs es _. apply summarize_block_dated.
      * intros line t Ht. unfold parse_tx in Ht.
        destruct (re_match TX_PATTERN line) as [groups|] eqn:Hm;
          [|discriminate].
        destruct (tx_groups _ _ Hm) as [d [a [rest [-> [_ [Hd _]]]]]].
        destruct (py_float a); [|discriminate].
        destruct (convert_date d) as [date|] eqn:Hc; [|discriminate].
        inversion Ht; subst. simpl.
        now destruct (convert_date_writes _ _ Hd Hc).
    + intros H. inversion H. unfold fallback_events.
      apply Forall_forall. intros e He.
      apply in_map_iff in He as [l [<- _]]. unfold event_dated. simpl. auto.
Qed.

Lemma iso_date_length (t : str) : is_iso_date t = true -> length t = 10.
Proof.
  unfold is_iso_date, is_date_with.
  destruct t as [|y1 [|y2 [|y3 [|y4 [|a [|m1 [|m2 [|b [|d1 [|d2 [|x s]]]]]]]]]]];
    try discriminate. reflexivity.
Qed.

Lemma written_date_length (t : str) :
  is_written_date t = true -> 7 <= length t <= 10.
Proof.
  unfold is_written_date, is_written_year. intros H.
  apply andb_true_iff in H as [H _].
  rewrite !andb_true_iff, !Nat.leb_le in H. destruct H as [[[H1 H2] _] _].
  rewrite length_firstn in H1, H2. lia.
Qed.

(** A written date of ten characters is a date of four digits, two digits
    and two digits with dashes. *)
Lemma written_date_iso (t : str) :
  is_written_date t = true -> length t = 10 -> is_iso_date t = true.
Proof.
  intros H Hl.
  destruct t as [|y1 [|y2 [|y3 [|y4 [|a [|m1 [|m2 [|b [|d1 [|d2 [|x s]]]]]]]]]]];
    try discriminate Hl.
  unfold is_written_date, is_written_year in H.
  cbn [length Nat.sub firstn skipn forallb] in H.
  rewrite !andb_true_iff in H.
  destruct H as [[[_ [Y1 [Y2 [Y3 [Y4 _]]]]] _] [[Ha Hb] [M1 [M2 [D1 [D2 _]]]]]].
  unfold is_iso_date, is_date_with. cbn [forallb].
  now rewrite Y1, Y2, Y3, Y4, M1, M2, D1, D2, Ha, Hb.
Qed.

(** The timestamp of an alert of the chain is its date followed by
    [" 00:00:00"].  The date of an alert of a line is the date of the line,
    four digits, two digits and two digits with dashes: the timestamp has 19
    characters and its first ten are the date.  The date of the alert of a
    block is written by [strftime]: its year has no leading zeros, so the
    timestamp has from 16 to 19 characters; when the date has ten
    characters, the timestamp is as for a line.  The timestamp of an UNKNOWN
    event is ["N/A"]. *)
Theorem timestamps_are_dates (raw : str) (d : Document) (e : Event) :
  extract_causal_chain raw = Ok d ->
  In e (causal_chain d) ->
  match details e with
  | AlertDetails date _ _ _ =>
      event_type e = FINANCIAL_CRIME_ALERT
      /\ is_iso_date date = true
      /\ timestamp e = date ++ s_ " 00:00:00"
      /\ firstn 10 (timestamp e) = date
      /\ length (timestamp e) = 19
  | BlockDetails date _ _ _ _ _ =>
      event_type e = FINANCIAL_CRIME_ALERT
      /\ is_written_date date = true
      /\ timestamp e = date ++ s_ " 00:00:00"
      /\ length (timestamp e) = length date + 9
      /\ 16 <= length (timestamp e) <= 19
      /\ (length date = 10 ->
          is_iso_date date = true /\ firstn 10 (timestamp e) = date)
  | ErrorDetails _ => event_type e = UNKNOWN /\ timestamp e = NA
  end.
Proof.
  intros H He. apply extract_ok in H as [evs [Hp [Hc _]]].
  apply parse_events_dated in Hp. rewrite Forall_forall in Hp.
  rewrite Hc in He.
  apply (Permutation_in _ (Permutation_sym (sort_by_perm sort_key evs))) in He.
  specialize (Hp e He). unfold event_dated in Hp.
  destruct (details e) as [date c a x|date c a x n p|err]; auto;
    destruct Hp as [H1 [H2 H3]].
  - pose proof (iso_date_length _ H3) as Hl.
    split; [auto|]. split; [auto|]. split; [auto|]. rewrite H2. split.
    + rewrite firstn_app, Hl, Nat.sub_diag, firstn_all2 by lia.
      simpl. apply app_nil_r.
    + rewrite length_app, Hl. reflexivity.
  - pose proof (written_date_length _ H3) as Hl.
    split; [auto|]. split; [auto|]. split; [auto|]. rewrite H2.
    rewrite length_app. cbn [s_ list_ascii_of_string length].
    split; [reflexivity|]. split; [lia|].
    intros H10. split; [now apply written_date_iso|].
    rewrite firstn_app, H10, Nat.sub_diag, firstn_all2 by lia.
    simpl. apply app_nil_r.
Qed.

Lemma timestamps_are_dates_witness :
  exists d e,
    extract_causal_chain early_block = Ok d
    /\ In e (causal_chain d)
    /\ timestamp e = s_ "999-01-01 00:00:00"
    /\ length (timestamp e) = 18.
Proof.
  eexists. eexists. split; [vm_compute; reflexivity|].
  split; [now left|]. split; [reflexivity|].
  match goal with
  | |- length (timestamp ?e) = 18 =>
      pose proof (timestamps_are_dates early_block _ e
                    ltac:(vm_compute; reflexivity) (or_introl eq_refl)) as H
  end.
  cbn [details] in H. destruct H as [_ [_ [_ [H _]]]]. exact H.
Defined.

(** ** The fields of an alert of the tabular format *)

Lemma remove_commas_digits (s : str) :
  forallb (is_digit_or ",") s = true ->
  forallb is_digit (remove_char "," s) = true.
Proof.
  unfold remove_char, is_digit_or.
  induction s as [|c s IH]; simpl; auto.
  intros H. apply andb_true_iff in H as [Hc H].
  rewrite orb_false_r in Hc.
  destruct (Ascii.eqb c ",") eqn:E; simpl; auto.
  rewrite orb_false_r in Hc. rewrite Hc. simpl. auto.
Qed.

Lemma in_strip_dot (s : str) :
  forallb dot s = true -> ~ In newline (strip s).
Proof.
  intros H Hin. apply in_strip in Hin.
  rewrite forallb_forall in H. specialize (H _ Hin). discriminate H.
Qed.

Lemma kaggle_line_fields (n : nat) (line : str) (es : list Event) :
  kaggle_line n line = Ok es ->
  Forall (fun e =>
    event_type e = FINANCIAL_CRIME_ALERT ->
    exists date case_id alert_type amount,
      details e = AlertDetails date case_id alert_type amount
      /\ is_case_id case_id = true
      /\ strip alert_type = alert_type
      /\ ~ In newline alert_type) es.
Proof.
  unfold kaggle_line. destruct (strip line) as [|c0 t0].
  - intros H. inversion H. constructor.
  - destruct (re_match KAGGLE_PATTERN line) as [groups|] eqn:Hm.
    + destruct (kaggle_groups _ _ Hm)
        as [d [c [a [m [-> [Hd [Hc [Ha [Hne Hall]]]]]]]]].
      intros H. apply bind_ok in H as [x [Hx H]]. inversion H; subst.
      constructor; [|constructor]. intros _. simpl in *.
      exists d, c, (strip a), x. repeat split; auto.
      * apply strip_idem.
      * now apply in_strip_dot.
    + intros H. inversion H; subst. constructor; [|constructor].
      simpl. discriminate.
Qed.

Lemma kaggle_loop_fields (P : Event -> Prop) (lines : list str) :
  (forall n line es, kaggle_line n line = Ok es -> Forall P es) ->
  forall n evs, kaggle_loop n lines = Ok evs -> Forall P evs.
Proof.
  intros HP. induction lines as [|l lines IH]; intros n evs H; simpl in H.
  - inversion H. constructor.
  - apply bind_ok in H as [es [H1 H]]. apply bind_ok in H as [es' [H2 H]].
    inversion H; subst. apply Forall_app. split; eauto.
Qed.

(** In the tabular format every alert has the four fields of the details;
    its case identifier is F and C, in either case as the line has them,
    and six digits; its alert type has no whitespace around it and no
    newline. *)
Theorem kaggle_alert_fields (raw : str) (d : Document) (e : Event) :
  extract_causal_chain raw = Ok d ->
  detected_format (summary d) = KAGGLE ->
  In e (causal_chain d) ->
  event_type e = FINANCIAL_CRIME_ALERT ->
  exists date case_id alert_type amount,
    details e = AlertDetails date case_id alert_type amount
    /\ is_case_id case_id = true
    /\ strip alert_type = alert_type
    /\ ~ In newline alert_type.
Proof.
  intros H Hf He Ha. apply extract_ok in H as [evs [Hp [Hc [_ [Hd _]]]]].
  rewrite Hd in Hf. rewrite (detect_kaggle _ Hf) in Hp.
  rewrite Hc in He.
  apply (Permutation_in _ (Permutation_sym (sort_by_perm sort_key evs))) in He.
  pose proof (kaggle_loop_fields _ _ kaggle_line_fields _ _ Hp) as HP.
  rewrite Forall_forall in HP. exact (HP e He Ha).
Qed.

Lemma kaggle_alert_fields_witness :
  exists d e case_id,
    extract_causal_chain lower_case_text = Ok d
    /\ In e (causal_chain d)
    /\ case_id_of e = Some case_id
    /\ is_case_id case_id = true
    /\ amount_of e = Some 15%Z.
Proof.
  eexists. eexists. eexists. split; [vm_compute; reflexivity|].
  split; [now left|]. split; [reflexivity|]. split; [|reflexivity].
  match goal with
  | |- is_case_id ?c = true =>
      destruct (kaggle_alert_fields lower_case_text _
                  (first_event (parse_events (input_lines lower_case_text)))
                  ltac:(vm_compute; reflexivity) eq_refl
                  (or_introl eq_refl) eq_refl)
        as [dt [cid [at_ [a [Hdet [Hcid _]]]]]]
  end.
  vm_compute in Hdet. inversion Hdet; subst. exact Hcid.
Defined.

(** ** When the core raises in the tabular format *)

Lemma kaggle_line_raises (n : nat) (line : str) :
  kaggle_line n line
  = if amount_unreadable line then Raise ValueError
    else match kaggle_line n line with
         | Ok es => Ok es
         | Raise _ => Ok []
         end.
Proof.
  unfold amount_unreadable, nonblank, kaggle_line.
  destruct (strip line) as [|c0 t0]; [reflexivity|]. simpl.
  destruct (re_match KAGGLE_PATTERN line) as [groups|] eqn:Hm; [|reflexivity].
  destruct (kaggle_groups _ _ Hm) as [d [c [a [m [-> [_ [_ [_ [_ Hall]]]]]]]]].
  simpl. apply remove_commas_digits in Hall. unfold py_int.
  destruct (remove_char "," m) as [|x ds] eqn:E; [reflexivity|].
  rewrite Hall. cbn [length Nat.eqb orb andb].
  rewrite Nat.ltb_antisym.
  match goal with
  | |- context [?k <=? int_max_str_digits] =>
      destruct (k <=? int_max_str_digits)
  end; reflexivity.
Qed.

Lemma kaggle_loop_raises (lines : list str) :
  forall n,
    if existsb amount_unreadable lines
    then kaggle_loop n lines = Raise ValueError
    else exists evs, kaggle_loop n lines = Ok evs.
Proof.
  induction lines as [|l lines IH]; intros n; simpl.
  - now exists [].
  - rewrite (kaggle_line_raises n l).
    destruct (amount_unreadable l); simpl; [reflexivity|].
    specialize (IH (S n)).
    destruct (kaggle_line n l) as [es|x]; simpl;
      destruct (existsb amount_unreadable lines).
    + now rewrite IH.
    + destruct IH as [evs ->]. simpl. eauto.
    + now rewrite IH.
    + destruct IH as [evs ->]. simpl. eauto.
Qed.

(** In the tabular format the parser raises exactly when some non-blank
    line matches the pattern with an amount that has no digit (only commas)
    or more than 4300 digits; the exception is a ValueError.  Otherwise a
    document is built. *)
Lemma kaggle_parse_value_error (raw : str) :
  detect (input_lines raw) = KAGGLE ->
  if existsb amount_unreadable (input_lines raw)
  then extract_causal_chain raw = Raise ValueError
  else exists d, extract_causal_chain raw = Ok d.
Proof.
  intros Hf. unfold extract_causal_chain.
  rewrite (detect_kaggle _ Hf). unfold parse_kaggle_format.
  pose proof (kaggle_loop_raises (input_lines raw) 1) as H.
  destruct (existsb amount_unreadable (input_lines raw)).
  - now rewrite H.
  - destruct H as [evs ->]. simpl. eauto.
Qed.

(** ** The typology of a block *)

Lemma star_loop_within (X : ascii -> bool) (g : bool)
    (body : str -> list mres) (n : nat) :
  (forall s m, In m (body s) ->
     exists p, s = p ++ snd m /\ forallb X p = true) ->
  forall s m, In m (star_loop g body n s) ->
    exists p, s = p ++ snd m /\ forallb X p = true.
Proof.
  intros Hb. induction n as [|n IH]; intros s m H; simpl in H.
  - destruct H as [<-|[]]. exists []. auto.
  - unfold star_round in H.
    assert (Hmore :
      In m (flat_map (fun m0 =>
              if length (snd m0) <? length s
              then map (with_caps (fst m0)) (star_loop g body n (snd m0))
              else []) (body s)) ->
      exists p, s = p ++ snd m /\ forallb X p = true).
    { intros Hin. apply in_flat_map in Hin as [m1 [H1 H2]].
      destruct (length (snd m1) <? length s); [|destruct H2].
      apply in_map_iff in H2 as [m2 [<- H2]].
      destruct (Hb _ _ H1) as [p1 [E1 F1]].
      destruct (IH _ _ H2) as [p2 [E2 F2]].
      exists (p1 ++ p2). unfold with_caps. simpl. split.
      - rewrite <- app_assoc, <- E2. exact E1.
      - rewrite forallb_app, F1, F2. reflexivity. }
    destruct g.
    + apply in_app_or in H as [H|[<-|[]]]; auto. exists []. auto.
    + destruct H as [<-|H]; auto. exists []. auto.
Qed.

Lemma within_spec (X : ascii -> bool) (r : regex) :
  within X r ->
  forall s m, In m (matches r s) ->
    exists p, s = p ++ snd m /\ forallb X p = true.
Proof.
  induction r as [|p|r1 IH1 r2 IH2|g r IH|r IH]; simpl; intros Hw s m H.
  - destruct H as [<-|[]]. exists []. auto.
  - destruct s as [|c s]; [destruct H|].
    destruct (p c) eqn:Hp; [|destruct H]. destruct H as [<-|[]].
    exists [c]. simpl. rewrite (Hw c Hp). auto.
  - destruct Hw as [W1 W2]. apply in_flat_map in H as [m1 [H1 H2]].
    apply in_map_iff in H2 as [m2 [<- H2]].
    destruct (IH1 W1 _ _ H1) as [p1 [E1 F1]].
    destruct (IH2 W2 _ _ H2) as [p2 [E2 F2]].
    exists (p1 ++ p2). unfold with_caps. simpl. split.
    + rewrite <- app_assoc, <- E2. exact E1.
    + rewrite forallb_app, F1, F2. reflexivity.
  - apply (star_loop_within X g (matches r) (length s) (IH Hw) s m H).
  - apply in_map_iff in H as [m1 [<- H1]]. simpl. now apply IH.
Qed.

Lemma full_match_within (X : ascii -> bool) (r : regex) (t : str) :
  within X r -> full_match r t -> forallb X t = true.
Proof.
  intros Hw [c H]. destruct (within_spec X r Hw _ _ H) as [p [E F]].
  simpl in E. rewrite app_nil_r in E. now subst.
Qed.

(** The group of a begin marker: word characters and hyphens. *)
Lemma begin_group (line : str) (groups : list str) :
  re_match BEGIN_PATTERN line = Some groups ->
  exists g, groups = [g] /\ forallb word_or_dash g = true.
Proof.
  unfold re_match. destruct (matches BEGIN_PATTERN line) as [|m ms] eqn:Hm;
    [discriminate|].
  intros H. inversion H; subst; clear H.
  assert (Hin : In m (matches BEGIN_PATTERN line)) by (rewrite Hm; now left).
  pose proof (captures_spec BEGIN_PATTERN eq_refl _ _ Hin) as F.
  change (captures_of BEGIN_PATTERN)
    with [seq [word1; Star true (seq [lit "-"; word1])]] in F.
  destruct (fst m) as [|g [|x l]];
    try (exfalso; repeat (inversion F; subst; clear F;
           match goal with
           | H : Forall2 _ _ _ |- _ => rename H into F
           | _ => idtac
           end); fail).
  apply Forall2_cons_iff in F as [Hg _].
  exists g. split; auto.
  apply (full_match_within word_or_dash _ _) in Hg; auto.
  unfold word_or_dash. simpl.
  repeat split; auto; intros c Hc; rewrite ?Hc; auto;
    apply ci_dash in Hc; subst; reflexivity.
Qed.

Lemma normalize_char (c : ascii) :
  word_or_dash c = true ->
  typology_char (if Ascii.eqb (upper c) "-" then "_"%char else upper c)
  = true.
Proof.
  destruct c as [[] [] [] [] [] [] [] []]; vm_compute;
    intros H; try discriminate H; reflexivity.
Qed.

Lemma normalize_typology_chars (g : str) :
  forallb word_or_dash g = true ->
  forallb typology_char (normalize_typology g) = true.
Proof.
  unfold normalize_typology, replace_char.
  induction g as [|c g IH]; simpl; auto.
  intros H. apply andb_true_iff in H as [Hc H].
  rewrite (normalize_char c Hc). simpl. auto.
Qed.

Lemma alert_type_chars (typ : str) :
  forallb typology_char typ = true ->
  forallb alert_type_char (replace_char "_" "-" typ) = true.
Proof.
  unfold replace_char, typology_char, alert_type_char.
  induction typ as [|c typ IH]; simpl; auto.
  intros H. apply andb_true_iff in H as [Hc H]. rewrite (IH H).
  destruct (Ascii.eqb_spec c "_") as [->|Hne]; [reflexivity|].
  rewrite orb_false_r in Hc. rewrite Hc. reflexivity.
Qed.

Lemma parse_amlsim_fields (lines : list str) (evs : list Event) :
  parse_amlsim_format lines = Ok evs -> Forall block_fields evs.
Proof.
  apply (parse_amlsim_inv block_fields (fun _ => True)
           (fun typ => typ <> [] /\ forallb typology_char typ = true)); auto.
  - intros typ txs es [Hne Hch] _ H. destruct txs as [|t txs].
    + inversion H. constructor.
    + rewrite (summarize_block_nonempty typ (t :: txs)) in H by discriminate.
      apply bind_ok in H as [a [_ H]]. inversion H; subst; clear H.
      constructor; [|constructor]. unfold block_fields. simpl.
      do 5 eexists. split; [reflexivity|]. auto.
  - intros line groups Hm Hne. split; auto.
    destruct (begin_group _ _ Hm) as [g [-> Hg]]. simpl.
    now apply normalize_typology_chars.
Qed.

Lemma detect_amlsim (lines : list str) :
  detect lines = AMLSIM -> parse_events lines = parse_amlsim_format lines.
Proof.
  unfold detect, parse_events. destruct (has_kaggle lines); [discriminate|].
  destruct (has_amlsim lines); [reflexivity|discriminate].
Qed.

(** On an input of ASCII characters, in the AMLSIM format every event of
    the chain is the alert of a block, made from the typology that the begin
    marker set: the typology is not empty and has digits, capital letters
    and underscores only; the alert type is the typology with hyphens for
    the underscores, so it has digits, capital letters and hyphens only; the
    case identifier is SYN, the first two characters of the typology and the
    padded count.  Outside ASCII, [\w] and [upper] of Python know more
    letters than the tables of this file. *)
Theorem amlsim_alert_fields (raw : str) (d : Document) (e : Event) :
  ascii_text raw = true ->
  extract_causal_chain raw = Ok d ->
  detected_format (summary d) = AMLSIM ->
  In e (causal_chain d) ->
  exists typ date alert_type amount n period,
    details e = BlockDetails date (s_ "SYN" ++ firstn 2 typ ++ pad4 n)
                  alert_type amount n period
    /\ typ <> []
    /\ forallb typology_char typ = true
    /\ alert_type = replace_char "_" "-" typ
    /\ forallb alert_type_char alert_type = true.
Proof.
  intros _ H Hf He. apply extract_ok in H as [evs [Hp [Hc [_ [Hd _]]]]].
  rewrite Hd in Hf. rewrite (detect_amlsim _ Hf) in Hp.
  rewrite Hc in He.
  apply (Permutation_in _ (Permutation_sym (sort_by_perm sort_key evs))) in He.
  apply parse_amlsim_fields in Hp. rewrite Forall_forall in Hp.
  destruct (Hp e He) as [typ [date [a [n [p [Hdet [Hne Hch]]]]]]].
  exists typ, date, (replace_char "_" "-" typ), a, n, p.
  repeat split; auto. now apply alert_type_chars.
Qed.

Lemma amlsim_alert_fields_witness :
  exists d e alert_type,
    extract_causal_chain scenario2 = Ok d
    /\ In e (causal_chain d)
    /\ details e = BlockDetails (s_ "2022-09-01") (s_ "SYNFA0002") alert_type
                     350 2 (s_ "2022-09-01 to 2022-09-03")
    /\ forallb alert_type_char alert_type = true.
Proof.
  eexists. eexists. eexists. split; [vm_compute; reflexivity|].
  split; [now left|]. split; [reflexivity|].
  destruct (amlsim_alert_fields scenario2 _
              (first_event (parse_events (input_lines scenario2)))
              ltac:(vm_compute; reflexivity)
              ltac:(vm_compute; reflexivity) eq_refl (or_introl eq_refl))
    as [typ [dt [at_ [a [n [p [Hdet [_ [_ [_ Hch]]]]]]]]]].
  vm_compute in Hdet. inversion Hdet; subst. exact Hch.
Defined.

(** ** The exceptions of the core *)

Lemma shr_1_nonneg (mrs : shr_record) :
  (0 <= shr_m mrs)%Z -> (0 <= shr_m (shr_1 mrs))%Z.
Proof.
  destruct mrs as [m r s]. simpl.
  destruct m as [|[p|p|]|[p|p|]]; simpl; lia.
Qed.

Lemma iter_shr_1_nonneg (p : positive) :
  forall mrs, (0 <= shr_m mrs)%Z -> (0 <= shr_m (iter_pos shr_1 p mrs))%Z.
Proof.
  induction p as [p IH|p IH|]; intros mrs H; simpl.
  - apply IH, IH. now apply shr_1_nonneg.
  - apply IH, IH. exact H.
  - now apply shr_1_nonneg.
Qed.

Lemma shr_fexp_nonneg (m e : Z) (l : location) :
  (0 <= m)%Z -> (0 <= shr_m (fst (shr_fexp prec emax m e l)))%Z.
Proof.
  intros H. unfold shr_fexp, shr.
  assert (H0 : (0 <= shr_m (shr_record_of_loc m l))%Z)
    by (destruct l as [|[]]; exact H).
  match goal with
  | |- context [match ?n with _ => _ end] => destruct n
  end; simpl; auto.
  now apply iter_shr_1_nonneg.
Qed.

Lemma round_nearest_even_nonneg (m : Z) (l : location) :
  (0 <= m)%Z -> (0 <= round_nearest_even m l)%Z.
Proof.
  intros H. unfold round_nearest_even.
  destruct l as [|[]]; try destruct (Z.even m); lia.
Qed.

Lemma binary_round_aux_plain (m e : Z) (l : location) :
  (0 <= m)%Z -> plain (binary_round_aux prec emax false m e l).
Proof.
  intros H. unfold binary_round_aux.
  pose proof (shr_fexp_nonneg m e l H) as H1.
  destruct (shr_fexp prec emax m e l) as [mrs' e']. simpl in H1.
  pose proof (shr_fexp_nonneg _ e' loc_Exact
                (round_nearest_even_nonneg (shr_m mrs')
                   (loc_of_shr_record mrs') H1)) as H2.
  destruct (shr_fexp prec emax _ e' loc_Exact) as [mrs'' e'']. simpl in H2.
  destruct (shr_m mrs'') as [|q|q]; simpl; auto; try lia.
  match goal with
  | |- context [if ?b then _ else _] => destruct b; simpl; auto
  end.
Qed.

Lemma float_add_plain (x y : float) :
  plain x -> plain y -> plain (float_add x y).
Proof.
  unfold float_add, SFadd.
  destruct x as [sx|sx| |sx mx ex], y as [sy|sy| |sy my ey];
    simpl; auto; try (destruct sx, sy; simpl; auto; fail).
  destruct sx, sy; simpl; try contradiction. intros _ _.
  unfold binary_normalize, binary_round.
  destruct (shl_align mx ex (Z.min ex ey)) as [mx' ex'].
  destruct (shl_align my ey (Z.min ex ey)) as [my' ey']. simpl.
  match goal with
  | |- context [shl_align ?a ?b ?c] => destruct (shl_align a b c)
  end.
  apply binary_round_aux_plain. lia.
Qed.

Lemma float_sum_plain (xs : list float) :
  Forall plain xs -> plain (float_sum xs).
Proof.
  unfold float_sum.
  assert (H : forall acc, plain acc -> Forall plain xs ->
                          plain (fold_left float_add xs acc)).
  { induction xs as [|x xs IH]; intros acc Ha Hx; simpl; auto.
    inversion Hx; subst. apply IH; auto. now apply float_add_plain. }
  apply H. exact I.
Qed.

Lemma float_of_decimal_plain (ip fp : str) : plain (float_of_decimal ip fp).
Proof.
  unfold float_of_decimal.
  destruct (Z_of_digits (ip ++ fp)) as [|m|m]; simpl; auto.
  destruct (10 ^ Z.of_nat (length fp))%Z as [|d|d]; simpl; auto.
  unfold SFdiv_core_binary.
  match goal with
  | |- context [Z.div_eucl ?a ?b] =>
      assert (Hq : (0 <= fst (Z.div_eucl a b))%Z);
      [change (fst (Z.div_eucl a b)) with (a / b)%Z;
       apply Z.div_pos; [|lia]
      |destruct (Z.div_eucl a b) as [q r]]
  end.
  - match goal with
    | |- (0 <= match ?s with _ => _ end)%Z => destruct s; try lia
    end.
    apply Z.shiftl_nonneg. lia.
  - simpl in Hq. now apply binary_round_aux_plain.
Qed.

Lemma py_float_plain (s : str) (x : float) : py_float s = Ok x -> plain x.
Proof.
  unfold py_float. destruct (take_digits s) as [ip r].
  destruct r as [|c fp].
  - destruct (negb (length ip =? 0)); [|discriminate].
    intros H. inversion H. apply float_of_decimal_plain.
  - destruct (_ && _); [|discriminate].
    intros H. inversion H. apply float_of_decimal_plain.
Qed.

Lemma parse_tx_plain (line : str) (t : Tx) :
  parse_tx line = Some t -> plain (tx_amount t).
Proof.
  unfold parse_tx. destruct (re_match TX_PATTERN line) as [g|]; [|discriminate].
  destruct g as [|d [|a [|x0 g]]]; try discriminate.
  destruct (py_float a) as [x|] eqn:Hf; [|discriminate].
  destruct (convert_date d); [|discriminate].
  intros H. inversion H; subst. simpl. now apply py_float_plain in Hf.
Qed.

Lemma summarize_block_raises (typ : str) (txs : list Tx) (x : exn) :
  Forall (fun t => plain (tx_amount t)) txs ->
  summarize_block typ txs = Raise x ->
  x = OverflowError /\ float_sum (map tx_amount txs) = S754_infinity false.
Proof.
  intros Hp H. destruct txs as [|t txs]; [discriminate|].
  rewrite (summarize_block_nonempty typ (t :: txs)) in H by discriminate.
  assert (Hs : plain (float_sum (map tx_amount (t :: txs))))
    by (apply float_sum_plain, Forall_map; exact Hp).
  destruct (float_sum (map tx_amount (t :: txs))) as [s|s| |s m e];
    simpl in *; try discriminate; try contradiction.
  destruct s; [contradiction|]. inversion H. auto.
Qed.

Lemma amlsim_step_raises (st : AmlState) (line : str) (x : exn) :
  Forall (fun t => plain (tx_amount t)) (current_txs st) ->
  amlsim_step st line = Raise x -> x = OverflowError.
Proof.
  unfold amlsim_step. intros Hp H.
  assert (Hflush : forall typ (k : list Event -> result AmlState),
            (es <- summarize_block typ (current_txs st) ;; k es) = Raise x ->
            (forall es, k es <> Raise x) -> x = OverflowError).
  { intros typ k Hk Hnot.
    destruct (summarize_block typ (current_txs st)) as [es|y] eqn:Hs.
    - simpl in Hk. now apply Hnot in Hk.
    - simpl in Hk. inversion Hk; subst.
      now destruct (summarize_block_raises _ _ _ Hp Hs). }
  destruct (re_match BEGIN_PATTERN (strip line)) as [groups|].
  - destruct (open_block st) as [typ|]; [|discriminate].
    destruct (current_txs st) as [|t txs] eqn:Hc; [discriminate|].
    destruct (summarize_block typ (t :: txs)) as [es|y] eqn:Hs;
      [discriminate|].
    simpl in H. inversion H; subst.
    now destruct (summarize_block_raises _ _ _ Hp Hs).
  - destruct (re_match END_PATTERN (strip line)) as [g|].
    + destruct (open_block st) as [typ|]; [|discriminate].
      apply (Hflush typ _ H). discriminate.
    + destruct (open_block st) as [typ|]; [|discriminate].
      destruct (parse_tx (strip line)); discriminate.
Qed.

Lemma parse_amlsim_raises (lines : list str) (x : exn) :
  parse_amlsim_format lines = Raise x -> x = OverflowError.
Proof.
  unfold parse_amlsim_format.
  assert (Hloop : forall ls st,
            Forall (fun t => plain (tx_amount t)) (current_txs st) ->
            match amlsim_loop st ls with
            | Ok st' => Forall (fun t => plain (tx_amount t)) (current_txs st')
            | Raise y => y = OverflowError
            end).
  { induction ls as [|l ls IH]; intros st Hp; simpl; auto.
    destruct (amlsim_step st l) as [st1|y] eqn:Hs; simpl.
    - apply IH.
      apply (amlsim_step_inv (fun _ => True)
               (fun t => plain (tx_amount t)) (fun _ => True)) in Hs.
      + apply Hs.
      + intros. apply Forall_forall. auto.
      + apply parse_tx_plain.
      + auto.
      + split; [apply Forall_forall; auto|split; auto].
    - now apply amlsim_step_raises in Hs. }
  specialize (Hloop lines amlsim_init (Forall_nil _)). revert Hloop.
  destruct (amlsim_loop amlsim_init lines) as [st|y]; simpl; intros Hloop.
  - unfold amlsim_finish.
    destruct (open_block st) as [typ|]; [|discriminate].
    destruct (current_txs st) as [|t txs] eqn:Hc; [discriminate|].
    destruct (summarize_block typ (t :: txs)) as [es|y] eqn:Hs;
      [discriminate|].
    simpl. intros H. inversion H; subst.
    now destruct (summarize_block_raises _ _ _ Hloop Hs).
  - intros H. inversion H. congruence.
Qed.

(** Before the document is serialised, an exception is raised in two cases
    only: in the tabular format a ValueError, when the amount of a matching
    line cannot be read; in the AMLSIM format an OverflowError, when the
    total of a block is too large for a float and cannot be converted to an
    integer. *)
Lemma exceptions_of_the_parsers (raw : str) (x : exn) :
  extract_causal_chain raw = Raise x ->
  (detect (input_lines raw) = KAGGLE /\ x = ValueError
   /\ existsb amount_unreadable (input_lines raw) = true)
  \/ (detect (input_lines raw) = AMLSIM /\ x = OverflowError).
Proof.
  unfold extract_causal_chain, parse_events, detect. intros H.
  destruct (has_kaggle (input_lines raw)).
  - left. unfold parse_kaggle_format in H.
    pose proof (kaggle_loop_raises (input_lines raw) 1) as Hk.
    destruct (existsb amount_unreadable (input_lines raw)).
    + rewrite Hk in H. simpl in H. inversion H. auto.
    + destruct Hk as [evs Hk]. rewrite Hk in H. discriminate H.
  - destruct (has_amlsim (input_lines raw)); [|discriminate H].
    right. split; auto.
    destruct (parse_amlsim_format (input_lines raw)) as [evs|y] eqn:Hp;
      [discriminate H|].
    simpl in H. inversion H; subst. now apply parse_amlsim_raises in Hp.
Qed.

(** * The report: the timeline table *)

(** ** Numbers in decimal digits *)

Ltac digit_vals :=
  repeat match goal with
  | |- context [digit_val ?c] =>
      let v := eval vm_compute in (digit_val c) in
      change (digit_val c) with v
  end.

Lemma pos_digits_value (d : Decimal.uint) :
  forall acc,
    fold_left (fun a c => (10 * a + digit_val c)%Z)
      (s_ (NilEmpty.string_of_uint d)) (Zpos acc)
    = Zpos (Pos.of_uint_acc d acc).
Proof.
  induction d; intros acc;
    cbn [fold_left s_ list_ascii_of_string NilEmpty.string_of_uint
         Pos.of_uint_acc]; auto;
    rewrite <- IHd; f_equal; digit_vals; lia.
Qed.

Lemma uint_digits_value (d : Decimal.uint) :
  Z_of_digits (s_ (NilEmpty.string_of_uint d)) = Z.of_N (Pos.of_uint d).
Proof.
  unfold Z_of_digits.
  induction d;
    cbn [fold_left s_ list_ascii_of_string NilEmpty.string_of_uint
         Pos.of_uint]; auto;
    digit_vals; cbn [Z.mul Z.add Z.of_N]; apply pos_digits_value.
Qed.

Lemma value_of_str_of_N (n : N) : Z_of_digits (str_of_N n) = Z.of_N n.
Proof.
  unfold str_of_N. rewrite uint_digits_value.
  f_equal. apply DecimalN.Unsigned.of_to.
Qed.

Lemma uint_digits (d : Decimal.uint) :
  forallb is_digit (s_ (NilEmpty.string_of_uint d)) = true.
Proof. induction d; simpl; auto. Qed.

Lemma str_of_N_digits (n : N) : forallb is_digit (str_of_N n) = true.
Proof. apply uint_digits. Qed.

Lemma str_of_N_0 : str_of_N 0 = s_ "0".
Proof. reflexivity. Qed.

(** The first digit of a number that is not zero is not a zero. *)
Lemma str_of_N_head (n : N) :
  n <> 0%N ->
  exists c s, str_of_N n = c :: s /\ (1 <= digit_val c)%Z.
Proof.
  intros Hn. unfold str_of_N.
  pose proof (DecimalN.Unsigned.to_of (N.to_uint n)) as H.
  rewrite DecimalN.Unsigned.of_to in H.
  assert (Hz : N.to_uint n <> Decimal.zero).
  { intros E. apply Hn. rewrite <- (DecimalN.Unsigned.of_to n), E.
    reflexivity. }
  revert H Hz. generalize (N.to_uint n). intros d H Hz.
  assert (Hd : d = Decimal.nzhead d).
  { unfold Decimal.unorm in H.
    destruct (Decimal.nzhead d) eqn:E; auto. congruence. }
  destruct d; try (simpl; do 2 eexists; split; [reflexivity|vm_compute; discriminate]).
  - discriminate H.
  - exfalso. symmetry in Hd. now apply DecimalFacts.nzhead_nonzero in Hd.
Qed.

Lemma digits_lower_bound (s : str) :
  forall acc, (0 <= acc)%Z ->
    (acc * 10 ^ Z.of_nat (length s)
     <= fold_left (fun a c => (10 * a + digit_val c)%Z) s acc)%Z.
Proof.
  induction s as [|c s IH]; intros acc Ha.
  - simpl. lia.
  - cbn [fold_left length]. rewrite Nat2Z.inj_succ, Z.pow_succ_r by lia.
    assert (Hc : (0 <= digit_val c)%Z) by (unfold digit_val; lia).
    specialize (IH (10 * acc + digit_val c)%Z ltac:(lia)).
    assert (0 < 10 ^ Z.of_nat (length s))%Z by (apply Z.pow_pos_nonneg; lia).
    nia.
Qed.

(** A number below [10 ^ k] has at most [k] digits. *)
Lemma str_of_N_length (n : N) (k : nat) :
  (Z.of_N n < 10 ^ Z.of_nat k)%Z -> 1 <= k -> length (str_of_N n) <= k.
Proof.
  intros Hn Hk.
  destruct (N.eq_dec n 0) as [->|Hz]; [simpl; lia|].
  destruct (str_of_N_head n Hz) as [c [s [E Hc]]].
  pose proof (value_of_str_of_N n) as Hv. rewrite E in Hv |- *.
  unfold Z_of_digits in Hv. cbn [fold_left] in Hv.
  pose proof (digits_lower_bound s (10 * 0 + digit_val c)%Z ltac:(lia)) as Hl.
  rewrite Hv in Hl.
  assert (H1 : (10 ^ Z.of_nat (length s) <= Z.of_N n)%Z).
  { assert (0 < 10 ^ Z.of_nat (length s))%Z by (apply Z.pow_pos_nonneg; lia).
    nia. }
  simpl.
  destruct (le_lt_dec (S (length s)) k) as [|Hgt]; auto.
  exfalso.
  assert (10 ^ Z.of_nat k <= 10 ^ Z.of_nat (length s))%Z
    by (apply Z.pow_le_mono_r; lia).
  lia.
Qed.

Lemma digit_not_comma (c : ascii) :
  is_digit c = true -> Ascii.eqb c "," = false.
Proof.
  destruct (Ascii.eqb_spec c ","%char) as [->|]; auto.
Qed.

Lemma remove_char_digits (s : str) :
  forallb is_digit s = true -> remove_char "," s = s.
Proof.
  unfold remove_char. induction s as [|c s IH]; simpl; auto.
  intros H. apply andb_true_iff in H as [Hc H].
  rewrite (digit_not_comma c Hc). simpl. now rewrite IH.
Qed.

Lemma commas_from_right_step (a b c d : ascii) (rest : str) :
  commas_from_right (a :: b :: c :: d :: rest)
  = a :: b :: c :: ","%char :: commas_from_right (d :: rest).
Proof. reflexivity. Qed.

(** Induction three digits at a time. *)
Lemma by_threes (P : str -> Prop) :
  (forall l, length l <= 3 -> P l) ->
  (forall a b c d rest, P (d :: rest) -> P (a :: b :: c :: d :: rest)) ->
  forall l, P l.
Proof.
  intros Hs Hr l.
  assert (H : forall n l, length l <= n -> P l).
  { induction n as [|n IH]; intros l' Hl.
    - apply Hs. lia.
    - destruct l' as [|a [|b [|c [|d rest]]]]; try (apply Hs; simpl; lia).
      apply Hr, IH. simpl in Hl |- *. lia. }
  apply (H (length l)). lia.
Qed.

Lemma commas_from_right_short (l : str) :
  length l <= 3 -> commas_from_right l = l.
Proof.
  destruct l as [|a [|b [|c [|d rest]]]]; simpl; auto. lia.
Qed.

Lemma remove_commas_from_right (l : str) :
  remove_char "," (commas_from_right l) = remove_char "," l.
Proof.
  induction l as [l Hl|a b c d rest IH] using by_threes.
  - now rewrite commas_from_right_short.
  - rewrite commas_from_right_step. unfold remove_char in *.
    cbn [filter]. rewrite IH.
    change (Ascii.eqb "," ",") with true. reflexivity.
Qed.

Lemma str_of_N_nonempty (n : N) : str_of_N n <> [].
Proof.
  destruct (N.eq_dec n 0) as [->|Hz]; [discriminate|].
  destruct (str_of_N_head n Hz) as [c [s [E _]]]. rewrite E. discriminate.
Qed.

Lemma format_commas_ok (n : Z) (t : str) :
  format_commas n = Ok t ->
  length (str_of_N (Z.abs_N n)) <= int_max_str_digits
  /\ t = (if (n <? 0)%Z then [ "-"%char ] else [])
         ++ rev (commas_from_right (rev (str_of_N (Z.abs_N n)))).
Proof.
  unfold format_commas.
  destruct (length (str_of_N (Z.abs_N n)) <=? int_max_str_digits) eqn:E;
    [|discriminate].
  intros H. inversion H. apply Nat.leb_le in E. split; auto.
  now destruct (n <? 0)%Z.
Qed.

Lemma remove_commas_of_grouped (d : str) :
  forallb is_digit d = true ->
  remove_char "," (rev (commas_from_right (rev d))) = d.
Proof.
  intros Hd. unfold remove_char. rewrite filter_rev.
  fold (remove_char "," (commas_from_right (rev d))).
  rewrite remove_commas_from_right. unfold remove_char.
  rewrite <- filter_rev, rev_involutive.
  now apply remove_char_digits.
Qed.

Lemma py_int_digits (s : str) :
  s <> [] -> forallb is_digit s = true -> length s <= int_max_str_digits ->
  py_int s = Ok (Z_of_digits s).
Proof.
  intros Hne Hd Hl. unfold py_int. apply Nat.leb_le in Hl.
  rewrite Hd, Hl. destruct s; [congruence|reflexivity].
Qed.

Lemma format_commas_read_back (n : Z) (t : str) :
  (0 <= n)%Z ->
  format_commas n = Ok t ->
  read_amount t = Ok n.
Proof.
  intros Hn Hf. apply format_commas_ok in Hf as [Hl ->].
  destruct (Z.ltb_spec n 0) as [|_]; [lia|]. cbn [app].
  unfold read_amount.
  rewrite (remove_commas_of_grouped _ (str_of_N_digits _)).
  rewrite py_int_digits; auto using str_of_N_nonempty, str_of_N_digits.
  rewrite value_of_str_of_N, N2Z.inj_abs_N. f_equal. lia.
Qed.

(** An amount that is not negative, printed with commas as the report
    prints it, is read back by the core's reading of an amount (commas
    removed, then [int]) as the same number. *)
Theorem printed_amount_is_read_back (n : Z) (t : str) :
  (0 <= n)%Z ->
  format_commas n = Ok t ->
  read_amount t = Ok n.
Proof. apply format_commas_read_back. Qed.

Lemma printed_amount_is_read_back_witness :
  format_commas 1234567 = Ok (s_ "1,234,567")
  /\ read_amount (s_ "1,234,567") = Ok 1234567%Z.
Proof.
  assert (H : format_commas 1234567 = Ok (s_ "1,234,567"))
    by (vm_compute; reflexivity).
  split; [exact H|].
  apply (printed_amount_is_read_back 1234567 _ ltac:(lia) H).
Defined.

Lemma digits_nth (l : str) (i : nat) :
  forallb is_digit l = true -> i < length l ->
  is_digit (nth i l "0"%char) = true.
Proof.
  intros H Hi. rewrite forallb_forall in H. apply H, nth_In, Hi.
Qed.

Lemma commas_from_right_grouped (l : str) :
  forallb is_digit l = true ->
  forall i, i < length (commas_from_right l) ->
    grouped_at (commas_from_right l) i.
Proof.
  induction l as [l Hl|a b c d rest IH] using by_threes; intros Hd i Hi.
  - rewrite commas_from_right_short in * by assumption.
    unfold grouped_at. rewrite Nat.mod_small by lia.
    destruct (Nat.eqb_spec i 3) as [|_]; [lia|].
    now apply digits_nth.
  - rewrite commas_from_right_step in *.
    cbn [forallb] in Hd.
    apply andb_true_iff in Hd as [Ha Hd].
    apply andb_true_iff in Hd as [Hb Hd].
    apply andb_true_iff in Hd as [Hc Hd].
    destruct i as [|[|[|[|j]]]]; unfold grouped_at; try (simpl; assumption).
    + reflexivity.
    + replace (S (S (S (S j))) mod 4) with (j mod 4).
      * cbn [nth]. apply (IH Hd j). cbn [length] in Hi. lia.
      * change (S (S (S (S j)))) with (4 + j).
        rewrite <- (Nat.Div0.add_mod_idemp_l 4 j 4). reflexivity.
Qed.

Lemma commas_from_right_last (l : str) (x : ascii) :
  last (commas_from_right l) x = last l x.
Proof.
  induction l as [l Hl|a b c d rest IH] using by_threes.
  - now rewrite commas_from_right_short.
  - rewrite commas_from_right_step.
    change (last (a :: b :: c :: ","%char :: commas_from_right (d :: rest)) x)
      with (last (","%char :: commas_from_right (d :: rest)) x).
    change (last (a :: b :: c :: d :: rest) x) with (last (d :: rest) x).
    rewrite <- IH. 
    destruct (commas_from_right (d :: rest)) eqn:E; auto.
    destruct rest as [|? [|? [|? ?]]]; discriminate E.
Qed.

Lemma hd_rev {A} (l : list A) (x : A) : hd x (rev l) = last l x.
Proof.
  induction l as [|a l IH]; auto.
  simpl rev. destruct l as [|b l]; auto.
  change (last (a :: b :: l) x) with (last (b :: l) x). rewrite <- IH.
  simpl. destruct (rev l); reflexivity.
Qed.

(** The text of an amount that is not negative starts with a digit and,
    counted from its last character, has a comma at every fourth place and
    digits elsewhere: the digits are in groups of three from the right. *)
Theorem amount_is_grouped_in_threes (n : Z) (t : str) :
  (0 <= n)%Z ->
  format_commas n = Ok t ->
  is_digit (hd ","%char t) = true
  /\ forall i, i < length t -> grouped_at (rev t) i.
Proof.
  intros Hn Hf. apply format_commas_ok in Hf as [Hl ->].
  destruct (Z.ltb_spec n 0) as [|_]; [lia|]. cbn [app].
  pose proof (str_of_N_digits (Z.abs_N n)) as Hd.
  pose proof (str_of_N_nonempty (Z.abs_N n)) as Hne.
  split.
  - rewrite hd_rev, commas_from_right_last, <- hd_rev, rev_involutive.
    destruct (str_of_N (Z.abs_N n)) as [|c s]; [congruence|].
    simpl in Hd |- *. now apply andb_true_iff in Hd as [Hc _].
  - intros i Hi. rewrite rev_involutive. rewrite length_rev in Hi.
    apply commas_from_right_grouped; auto.
    rewrite forallb_forall in *. intros c Hc. apply Hd.
    now apply in_rev.
Qed.

Lemma amount_is_grouped_in_threes_witness :
  format_commas 1234567 = Ok (s_ "1,234,567")
  /\ is_digit (hd ","%char (s_ "1,234,567")) = true
  /\ grouped_at (rev (s_ "1,234,567")) 3
  /\ grouped_at (rev (s_ "1,234,567")) 4.
Proof.
  assert (H : format_commas 1234567 = Ok (s_ "1,234,567"))
    by (vm_compute; reflexivity).
  destruct (amount_is_grouped_in_threes 1234567 _ ltac:(lia) H) as [H1 H2].
  split; [exact H|]. split; [exact H1|].
  split; apply H2; simpl; lia.
Defined.

(** ** The size of a sum of floats *)

Lemma Zdigits2_nonneg (m : Z) : (0 <= Zdigits2 m)%Z.
Proof. destruct m; simpl; lia. Qed.

Lemma shr_1_digits (mrs : shr_record) :
  Zdigits2 (shr_m (shr_1 mrs)) = Z.max 0 (Zdigits2 (shr_m mrs) - 1).
Proof.
  destruct mrs as [m r s].
  destruct m as [|[p|p|]|[p|p|]];
    cbn [shr_1 shr_m Zdigits2 digits2_pos]; lia.
Qed.

Lemma iter_shr_1_digits (p : positive) :
  forall mrs,
    Zdigits2 (shr_m (iter_pos shr_1 p mrs))
    = Z.max 0 (Zdigits2 (shr_m mrs) - Zpos p).
Proof.
  induction p as [p IH|p IH|]; intros mrs; simpl iter_pos.
  - rewrite !IH, shr_1_digits. lia.
  - rewrite !IH. lia.
  - apply shr_1_digits.
Qed.

Lemma shr_fexp_digits (m e : Z) (l : location) :
  (Zdigits2 (shr_m (fst (shr_fexp prec emax m e l))) <= prec)%Z.
Proof.
  unfold shr_fexp, shr, fexp.
  assert (H0 : shr_m (shr_record_of_loc m l) = m)
    by (destruct l as [|[]]; reflexivity).
  pose proof (Zdigits2_nonneg m) as Hm.
  destruct (Z.max (Zdigits2 m + e - prec) (emin prec emax) - e)%Z
    as [|p|p] eqn:E; cbn [fst]; rewrite ?iter_shr_1_digits, H0;
    unfold prec in *; lia.
Qed.

Lemma digits2_pos_bound (m : positive) :
  (Zpos m < 2 ^ Zpos (digits2_pos m))%Z.
Proof.
  induction m as [m IH|m IH|]; cbn [digits2_pos];
    rewrite ?Pos2Z.inj_succ, ?Z.pow_succ_r by lia; lia.
Qed.

Lemma binary_round_aux_in_range (s : bool) (m e : Z) (l : location) :
  in_range (binary_round_aux prec emax s m e l).
Proof.
  unfold binary_round_aux.
  destruct (shr_fexp prec emax m e l) as [mrs' e'].
  pose proof (shr_fexp_digits
                (round_nearest_even (shr_m mrs') (loc_of_shr_record mrs'))
                e' loc_Exact) as H.
  destruct (shr_fexp prec emax _ e' loc_Exact) as [mrs'' e'']. cbn [fst] in H.
  destruct (shr_m mrs'') as [|q|q]; cbn [in_range]; auto.
  destruct (Z.leb_spec e'' (emax - prec)) as [He|He]; cbn [in_range]; auto.
  split; [|exact He].
  simpl in H. pose proof (digits2_pos_bound q) as Hq.
  eapply Z.lt_le_trans; [exact Hq|].
  apply Z.pow_le_mono_r; lia.
Qed.

Lemma float_add_in_range (x y : float) :
  in_range x -> in_range y -> in_range (float_add x y).
Proof.
  unfold float_add, SFadd.
  destruct x as [sx|sx| |sx mx ex], y as [sy|sy| |sy my ey];
    simpl; auto; try (destruct sx, sy; simpl; auto; fail).
  intros _ _. unfold binary_normalize, binary_round.
  match goal with
  | |- in_range (match ?z with _ => _ end) => destruct z
  end; simpl; auto;
    match goal with
    | |- context [shl_align ?a ?b ?c] => destruct (shl_align a b c)
    end; apply binary_round_aux_in_range.
Qed.

Lemma float_sum_in_range (xs : list float) :
  Forall in_range xs -> in_range (float_sum xs).
Proof.
  unfold float_sum.
  assert (H : forall acc, in_range acc -> Forall in_range xs ->
                          in_range (fold_left float_add xs acc)).
  { induction xs as [|x xs IH]; intros acc Ha Hx; simpl; auto.
    inversion Hx; subst. apply IH; auto. now apply float_add_in_range. }
  apply H. exact I.
Qed.

Lemma float_of_decimal_in_range (ip fp : str) :
  in_range (float_of_decimal ip fp).
Proof.
  unfold float_of_decimal.
  destruct (Z_of_digits (ip ++ fp)) as [|m|m]; simpl; auto.
  destruct (10 ^ Z.of_nat (length fp))%Z as [|d|d] eqn:E; simpl; auto.
  destruct (SFdiv_core_binary prec emax (Z.pos m) 0 (Z.pos d) 0)
    as [[mz ez] lz].
  apply binary_round_aux_in_range.
Qed.

Lemma py_float_in_range (s : str) (x : float) :
  py_float s = Ok x -> in_range x.
Proof.
  unfold py_float. destruct (take_digits s) as [ip r].
  destruct r as [|c fp].
  - destruct (negb (length ip =? 0)); [|discriminate].
    intros H. inversion H. apply float_of_decimal_in_range.
  - destruct (_ && _); [|discriminate].
    intros H. inversion H. apply float_of_decimal_in_range.
Qed.

(** [int] of a float is below [2 ^ 1024] in absolute value. *)
Lemma int_of_float_bound (x : float) (z : Z) :
  in_range x -> int_of_float x = Ok z -> (Z.abs z < 2 ^ emax)%Z.
Proof.
  destruct x as [s|s| |s m e]; cbn [in_range int_of_float]; try discriminate.
  - intros _ H. inversion H. reflexivity.
  - intros [Hm He] H. inversion H. unfold prec, emax in *.
    assert (Hs : (0 <= Z.shiftl (Z.pos m) e < 2 ^ 1024)%Z).
    { destruct (Z.le_gt_cases 0 e) as [H0|H0].
      - rewrite Z.shiftl_mul_pow2 by lia. split; [lia|].
        apply Z.lt_le_trans with (2 ^ 53 * 2 ^ e)%Z.
        + apply Z.mul_lt_mono_pos_r; [apply Z.pow_pos_nonneg; lia|exact Hm].
        + rewrite <- Z.pow_add_r by lia.
          apply Z.pow_le_mono_r; lia.
      - rewrite Z.shiftl_div_pow2 by lia.
        assert (0 < 2 ^ (- e))%Z by (apply Z.pow_pos_nonneg; lia).
        split; [apply Z.div_pos; lia|].
        apply Z.le_lt_trans with (Z.pos m).
        + apply Z.div_le_upper_bound; [lia|]. nia.
        + eapply Z.lt_le_trans; [exact Hm|].
          apply Z.pow_le_mono_r; lia. }
    destruct s; cbn [cond_Zopp]; lia.
Qed.

(** ** The amounts of a document can be printed *)

Lemma is_digit_val (c : ascii) : is_digit c = true -> (digit_val c <= 9)%Z.
Proof.
  unfold is_digit, digit_val, code. intros H.
  apply andb_true_iff in H as [_ H]. apply Nat.leb_le in H. lia.
Qed.

Lemma digits_upper_bound (s : str) :
  forallb is_digit s = true ->
  forall acc,
    (fold_left (fun a c => (10 * a + digit_val c)%Z) s acc
     < (acc + 1) * 10 ^ Z.of_nat (length s))%Z.
Proof.
  induction s as [|c s IH]; intros Hd acc.
  - simpl. lia.
  - cbn [forallb] in Hd. apply andb_true_iff in Hd as [Hc Hd].
    cbn [fold_left length]. rewrite Nat2Z.inj_succ, Z.pow_succ_r by lia.
    apply is_digit_val in Hc.
    specialize (IH Hd (10 * acc + digit_val c)%Z).
    assert (0 < 10 ^ Z.of_nat (length s))%Z by (apply Z.pow_pos_nonneg; lia).
    nia.
Qed.

Lemma py_int_in_reach (s : str) (a : Z) :
  py_int s = Ok a -> (Z.abs a < 10 ^ Z.of_nat int_max_str_digits)%Z.
Proof.
  intros H. pose proof (py_int_nonneg s a H) as Hn.
  unfold py_int in H. destruct s as [|c s]; [discriminate|].
  destruct (forallb is_digit (c :: s)) eqn:Hd; [|discriminate].
  destruct (length (c :: s) <=? int_max_str_digits) eqn:Hl; [|discriminate].
  inversion H as [Ha]. rewrite Ha. rewrite Z.abs_eq by exact Hn.
  rewrite <- Ha. unfold Z_of_digits.
  eapply Z.lt_le_trans; [apply (digits_upper_bound _ Hd)|].
  rewrite Z.mul_1_l. apply Z.pow_le_mono_r; [lia|].
  apply Nat.leb_le in Hl. lia.
Qed.

Lemma kaggle_line_in_reach (n : nat) (line : str) (es : list Event) :
  kaggle_line n line = Ok es -> Forall amount_in_reach es.
Proof.
  unfold kaggle_line. destruct (strip line) as [|c0 t0].
  - intros H. inversion H. constructor.
  - destruct (re_match KAGGLE_PATTERN line) as [groups|].
    + intros H. apply bind_ok in H as [a [Ha H]]. inversion H; subst.
      constructor; [|constructor]. unfold amount_in_reach.
      cbn [amount_of details].
      now apply py_int_in_reach in Ha.
    + intros H. inversion H; subst. constructor; [|constructor]. exact I.
Qed.

Lemma kaggle_loop_in_reach (lines : list str) :
  forall n evs, kaggle_loop n lines = Ok evs -> Forall amount_in_reach evs.
Proof.
  induction lines as [|l lines IH]; intros n evs H; simpl in H.
  - inversion H. constructor.
  - apply bind_ok in H as [es [H1 H]]. apply bind_ok in H as [es' [H2 H]].
    inversion H; subst. apply Forall_app. split.
    + now apply kaggle_line_in_reach in H1.
    + now apply IH in H2.
Qed.

Lemma float_reach : (2 ^ emax <= 10 ^ Z.of_nat int_max_str_digits)%Z.
Proof.
  apply Z.le_trans with (10 ^ 309)%Z; [vm_compute; discriminate|].
  apply Z.pow_le_mono_r; [lia|]. unfold int_max_str_digits. lia.
Qed.

Lemma summarize_block_in_reach (typ : str) (txs : list Tx) (es : list Event) :
  Forall (fun t => in_range (tx_amount t)) txs ->
  summarize_block typ txs = Ok es -> Forall amount_in_reach es.
Proof.
  intros Hr H. destruct txs as [|t txs].
  - inversion H. constructor.
  - rewrite (summarize_block_nonempty typ (t :: txs)) in H by discriminate.
    apply bind_ok in H as [a [Ha H]]. inversion H; subst; clear H.
    constructor; [|constructor]. unfold amount_in_reach.
      cbn [amount_of details].
    eapply Z.lt_le_trans; [|apply float_reach].
    apply (int_of_float_bound _ _ (float_sum_in_range _ ltac:(apply Forall_map; exact Hr)) Ha).
Qed.

Lemma parse_tx_in_range (line : str) (t : Tx) :
  parse_tx line = Some t -> in_range (tx_amount t).
Proof.
  unfold parse_tx. destruct (re_match TX_PATTERN line) as [g|]; [|discriminate].
  destruct g as [|d [|a [|x0 g]]]; try discriminate.
  destruct (py_float a) as [x|] eqn:Hf; [|discriminate].
  destruct (convert_date d); [|discriminate].
  intros H. inversion H; subst. cbn [tx_amount].
  now apply py_float_in_range in Hf.
Qed.

Lemma parse_events_in_reach (lines : list str) (evs : list Event) :
  parse_events lines = Ok evs -> Forall amount_in_reach evs.
Proof.
  unfold parse_events. destruct (has_kaggle lines).
  - apply kaggle_loop_in_reach.
  - destruct (has_amlsim lines).
    + apply (parse_amlsim_inv amount_in_reach
               (fun t => in_range (tx_amount t)) (fun _ => True)); auto.
      * intros typ txs es _. apply summarize_block_in_reach.
      * apply parse_tx_in_range.
    + intros H. inversion H. unfold fallback_events.
      apply Forall_forall. intros e He.
      apply in_map_iff in He as [l [<- _]]. exact I.
Qed.

Lemma format_commas_in_reach (a : Z) :
  (Z.abs a < 10 ^ Z.of_nat int_max_str_digits)%Z ->
  exists t, format_commas a = Ok t.
Proof.
  intros H. unfold format_commas.
  assert (Hl : length (str_of_N (Z.abs_N a)) <= int_max_str_digits).
  { apply str_of_N_length; [|unfold int_max_str_digits; lia].
    now rewrite N2Z.inj_abs_N. }
  apply Nat.leb_le in Hl. rewrite Hl. eexists. reflexivity.
Qed.

(** ** The timeline of the report *)

Lemma sort_key_of_dated (e : Event) (date : str) :
  timestamp e = date ++ midnight -> sort_key e = date ++ midnight.
Proof.
  intros Ht. unfold sort_key.
  destruct (str_eqb (timestamp e) NA) eqn:E; [|exact Ht].
  apply str_eqb_eq in E. rewrite Ht in E.
  apply (f_equal (@length ascii)) in E. rewrite length_app in E.
  simpl in E. lia.
Qed.

Lemma firstn_date (date : str) :
  length date = 10 -> firstn 10 (date ++ midnight) = date.
Proof.
  intros Hl. rewrite firstn_app, Hl, Nat.sub_diag, firstn_O, app_nil_r.
  rewrite <- Hl. apply firstn_all.
Qed.

Lemma alert_row (e : Event) :
  event_ok e -> event_dated e -> amount_in_reach e -> is_alert e = true ->
  exists row, timeline_row e = Ok row /\ row_of e row.
Proof.
  unfold event_ok, event_dated, amount_in_reach, timeline_row, row_of,
    row_of_alert, amount_of, date_of, case_id_of, alert_type_of, is_alert.
  intros Hok Hd Hr Ha.
  destruct (details e) as [date cid ty a|date cid ty a n p|err].
  - destruct Hok as [_ Hn]. destruct Hd as [_ [Ht Hi]].
    destruct (format_commas_in_reach a Hr) as [t Hf].
    cbn [get_or]. rewrite Hf. cbn [bind]. eexists. split; [reflexivity|].
    rewrite (sort_key_of_dated e date Ht). rewrite Ht.
    split; [|reflexivity].
    exists date, cid, ty, a, t. repeat split; auto.
    + apply firstn_date. now apply iso_date_length.
    + now apply format_commas_read_back.
  - destruct Hok as [_ Hn]. destruct Hd as [_ [Ht Hi]].
    destruct (format_commas_in_reach a Hr) as [t Hf].
    cbn [get_or]. rewrite Hf. cbn [bind]. eexists. split; [reflexivity|].
    rewrite (sort_key_of_dated e date Ht). rewrite Ht.
    split; [|reflexivity].
    exists date, cid, ty, a, t. repeat split; auto.
    + intros Hl. now apply firstn_date.
    + now apply format_commas_read_back.
  - destruct Hd as [Hu _]. rewrite Hu in Ha. discriminate Ha.
Qed.

Lemma timeline_rows_of_alerts (es : list Event) :
  Forall alert_like es ->
  exists rows, timeline_rows es = Ok rows /\ Forall2 row_of es rows.
Proof.
  induction 1 as [|e es [Hok [Hd [Hr Ha]]] _ [rows [IH1 IH2]]].
  - exists []. split; [reflexivity|constructor].
  - destruct (alert_row e Hok Hd Hr Ha) as [row [H1 H2]].
    exists (row :: rows). cbn [timeline_rows]. rewrite H1, IH1.
    split; [reflexivity|]. constructor; auto.
Qed.

Lemma valid_events_alert_like (es : list Event) :
  Forall event_ok es -> Forall event_dated es -> Forall amount_in_reach es ->
  Forall alert_like (valid_events es).
Proof.
  intros H1 H2 H3. unfold valid_events. rewrite Forall_forall in *.
  intros e He. apply filter_In in He as [He Ha].
  repeat split; auto.
Qed.

Lemma chain_alert_like (raw : str) (d : Document) :
  extract_causal_chain raw = Ok d ->
  Forall alert_like (valid_events (causal_chain d)).
Proof.
  intros H. apply extract_ok in H as [evs [Hp [Hc _]]]. rewrite Hc.
  pose proof (sort_by_perm sort_key evs) as Hperm.
  apply valid_events_alert_like;
    apply (Permutation_Forall Hperm);
    [apply (parse_events_ok _ _ Hp)|apply (parse_events_dated _ _ Hp)
    |apply (parse_events_in_reach _ _ Hp)].
Qed.


Lemma timeline_data_rows (events : list Event) (table : list (list str)) :
  timeline_data events = Ok table ->
  exists rows, timeline_rows (valid_events events) = Ok rows
               /\ table = timeline_header :: rows.
Proof.
  unfold timeline_data. intros H. apply bind_ok in H as [rows [H1 H2]].
  inversion H2. now exists rows.
Qed.

Lemma timeline_rows_row_of (raw : str) (d : Document) :
  extract_causal_chain raw = Ok d ->
  exists rows,
    timeline_rows (valid_events (causal_chain d)) = Ok rows
    /\ Forall2 row_of (valid_events (causal_chain d)) rows.
Proof.
  intros H. apply timeline_rows_of_alerts. now apply (chain_alert_like raw).
Qed.



Lemma str_compare_app_same (a b s : str) :
  length a = length b ->
  str_compare (a ++ s) (b ++ s) = str_compare a b.
Proof.
  revert b. induction a as [|x a IH]; intros [|y b] Hl; try discriminate.
  - apply str_compare_refl.
  - cbn [app str_compare]. rewrite IH by (simpl in Hl; lia). reflexivity.
Qed.

(** The order of two strings is that of their first characters. *)
Lemma str_leb_firstn (k : nat) (a b : str) :
  str_leb a b = true -> str_leb (firstn k a) (firstn k b) = true.
Proof.
  unfold str_leb. revert a b.
  induction k as [|k IH]; intros a b H; [reflexivity|].
  destruct a as [|x a], b as [|y b]; try reflexivity; try discriminate H.
  cbn [firstn str_compare] in *.
  destruct (Nat.compare (code x) (code y)); auto.
Qed.

Lemma strongly_sorted_filter {A} (R : A -> A -> Prop) (f : A -> bool)
    (l : list A) :
  StronglySorted R l -> StronglySorted R (filter f l).
Proof.
  induction 1 as [|x l Hs IH Hx]; simpl; [constructor|].
  destruct (f x); auto. constructor; auto.
  rewrite Forall_forall in *. intros y Hy. apply Hx.
  now apply filter_In in Hy as [Hy _].
Qed.

Lemma strongly_sorted_forall2 {A B} (R : A -> B -> Prop)
    (P : A -> A -> Prop) (Q : B -> B -> Prop) :
  (forall x y x' y', R x x' -> R y y' -> P x y -> Q x' y') ->
  forall l l', Forall2 R l l' -> StronglySorted P l -> StronglySorted Q l'.
Proof.
  intros Hpq l l' H. induction H as [|x x' l l' Hx Hl IH]; intros Hs.
  - constructor.
  - inversion Hs as [|? ? Hs' Hall]; subst. constructor; auto.
    clear IH Hs Hs'. induction Hl as [|y y' l l' Hy Hl IH]; constructor.
    + inversion Hall; subst. now apply (Hpq x y).
    + inversion Hall; subst. now apply IH.
Qed.

(** The rows of the timeline table of a document of the core are in
    ascending order of their date column, compared as strings, whatever the
    order of the lines of the input.  The date column of a row is the first
    ten characters of the timestamp of its alert. *)
Theorem timeline_dates_ascend (raw : str) (d : Document)
    (table : list (list str)) :
  extract_causal_chain raw = Ok d ->
  timeline_data (causal_chain d) = Ok table ->
  map date_column (tl table)
  = map (fun e => firstn 10 (timestamp e)) (valid_events (causal_chain d))
  /\ Sorted (key_le date_column) (tl table).
Proof.
  intros H Ht. destruct (timeline_rows_row_of raw d H) as [rows [H1 H2]].
  apply timeline_data_rows in Ht as [rows' [H1' ->]].
  rewrite H1 in H1'. inversion H1'; subst rows'. cbn [tl]. split.
  - clear H1 H1'.
    induction H2 as [|e row es rows [Hr _] _ IH]; [reflexivity|].
    cbn [map]. rewrite IH. f_equal.
    destruct Hr as [date [c [a [x [t [_ [Hts [_ [_ [_ [_ [-> _]]]]]]]]]]]].
    now rewrite Hts.
  - apply StronglySorted_Sorted.
    apply (strongly_sorted_forall2 row_of (key_le sort_key)
             (key_le date_column)) with (l := valid_events (causal_chain d));
      auto.
    + intros x y x' y' [_ Hx] [_ Hy]. unfold key_le.
      rewrite Hx, Hy. apply str_leb_firstn.
    + apply strongly_sorted_filter.
      apply extract_ok in H as [evs [_ [-> _]]].
      apply sort_by_strongly_sorted.
Qed.

Lemma timeline_dates_ascend_witness :
  exists d table,
    extract_causal_chain unordered_text = Ok d
    /\ timeline_data (causal_chain d) = Ok table
    /\ map date_column (tl table) = [ s_ "2023-12-31"; s_ "2024-03-09" ]
    /\ Sorted (key_le date_column) (tl table).
Proof.
  eexists. eexists. split; [vm_compute; reflexivity|].
  split; [vm_compute; reflexivity|]. split; [reflexivity|].
  refine (proj2 (timeline_dates_ascend unordered_text _ _ _ _));
    vm_compute; reflexivity.
Defined.

(** ** The order of the chain, on a text whose dates are not in order *)

Lemma chain_sorted_by_key_witness :
  exists d evs,
    extract_causal_chain unordered_text = Ok d
    /\ map sort_key (causal_chain d)
       = [ s_ "2023-12-31 00:00:00"; s_ "2024-03-09 00:00:00";
           s_ "9999-99-99" ]
    /\ parse_events (input_lines unordered_text) = Ok evs
    /\ Permutation evs (causal_chain d)
    /\ Sorted (key_le sort_key) (causal_chain d)
    /\ forall k, filter (has_key sort_key k) (causal_chain d)
                 = filter (has_key sort_key k) evs.
Proof.
  assert (E : exists d, extract_causal_chain unordered_text = Ok d)
    by (eexists; vm_compute; reflexivity).
  destruct E as [d E].
  destruct (chain_sorted_by_key unordered_text d E) as [evs H].
  exists d, evs. split; [exact E|]. split; [|exact H].
  vm_compute in E. inversion E. reflexivity.
Defined.

(** * The serialisation of the document *)

Lemma str_of_N_fits (n : N) (k : nat) :
  1 <= k -> (length (str_of_N n) <=? k) = (Z.of_N n <? 10 ^ Z.of_nat k)%Z.
Proof.
  intros Hk. destruct (Z.ltb_spec (Z.of_N n) (10 ^ Z.of_nat k)) as [H|H].
  - apply Nat.leb_le. now apply str_of_N_length.
  - apply Nat.leb_gt.
    destruct (le_lt_dec (length (str_of_N n)) k) as [Hl|Hl]; [|exact Hl].
    exfalso.
    pose proof (digits_upper_bound _ (str_of_N_digits n) 0%Z) as Hu.
    fold (Z_of_digits (str_of_N n)) in Hu. rewrite value_of_str_of_N in Hu.
    assert (10 ^ Z.of_nat (length (str_of_N n)) <= 10 ^ Z.of_nat k)%Z
      by (apply Z.pow_le_mono_r; lia).
    lia.
Qed.

Lemma dumps_int_spec (n : Z) :
  dumps_int n = if (Z.abs n <? digits_limit)%Z then Ok tt
                else Raise ValueError.
Proof.
  unfold dumps_int, digits_limit.
  rewrite str_of_N_fits by (unfold int_max_str_digits; lia).
  now rewrite N2Z.inj_abs_N.
Qed.

Lemma dumps_events_in_reach (events : list Event) :
  Forall amount_in_reach events -> dumps_events events = Ok tt.
Proof.
  induction 1 as [|e es He _ IH]; [reflexivity|].
  cbn [dumps_events]. unfold amount_in_reach in He.
  destruct (amount_of e) as [a|].
  - rewrite dumps_int_spec. apply Z.ltb_lt in He. unfold digits_limit.
    rewrite He. exact IH.
  - exact IH.
Qed.

Lemma chain_in_reach (raw : str) (d : Document) :
  extract_causal_chain raw = Ok d -> Forall amount_in_reach (causal_chain d).
Proof.
  intros H. apply extract_ok in H as [evs [Hp [-> _]]].
  apply (Permutation_Forall (sort_by_perm sort_key evs)).
  apply (parse_events_in_reach _ _ Hp).
Qed.

Lemma total_not_negative (raw : str) (d : Document) :
  extract_causal_chain raw = Ok d -> (0 <= total_amount_at_risk (summary d))%Z.
Proof.
  intros H. destruct (extract_ok_summary _ _ H) as [_ [-> _]].
  apply extract_ok in H as [evs [Hp [Hc _]]].
  apply parse_events_ok in Hp.
  apply sum_amounts_bounds. rewrite Hc.
  rewrite Forall_forall in *. intros e He.
  apply filter_In in He as [He _]. apply Hp.
  apply (Permutation_in _ (Permutation_sym (sort_by_perm sort_key evs)) He).
Qed.

Lemma json_dumps_of_chain (raw : str) (d : Document) :
  extract_causal_chain raw = Ok d ->
  json_dumps d
  = if (total_amount_at_risk (summary d) <? digits_limit)%Z then Ok d
    else Raise ValueError.
Proof.
  intros H. unfold json_dumps.
  rewrite (dumps_events_in_reach _ (chain_in_reach _ _ H)). cbn [bind].
  rewrite dumps_int_spec, Z.abs_eq by apply (total_not_negative _ _ H).
  now destruct (_ <? _)%Z.
Qed.

(** The document that the parsers and the summary give is serialised,
    unless its total amount at risk has more than 4300 digits: then
    [json.dumps] raises a ValueError and [extract_causal_chain] returns
    nothing, although every amount of the chain can be written. *)
Theorem total_beyond_digit_limit (raw : str) (d : Document) :
  extract_causal_chain raw = Ok d ->
  dumps_events (causal_chain d) = Ok tt
  /\ extract_causal_chain_text raw
     = if (total_amount_at_risk (summary d) <? digits_limit)%Z then Ok d
       else Raise ValueError.
Proof.
  intros H. split.
  - apply dumps_events_in_reach, (chain_in_reach _ _ H).
  - unfold extract_causal_chain_text. rewrite H. cbn [bind].
    apply (json_dumps_of_chain _ _ H).
Qed.

Lemma total_beyond_digit_limit_witness :
  exists d,
    extract_causal_chain unordered_text = Ok d
    /\ total_amount_at_risk (summary d) = 1235547%Z
    /\ extract_causal_chain_text unordered_text = Ok d.
Proof.
  assert (E : exists d, extract_causal_chain unordered_text = Ok d)
    by (eexists; vm_compute; reflexivity).
  destruct E as [d E].
  destruct (total_beyond_digit_limit unordered_text d E) as [_ H].
  assert (Ht : total_amount_at_risk (summary d) = 1235547%Z)
    by (vm_compute in E; inversion E; reflexivity).
  exists d. split; [exact E|]. split; [exact Ht|].
  rewrite H, Ht. reflexivity.
Defined.

(** With no format detected the core always returns: the chain has one
    UNKNOWN event for each non-blank line, in the order of the input, with
    the error "Unsupported log format", and no alert and no amount are
    counted. *)
Theorem unknown_format_document (raw : str) :
  detect (input_lines raw) = UNKNOWN_FORMAT ->
  exists d,
    extract_causal_chain_text raw = Ok d
    /\ causal_chain d
       = map unsupported_event (filter nonblank (input_lines raw))
    /\ total_alerts (summary d) = 0
    /\ total_amount_at_risk (summary d) = 0%Z
    /\ unmatched_lines (summary d) = Z.of_nat (total_lines (summary d)).
Proof.
  intros H. destruct (unknown_format_chain raw H) as [d [Hd [Hc [Ha [Ht Hu]]]]].
  exists d. split; [|auto].
  unfold extract_causal_chain_text. rewrite Hd. cbn [bind].
  rewrite (json_dumps_of_chain _ _ Hd), Ht. reflexivity.
Qed.

Lemma unknown_format_document_witness :
  detect (input_lines no_format_text) = UNKNOWN_FORMAT
  /\ exists d,
       extract_causal_chain_text no_format_text = Ok d
       /\ map raw_log (causal_chain d)
          = [ s_ "first line"; s_ "  second line" ].
Proof.
  split; [vm_compute; reflexivity|].
  destruct (unknown_format_document no_format_text) as [d [H [Hc _]]];
    [vm_compute; reflexivity|].
  exists d. split; [exact H|]. rewrite Hc. vm_compute. reflexivity.
Defined.

(** In the tabular format the core raises a ValueError, and returns
    nothing, exactly in two cases: some non-blank line matches the pattern
    with an amount that has no digit (only commas) or more than 4300
    digits; or every amount is read and their total has more than 4300
    digits.  Otherwise the document is returned. *)
Theorem kaggle_value_error (raw : str) :
  detect (input_lines raw) = KAGGLE ->
  if existsb amount_unreadable (input_lines raw)
  then extract_causal_chain_text raw = Raise ValueError
  else exists d,
         extract_causal_chain raw = Ok d
         /\ extract_causal_chain_text raw
            = if (total_amount_at_risk (summary d) <? digits_limit)%Z
              then Ok d else Raise ValueError.
Proof.
  intros Hf. pose proof (kaggle_parse_value_error raw Hf) as H.
  destruct (existsb amount_unreadable (input_lines raw)).
  - unfold extract_causal_chain_text. now rewrite H.
  - destruct H as [d H]. exists d. split; [exact H|].
    unfold extract_causal_chain_text. rewrite H. cbn [bind].
    apply (json_dumps_of_chain _ _ H).
Qed.

Lemma kaggle_value_error_witness :
  detect (input_lines comma_amount_text) = KAGGLE
  /\ extract_causal_chain_text comma_amount_text = Raise ValueError.
Proof.
  split; [vm_compute; reflexivity|].
  apply (kaggle_value_error comma_amount_text). vm_compute. reflexivity.
Defined.

(** The core raises in three cases only: in the tabular format a
    ValueError, when the amount of a matching line cannot be read; in the
    AMLSIM format an OverflowError, when the total of a block is too large
    for a float and cannot be converted to an integer; and a ValueError when
    the document is built and its total amount at risk has more than 4300
    digits.  With no format detected it never raises. *)
Theorem exceptions_of_the_core (raw : str) (x : exn) :
  extract_causal_chain_text raw = Raise x ->
  (detect (input_lines raw) = KAGGLE /\ x = ValueError
   /\ existsb amount_unreadable (input_lines raw) = true)
  \/ (detect (input_lines raw) = AMLSIM /\ x = OverflowError)
  \/ (detect (input_lines raw) <> UNKNOWN_FORMAT /\ x = ValueError
      /\ exists d, extract_causal_chain raw = Ok d
                   /\ (digits_limit <= total_amount_at_risk (summary d))%Z).
Proof.
  unfold extract_causal_chain_text. intros H.
  destruct (extract_causal_chain raw) as [d|y] eqn:E.
  - right. right. cbn [bind] in H.
    rewrite (json_dumps_of_chain _ _ E) in H.
    destruct (Z.ltb_spec (total_amount_at_risk (summary d)) digits_limit)
      as [Hlt|Hge]; [discriminate H|].
    inversion H; subst x. split.
    + intros Hu. destruct (unknown_format_chain raw Hu) as [d' [Hd [_ [_ [Ht _]]]]].
      rewrite E in Hd. inversion Hd; subst d'. rewrite Ht in Hge.
      apply Z.le_ngt in Hge. apply Hge. unfold digits_limit.
      apply Z.pow_pos_nonneg; lia.
    + split; [reflexivity|]. exists d. split; [reflexivity|exact Hge].
  - cbn [bind] in H. inversion H; subst y.
    destruct (exceptions_of_the_parsers raw x E) as [H1|H1]; auto.
Qed.

Lemma exceptions_of_the_core_witness :
  extract_causal_chain_text huge_amount_text = Raise OverflowError
  /\ detect (input_lines huge_amount_text) = AMLSIM.
Proof.
  assert (H : extract_causal_chain_text huge_amount_text = Raise OverflowError)
    by (vm_compute; reflexivity).
  split; [exact H|].
  destruct (exceptions_of_the_core huge_amount_text OverflowError H)
    as [[_ [E _]]|[[E _]|[_ [E _]]]];
    [discriminate E|exact E|discriminate E].
Defined.

(** * The report: the risk table *)

(** ** Counter and most_common *)

Lemma str_eqb_refl (a : str) : str_eqb a a = true.
Proof. unfold str_eqb. now rewrite str_compare_refl. Qed.

Lemma str_eqb_neq (a b : str) : a <> b -> str_eqb a b = false.
Proof.
  intros H. destruct (str_eqb a b) eqn:E; auto.
  now apply str_eqb_eq in E.
Qed.

Lemma count_one_keys (x : str) (c : list (str * nat)) :
  map fst (count_one x c)
  = if in_dec str_eq_dec x (map fst c) then map fst c else map fst c ++ [x].
Proof.
  induction c as [|[y n] c IH]; [reflexivity|].
  cbn [count_one map fst].
  destruct (str_eq_dec y x) as [->|Hne].
  - rewrite str_eqb_refl.
    destruct (in_dec str_eq_dec x (x :: map fst c)) as [_|Hn];
      [reflexivity|]. exfalso. apply Hn. now left.
  - rewrite (str_eqb_neq _ _ Hne). cbn [map fst]. rewrite IH.
    destruct (in_dec str_eq_dec x (map fst c)) as [Hi|Hi];
      destruct (in_dec str_eq_dec x (y :: map fst c)) as [Hj|Hj];
      try reflexivity.
    + exfalso. apply Hj. now right.
    + destruct Hj as [Hj|Hj]; [congruence|contradiction].
Qed.

Lemma count_one_count (x k : str) (c : list (str * nat)) :
  count_of k (count_one x c)
  = count_of k c + (if str_eq_dec x k then 1 else 0).
Proof.
  induction c as [|[y n] c IH]; cbn [count_one count_of].
  - destruct (str_eq_dec x k) as [->|Hne].
    + now rewrite str_eqb_refl.
    + now rewrite (str_eqb_neq _ _ Hne).
  - destruct (str_eq_dec y x) as [->|Hyx].
    + rewrite str_eqb_refl. cbn [count_of].
      destruct (str_eq_dec x k) as [->|Hne].
      * rewrite str_eqb_refl. lia.
      * rewrite (str_eqb_neq _ _ Hne). lia.
    + rewrite (str_eqb_neq _ _ Hyx). cbn [count_of].
      destruct (str_eq_dec y k) as [->|Hyk].
      * rewrite str_eqb_refl.
        destruct (str_eq_dec x k) as [E|_]; [congruence|lia].
      * rewrite (str_eqb_neq _ _ Hyk). exact IH.
Qed.

Lemma count_one_positive (x : str) (c : list (str * nat)) :
  Forall (fun p => 1 <= snd p) c ->
  Forall (fun p => 1 <= snd p) (count_one x c).
Proof.
  induction 1 as [|[y n] c Hy Hc IH]; cbn [count_one].
  - constructor; [simpl; lia|constructor].
  - destruct (str_eqb y x); constructor; auto; simpl in *; lia.
Qed.

Lemma count_one_sum (x : str) (c : list (str * nat)) :
  list_sum (map snd (count_one x c)) = S (list_sum (map snd c)).
Proof.
  induction c as [|[y n] c IH]; cbn [count_one]; [reflexivity|].
  destruct (str_eqb y x).
  - simpl. lia.
  - change (n + list_sum (map snd (count_one x c))
            = S (n + list_sum (map snd c))).
    rewrite IH. lia.
Qed.

Lemma count_of_in (k : str) (n : nat) (c : list (str * nat)) :
  NoDup (map fst c) -> In (k, n) c -> count_of k c = n.
Proof.
  induction c as [|[y m] c IH]; intros Hn Hin; [destruct Hin|].
  cbn [map fst] in Hn. inversion Hn as [|? ? Hy Hc]; subst.
  cbn [count_of]. destruct Hin as [E|Hin].
  - inversion E; subst. now rewrite str_eqb_refl.
  - destruct (str_eq_dec y k) as [->|Hne].
    + exfalso. apply Hy. apply in_map_iff. now exists (k, n).
    + rewrite (str_eqb_neq _ _ Hne). now apply IH.
Qed.

Lemma count_of_key (k : str) (c : list (str * nat)) :
  count_of k c <> 0 -> In k (map fst c).
Proof.
  induction c as [|[y m] c IH]; cbn [count_of map fst]; [congruence|].
  destruct (str_eqb y k) eqn:E.
  - intros _. left. now apply str_eqb_eq.
  - intros H. right. now apply IH.
Qed.

Lemma counter_step (c : list (str * nat)) (l : list str) (x : str) :
  counter_inv c l -> counter_inv (count_one x c) (l ++ [x]).
Proof.
  intros [Hn [Hc [Hp Hs]]]. repeat split.
  - rewrite count_one_keys.
    destruct (in_dec str_eq_dec x (map fst c)) as [Hi|Hi]; auto.
    apply NoDup_app;
      [exact Hn|constructor; [intros []|constructor]
      |intros a Ha [<-|[]]; contradiction].
  - intros k. rewrite count_one_count, Hc, count_occ_app. reflexivity.
  - now apply count_one_positive.
  - rewrite count_one_sum, Hs, length_app. simpl. lia.
Qed.

Lemma counter_fold (l : list str) :
  forall c l0, counter_inv c l0 ->
    counter_inv (fold_left (fun counts x => count_one x counts) l c)
      (l0 ++ l).
Proof.
  induction l as [|x l IH]; intros c l0 H; cbn [fold_left].
  - now rewrite app_nil_r.
  - replace (l0 ++ x :: l) with ((l0 ++ [x]) ++ l)
      by (now rewrite <- app_assoc).
    apply IH. now apply counter_step.
Qed.

Lemma Counter_counts (l : list str) : counts_of (Counter l) l.
Proof.
  destruct (counter_fold l [] []) as [Hn [Hc [Hp Hs]]].
  { repeat split; auto; constructor. }
  cbn [app] in *. fold (Counter l) in *.
  repeat split; auto.
  - rewrite <- Hc. symmetry. now apply count_of_in.
  - rewrite Forall_forall in Hp. apply (Hp (k, n) H).
  - intros k Hk. apply count_of_key. rewrite Hc.
    apply (count_occ_In str_eq_dec) in Hk. lia.
Qed.

Lemma insert_count_perm (x : str * nat) (l : list (str * nat)) :
  Permutation (x :: l) (insert_count x l).
Proof.
  induction l as [|y l IH]; cbn [insert_count]; auto.
  destruct (snd y <=? snd x); auto.
  rewrite perm_swap. now constructor.
Qed.

Lemma most_common_perm (c : list (str * nat)) :
  Permutation c (most_common c).
Proof.
  induction c as [|x c IH]; cbn [most_common fold_right]; auto.
  rewrite <- insert_count_perm. now constructor.
Qed.

Lemma insert_count_sorted (x : str * nat) (l : list (str * nat)) :
  Sorted count_ge l -> Sorted count_ge (insert_count x l).
Proof.
  induction l as [|y l IH]; intros H; cbn [insert_count].
  - repeat constructor.
  - destruct (Nat.leb_spec (snd y) (snd x)) as [Hxy|Hxy].
    + constructor; auto.
    + inversion H as [|? ? Hs Hh]; subst. constructor; auto.
      destruct l as [|z l]; cbn [insert_count].
      * constructor. unfold count_ge. lia.
      * destruct (Nat.leb_spec (snd z) (snd x)).
        -- constructor. unfold count_ge. lia.
        -- inversion Hh; subst. now constructor.
Qed.

Lemma most_common_sorted (c : list (str * nat)) :
  Sorted count_ge (most_common c).
Proof.
  induction c as [|x c IH]; cbn [most_common fold_right]; [constructor|].
  now apply insert_count_sorted.
Qed.

Lemma most_common_counts (l : list str) :
  counts_of (most_common (Counter l)) l.
Proof.
  destruct (Counter_counts l) as [Hn [Hc [Hk Hs]]].
  pose proof (most_common_perm (Counter l)) as Hp.
  repeat split.
  - apply (Permutation_NoDup (Permutation_map fst Hp) Hn).
  - apply (Hc k n). apply (Permutation_in _ (Permutation_sym Hp) H).
  - apply (Hc k n). apply (Permutation_in _ (Permutation_sym Hp) H).
  - intros k Hl. apply (Permutation_in _ (Permutation_map fst Hp)). auto.
  - rewrite <- Hs. apply Permutation_sym in Hp.
    apply (Permutation_map snd) in Hp.
    clear - Hp. induction Hp; simpl; lia.
Qed.

(** ** The rows *)

Lemma and_then_done {A B} (r : outcome A) (f : A -> outcome B) (b : B) :
  and_then r f = Done b -> exists a, r = Done a /\ f a = Done b.
Proof. destruct r; simpl; [eauto|discriminate]. Qed.

Lemma lift_done {A} (r : result A) (a : A) : lift r = Done a -> r = Ok a.
Proof. destruct r; simpl; congruence. Qed.

Lemma for_each_done {A B} (f : A -> outcome B) (l : list A) :
  forall bs, for_each f l = Done bs -> Forall2 (fun a b => f a = Done b) l bs.
Proof.
  induction l as [|a l IH]; intros bs H; cbn [for_each] in H.
  - inversion H. constructor.
  - apply and_then_done in H as [b [Hb H]].
    apply and_then_done in H as [bs' [Hbs H]]. inversion H; subst.
    constructor; auto.
Qed.

Lemma for_each_map {A B} (f : A -> outcome B) (g : A -> B) (l : list A) :
  Forall (fun a => f a = Done (g a)) l -> for_each f l = Done (map g l).
Proof.
  induction 1 as [|a l Ha _ IH]; cbn [for_each map]; auto.
  now rewrite Ha, IH.
Qed.

Lemma alert_like_fields (e : Event) :
  alert_like e ->
  exists a amount,
    alert_type_of e = Some a /\ amount_of e = Some amount
    /\ (0 <= amount < digits_limit)%Z.
Proof.
  unfold alert_like, event_ok, event_dated, amount_in_reach, alert_type_of,
    amount_of, is_alert, digits_limit.
  intros [Hok [Hd [Hr Ha]]].
  destruct (details e) as [date cid ty a|date cid ty a n p|err].
  - exists ty, a. repeat split; auto; lia.
  - exists ty, a. repeat split; auto; lia.
  - destruct Hd as [Hu _]. rewrite Hu in Ha. discriminate Ha.
Qed.

Lemma alert_types_of_valid (es : list Event) :
  Forall alert_like es -> for_each alert_type_item es = Done (types_of es).
Proof.
  intros H. unfold types_of. apply for_each_map.
  eapply Forall_impl; [|exact H]. intros e He.
  destruct (alert_like_fields e He) as [a [amount [Ha _]]].
  unfold alert_type_item. now rewrite Ha.
Qed.

Lemma sample_event_first (atype : str) (valid : list Event) (e : Event) :
  sample_event atype valid = Done e -> first_of_type atype valid e.
Proof.
  induction valid as [|x valid IH]; cbn [sample_event]; [discriminate|].
  intros H. apply and_then_done in H as [a [Ha H]].
  unfold alert_type_item in Ha.
  destruct (alert_type_of x) as [a'|] eqn:Hx; [|discriminate].
  inversion Ha; subst a'.
  destruct (str_eqb a atype) eqn:E.
  - apply str_eqb_eq in E. inversion H; subst.
    exists [], valid. repeat split; auto.
  - destruct (IH H) as [before [after [-> [He Hb]]]].
    exists (x :: before), after. repeat split; auto.
    constructor; auto. rewrite Hx. intros Heq. inversion Heq; subst.
    now rewrite str_eqb_refl in E.
Qed.

Lemma risk_row_done (valid : list Event) (total : nat) (item : str * nat)
    (row : list cell) :
  risk_row valid total item = Done row -> risk_row_of valid item row.
Proof.
  unfold risk_row, risk_row_of. destruct item as [atype count]. intros H.
  apply and_then_done in H as [e [He H]].
  apply and_then_done in H as [amt [Ha H]].
  apply and_then_done in H as [q [_ H]].
  apply and_then_done in H as [per_alert [Hp H]].
  apply and_then_done in H as [tot [Ht H]].
  apply lift_done in Hp, Ht. inversion H.
  unfold amount_item in Ha. destruct (amount_of e) as [a|] eqn:Hae;
    [|discriminate]. inversion Ha; subst a.
  exists e, amt. do 3 eexists. split; [now apply sample_event_first|].
  cbn [fst snd]. repeat split; eauto.
Qed.

Lemma risk_table_done (d : Document) (table : list (list cell)) :
  risk_table d = Done (Some table) ->
  exists alert_types rows total,
    for_each alert_type_item (valid_events (causal_chain d))
    = Done alert_types
    /\ for_each (risk_row (valid_events (causal_chain d))
                   (total_alerts (summary d)))
         (most_common (Counter alert_types)) = Done rows
    /\ format_commas (total_amount_at_risk (summary d)) = Ok total
    /\ table = risk_header :: rows
               ++ [ [ Text (s_ "TOTAL");
                      Number (Z.of_nat (total_alerts (summary d)));
                      Text (s_ "100%"); Text [];
                      Text (s_ "$" ++ total) ] ].
Proof.
  unfold risk_table. destruct (0 <? total_alerts (summary d)); [|discriminate].
  intros H. apply and_then_done in H as [types [Ht H]].
  apply and_then_done in H as [rows [Hr H]].
  apply and_then_done in H as [total [Hf H]].
  apply lift_done in Hf. inversion H. exists types, rows, total. auto.
Qed.

(** The risk table of a document of the core has, between its header and
    its row of totals, one row for each alert type of the chain: the type,
    the number of alerts of that type, and the amount of the first alert of
    the type, alone and times that number.  No type has two rows, the rows
    with the larger counts come first, and the counts add up to the count of
    the row of totals, [total_alerts]. *)
Theorem risk_table_counts (raw : str) (d : Document)
    (table : list (list cell)) :
  extract_causal_chain raw = Ok d ->
  risk_table d = Done (Some table) ->
  exists items rows total_row,
    table = risk_header :: rows ++ [total_row]
    /\ Forall2 (risk_row_of (valid_events (causal_chain d))) items rows
    /\ counts_of items (types_of (valid_events (causal_chain d)))
    /\ Sorted count_ge items
    /\ list_sum (map snd items) = total_alerts (summary d)
    /\ nth 1 total_row (Text [])
       = Number (Z.of_nat (total_alerts (summary d))).
Proof.
  intros Hd Ht.
  destruct (risk_table_done d table Ht) as [types [rows [total [H1 [H2 [H3 ->]]]]]].
  rewrite (alert_types_of_valid _ (chain_alert_like raw d Hd)) in H1.
  inversion H1; subst types.
  eexists. exists rows. eexists. split; [reflexivity|].
  split; [|split; [apply most_common_counts|split;
            [apply most_common_sorted|split; [|reflexivity]]]].
  - apply for_each_done in H2.
    eapply Forall2_impl; [|exact H2]. intros item row. apply risk_row_done.
  - destruct (most_common_counts
                (types_of (valid_events (causal_chain d))))
      as [_ [_ [_ ->]]].
    unfold types_of. rewrite length_map.
    now destruct (extract_ok_summary _ _ Hd) as [-> _].
Qed.

Lemma risk_table_counts_witness :
  exists d table,
    extract_causal_chain mixed_text = Ok d
    /\ risk_table d = Done (Some table)
    /\ map (firstn 3) table
       = [ [ Text (s_ "Alert Type"); Text (s_ "Count"); Text (s_ "%") ];
           [ Text (s_ "Smurfing"); Number 2; Text (s_ "66.7%") ];
           [ Text (s_ "Layering"); Number 1; Text (s_ "33.3%") ];
           [ Text (s_ "TOTAL"); Number 3; Text (s_ "100%") ] ]
    /\ exists items rows total_row,
         table = risk_header :: rows ++ [total_row]
         /\ Forall2 (risk_row_of (valid_events (causal_chain d))) items rows
         /\ counts_of items (types_of (valid_events (causal_chain d)))
         /\ Sorted count_ge items
         /\ list_sum (map snd items) = total_alerts (summary d)
         /\ nth 1 total_row (Text [])
            = Number (Z.of_nat (total_alerts (summary d))).
Proof.
  eexists. eexists. split; [vm_compute; reflexivity|].
  split; [vm_compute; reflexivity|]. split; [reflexivity|].
  refine (risk_table_counts mixed_text _ _ _ _); vm_compute; reflexivity.
Defined.

(** ** A quotient that is at most one is a float *)

Lemma digits2_pos_lower (m : positive) :
  (2 ^ (Zpos (digits2_pos m) - 1) <= Zpos m)%Z.
Proof.
  induction m as [m IH|m IH|]; cbn [digits2_pos];
    rewrite ?Pos2Z.inj_succ;
    try (replace (Z.succ (Z.pos (digits2_pos m)) - 1)%Z
           with (Z.succ (Z.pos (digits2_pos m) - 1))%Z by lia;
         rewrite Z.pow_succ_r by lia; lia).
  reflexivity.
Qed.

Lemma Zdigits2_le (x k : Z) :
  (0 <= x < 2 ^ k)%Z -> (0 <= k)%Z -> (Zdigits2 x <= k)%Z.
Proof.
  intros [H0 Hx] Hk. destruct x as [|p|p]; cbn [Zdigits2]; try lia.
  pose proof (digits2_pos_lower p) as Hl.
  destruct (Z.le_gt_cases (Z.pos (digits2_pos p)) k) as [|Hgt]; auto.
  exfalso.
  assert (2 ^ k <= 2 ^ (Z.pos (digits2_pos p) - 1))%Z
    by (apply Z.pow_le_mono_r; lia).
  lia.
Qed.

Lemma Zdigits2_bound (x : Z) : (0 <= x)%Z -> (x < 2 ^ Zdigits2 x)%Z.
Proof.
  destruct x as [|p|p]; cbn [Zdigits2]; try lia.
  intros _. apply digits2_pos_bound.
Qed.

Lemma Zdigits2_succ (x : Z) :
  (0 <= x)%Z -> (Zdigits2 (x + 1) <= Zdigits2 x + 1)%Z.
Proof.
  intros H. pose proof (Zdigits2_bound x H) as Hb.
  pose proof (Zdigits2_nonneg x) as Hn.
  apply Zdigits2_le; [|lia]. rewrite Z.pow_add_r by lia. lia.
Qed.

Lemma round_nearest_even_digits (m : Z) (l : location) :
  (0 <= m)%Z ->
  (Zdigits2 (round_nearest_even m l) <= Zdigits2 m + 1)%Z.
Proof.
  intros H. pose proof (Zdigits2_succ m H).
  unfold round_nearest_even.
  destruct l as [|[]]; try destruct (Z.even m); lia.
Qed.

Lemma shr_fexp_exponent (m e : Z) (l : location) :
  snd (shr_fexp prec emax m e l)
  = Z.max e (fexp prec emax (Zdigits2 m + e)).
Proof.
  unfold shr_fexp, shr.
  destruct (fexp prec emax (Zdigits2 m + e) - e)%Z as [|p|p] eqn:E;
    cbn [snd]; lia.
Qed.

Lemma shr_fexp_magnitude (m e : Z) (l : location) :
  (Zdigits2 (shr_m (fst (shr_fexp prec emax m e l)))
   + snd (shr_fexp prec emax m e l)
   <= Z.max (Zdigits2 m + e) (fexp prec emax (Zdigits2 m + e)))%Z.
Proof.
  unfold shr_fexp, shr.
  assert (H0 : shr_m (shr_record_of_loc m l) = m)
    by (destruct l as [|[]]; reflexivity).
  destruct (fexp prec emax (Zdigits2 m + e) - e)%Z as [|p|p] eqn:E;
    cbn [fst snd]; rewrite ?iter_shr_1_digits, H0; lia.
Qed.

Lemma fexp_small (x : Z) : (x <= 2)%Z -> (fexp prec emax x <= -51)%Z.
Proof. unfold fexp, emin, prec, emax. lia. Qed.

Lemma binary_round_aux_small (s : bool) (m e : Z) (l : location) :
  (0 <= m)%Z -> (Zdigits2 m + e <= 1)%Z -> (e <= 0)%Z ->
  forall s', binary_round_aux prec emax s m e l <> S754_infinity s'.
Proof.
  intros Hm Hd He s'. unfold binary_round_aux.
  pose proof (shr_fexp_exponent m e l) as E1.
  pose proof (shr_fexp_magnitude m e l) as M1.
  pose proof (shr_fexp_nonneg m e l Hm) as N1.
  destruct (shr_fexp prec emax m e l) as [mrs' e']. cbn [fst snd] in *.
  set (m1 := round_nearest_even (shr_m mrs') (loc_of_shr_record mrs')).
  pose proof (round_nearest_even_digits (shr_m mrs')
                (loc_of_shr_record mrs') N1) as D1. fold m1 in D1.
  pose proof (shr_fexp_exponent m1 e' loc_Exact) as E2.
  destruct (shr_fexp prec emax m1 e' loc_Exact) as [mrs'' e''].
  cbn [snd] in E2.
  pose proof (fexp_small (Zdigits2 m + e) ltac:(lia)) as F1.
  pose proof (fexp_small (Zdigits2 m1 + e') ltac:(lia)) as F2.
  destruct (shr_m mrs'') as [|q|q]; try discriminate.
  destruct (Z.leb_spec e'' (emax - prec)) as [|Hgt]; [discriminate|].
  exfalso. unfold emax, prec in Hgt. lia.
Qed.

Lemma div_core_small (m d : positive) :
  (Zpos m <= Zpos d)%Z ->
  let '(q, e, l) := SFdiv_core_binary prec emax (Zpos m) 0 (Zpos d) 0 in
  (0 <= q)%Z /\ (Zdigits2 q + e <= 1)%Z /\ (e <= 0)%Z.
Proof.
  intros Hmd. unfold SFdiv_core_binary.
  set (e' := Z.min (fexp prec emax (Zdigits2 (Z.pos m) + 0
                                    - (Zdigits2 (Z.pos d) + 0))) (0 - 0)).
  assert (He : (e' <= 0)%Z) by (unfold e'; lia).
  set (m' := match (0 - 0 - e')%Z with
             | Z0 => Z.pos m
             | Z.pos _ => Z.shiftl (Z.pos m) (0 - 0 - e')
             | Z.neg _ => 0%Z
             end).
  assert (Hm' : m' = (Z.pos m * 2 ^ (- e'))%Z).
  { unfold m'. destruct (0 - 0 - e')%Z as [|p|p] eqn:E; try lia.
    - replace (- e')%Z with 0%Z by lia. simpl. lia.
    - rewrite Z.shiftl_mul_pow2 by lia. f_equal. f_equal. lia. }
  pose proof (Z.div_eucl_eq m' (Z.pos d) ltac:(lia)) as Hdiv.
  pose proof (Z.mod_pos_bound m' (Z.pos d) ltac:(lia)) as Hmod.
  unfold Z.modulo in Hmod.
  destruct (Z.div_eucl m' (Z.pos d)) as [q r].
  assert (Hp : (0 < 2 ^ (- e'))%Z) by (apply Z.pow_pos_nonneg; lia).
  assert (Hq0 : (0 <= q)%Z) by nia.
  assert (Hq : (q <= 2 ^ (- e'))%Z) by nia.
  split; [exact Hq0|]. split; [|exact He].
  assert (Zdigits2 q <= - e' + 1)%Z; [|lia].
  apply Zdigits2_le; [|lia]. rewrite Z.pow_add_r by lia. lia.
Qed.

Lemma true_div_small (c t : nat) :
  0 < t -> c <= t -> exists q, true_div c t = Done q.
Proof.
  intros Ht Hc. unfold true_div.
  destruct (Z.of_nat t) as [|d|d] eqn:Et; try lia.
  destruct (Z.of_nat c) as [|m|m] eqn:Ec; try lia; [eauto|].
  unfold SFdiv.
  pose proof (div_core_small m d ltac:(lia)) as H.
  destruct (SFdiv_core_binary prec emax (Z.pos m) 0 (Z.pos d) 0)
    as [[q e] l]. destruct H as [H0 [H1 H2]]. cbn [xorb].
  pose proof (binary_round_aux_small false q e l H0 H1 H2) as Hn.
  destruct (binary_round_aux prec emax false q e l) as [s|s| |s x y];
    eauto.
  exfalso. now apply (Hn s).
Qed.

(** ** The outcome of the risk table *)

Lemma for_each_fail {A B} (f : A -> outcome B) (l : list A) (x : report_exn) :
  for_each f l = Fail x -> exists a, In a l /\ f a = Fail x.
Proof.
  induction l as [|a l IH]; cbn [for_each]; [discriminate|].
  destruct (f a) as [b|y] eqn:E; cbn [and_then].
  - destruct (for_each f l) as [bs|y]; cbn [and_then]; [discriminate|].
    intros H. destruct (IH H) as [a' [Hin Ha]]. exists a'. split; auto.
    now right.
  - intros H. exists a. split; [now left|congruence].
Qed.

Lemma sample_event_found (atype : str) (valid : list Event) :
  Forall alert_like valid -> In atype (types_of valid) ->
  exists e, sample_event atype valid = Done e /\ In e valid.
Proof.
  induction 1 as [|x valid Hx _ IH]; cbn [types_of map sample_event];
    [intros []|].
  destruct (alert_like_fields x Hx) as [a [amount [Ha _]]].
  unfold alert_type_item. rewrite Ha. cbn [get_or and_then].
  destruct (str_eqb a atype) eqn:E.
  - intros _. exists x. split; [reflexivity|now left].
  - intros [Heq|Hin].
    + subst a. now rewrite str_eqb_refl in E.
    + destruct (IH Hin) as [e [He Hi]]. exists e. split; auto. now right.
Qed.

Lemma format_commas_cases (n : Z) :
  ((Z.abs n < digits_limit)%Z /\ exists t, format_commas n = Ok t)
  \/ ((digits_limit <= Z.abs n)%Z /\ format_commas n = Raise ValueError).
Proof.
  unfold format_commas, digits_limit.
  rewrite str_of_N_fits by (unfold int_max_str_digits; lia).
  rewrite N2Z.inj_abs_N.
  destruct (Z.ltb_spec (Z.abs n) (10 ^ Z.of_nat int_max_str_digits)) as [H|H].
  - left. split; [exact H|]. eexists. reflexivity.
  - right. split; [exact H|reflexivity].
Qed.

Lemma risk_row_outcome (valid : list Event) (total : nat) (item : str * nat) :
  Forall alert_like valid -> In (fst item) (types_of valid) ->
  0 < total -> snd item <= total ->
  (exists row, risk_row valid total item = Done row)
  \/ (risk_row valid total item = Fail (Builtin ValueError)
      /\ exists e amt,
           first_of_type (fst item) valid e
           /\ amount_of e = Some amt
           /\ (digits_limit <= amt * Z.of_nat (snd item))%Z).
Proof.
  intros Hv Hin Ht Hc. destruct item as [atype count]. cbn [fst snd] in *.
  unfold risk_row.
  destruct (sample_event_found atype valid Hv Hin) as [e [He Hie]].
  rewrite He. cbn [and_then].
  rewrite Forall_forall in Hv.
  destruct (alert_like_fields e (Hv e Hie)) as [a [amt [_ [Ha [H0 Hlt]]]]].
  unfold amount_item. rewrite Ha. cbn [and_then].
  destruct (true_div_small count total Ht Hc) as [q ->]. cbn [and_then].
  destruct (format_commas_cases amt) as [[_ [t1 ->]]|[Hge _]]; [|lia].
  cbn [lift and_then].
  destruct (format_commas_cases (amt * Z.of_nat count))
    as [[_ [t2 ->]]|[Hge ->]]; cbn [lift and_then].
  - left. eexists. reflexivity.
  - right. split; [reflexivity|]. exists e, amt.
    split; [now apply sample_event_first|]. split; [exact Ha|]. lia.
Qed.

Lemma text_returned (raw : str) (d : Document) :
  extract_causal_chain_text raw = Ok d ->
  extract_causal_chain raw = Ok d
  /\ (0 <= total_amount_at_risk (summary d) < digits_limit)%Z.
Proof.
  unfold extract_causal_chain_text. intros H.
  apply bind_ok in H as [d' [Hd H]].
  pose proof (total_not_negative _ _ Hd) as H0.
  rewrite (json_dumps_of_chain _ _ Hd) in H.
  destruct (Z.ltb_spec (total_amount_at_risk (summary d')) digits_limit)
    as [Hlt|]; [|discriminate].
  inversion H; subst d'. auto.
Qed.

(** For a document that the core returned, the risk table is left out
    exactly when there is no alert; otherwise its rows are built, unless
    the amount of the first alert of some type times the number of alerts
    of that type has more than 4300 digits: then a ValueError is raised.
    No key is missing, no division fails. *)
Theorem risk_table_outcome (raw : str) (d : Document) :
  extract_causal_chain_text raw = Ok d ->
  match risk_table d with
  | Done None => total_alerts (summary d) = 0
  | Done (Some table) => 0 < total_alerts (summary d)
  | Fail x =>
      x = Builtin ValueError
      /\ exists atype e amt,
           first_of_type atype (valid_events (causal_chain d)) e
           /\ amount_of e = Some amt
           /\ (digits_limit
               <= amt * Z.of_nat
                          (count_occ str_eq_dec
                             (types_of (valid_events (causal_chain d)))
                             atype))%Z
  end.
Proof.
  intros H. apply text_returned in H as [Hd [H0 Hlt]].
  pose proof (chain_alert_like raw d Hd) as Hv.
  unfold risk_table.
  destruct (Nat.ltb_spec 0 (total_alerts (summary d))) as [Ht|Ht]; [|lia].
  rewrite (alert_types_of_valid _ Hv). cbn [and_then].
  set (valid := valid_events (causal_chain d)) in *.
  destruct (most_common_counts (types_of valid)) as [_ [Hc [_ _]]].
  destruct (for_each (risk_row valid (total_alerts (summary d)))
              (most_common (Counter (types_of valid)))) as [rows|x] eqn:E;
    cbn [and_then].
  - destruct (format_commas_cases (total_amount_at_risk (summary d)))
      as [[_ [t ->]]|[Hge _]]; [exact Ht|lia].
  - apply for_each_fail in E as [[atype count] [Hin Hf]].
    destruct (Hc atype count Hin) as [Hcount H1].
    assert (Hty : In atype (types_of valid)).
    { apply (count_occ_In str_eq_dec). lia. }
    assert (Hle : count <= total_alerts (summary d)).
    { destruct (extract_ok_summary _ _ Hd) as [-> _].
      fold (valid_events (causal_chain d)). fold valid.
      rewrite Hcount, <- (length_map (fun e => get_or NA (alert_type_of e))).
      apply count_occ_bound. }
    destruct (risk_row_outcome valid _ (atype, count) Hv Hty Ht Hle)
      as [[row Hr]|[Hr [e [amt [H2 [H3 H4]]]]]]; rewrite Hr in Hf.
    + discriminate Hf.
    + inversion Hf. split; [reflexivity|].
      exists atype, e, amt. cbn [fst snd] in *. rewrite <- Hcount. auto.
Qed.

Lemma risk_table_outcome_witness :
  exists d table,
    extract_causal_chain_text mixed_text = Ok d
    /\ risk_table d = Done (Some table)
    /\ 0 < total_alerts (summary d).
Proof.
  eexists. eexists. split; [vm_compute; reflexivity|].
  split; [vm_compute; reflexivity|].
  pose proof (risk_table_outcome mixed_text _
                ltac:(vm_compute; reflexivity)) as H.
  vm_compute in H. vm_compute. exact H.
Defined.

(** ** The totals of the rows *)

Lemma count_one_weight (g : str -> Z) (x : str) (c : list (str * nat)) :
  sum_of (map (fun p => g (fst p) * Z.of_nat (snd p))%Z (count_one x c))
  = (sum_of (map (fun p => g (fst p) * Z.of_nat (snd p))%Z c) + g x)%Z.
Proof.
  induction c as [|[y n] c IH]; cbn [count_one].
  - cbn. lia.
  - destruct (str_eqb y x) eqn:E.
    + apply str_eqb_eq in E. subst y. cbn [map sum_of fold_right fst snd].
      fold (sum_of (map (fun p => g (fst p) * Z.of_nat (snd p))%Z c)). lia.
    + cbn [map sum_of fold_right fst snd].
      fold (sum_of (map (fun p => g (fst p) * Z.of_nat (snd p))%Z
                      (count_one x c))).
      fold (sum_of (map (fun p => g (fst p) * Z.of_nat (snd p))%Z c)).
      rewrite IH. lia.
Qed.

Lemma Counter_weight (g : str -> Z) (l : list str) :
  sum_of (map (fun p => g (fst p) * Z.of_nat (snd p))%Z (Counter l))
  = sum_of (map g l).
Proof.
  unfold Counter.
  assert (H : forall c,
    sum_of (map (fun p => g (fst p) * Z.of_nat (snd p))%Z
              (fold_left (fun counts x => count_one x counts) l c))
    = (sum_of (map (fun p => g (fst p) * Z.of_nat (snd p))%Z c)
       + sum_of (map g l))%Z).
  { induction l as [|x l IH]; intros c; cbn [fold_left map].
    - cbn. lia.
    - rewrite IH, count_one_weight. cbn [sum_of fold_right].
      fold (sum_of (map g l)). lia. }
  rewrite H. cbn. lia.
Qed.

Lemma sum_of_perm (l l' : list Z) : Permutation l l' -> sum_of l = sum_of l'.
Proof.
  induction 1; cbn [sum_of fold_right] in *; try lia.
  fold (sum_of l) in *. fold (sum_of l') in *. lia.
Qed.

Lemma sum_amounts_sum (es : list Event) :
  sum_amounts es = sum_of (map (fun e => get_or 0%Z (amount_of e)) es).
Proof.
  unfold sum_amounts.
  assert (H : forall acc,
    fold_left (fun acc e => match amount_of e with
                            | Some a => (acc + a)%Z
                            | None => acc
                            end) es acc
    = (acc + sum_of (map (fun e => get_or 0%Z (amount_of e)) es))%Z).
  { induction es as [|e es IH]; intros acc; cbn [fold_left map].
    - cbn. lia.
    - rewrite IH. cbn [sum_of fold_right].
      fold (sum_of (map (fun e => get_or 0%Z (amount_of e)) es)).
      destruct (amount_of e); cbn [get_or]; lia. }
  apply H.
Qed.

Lemma first_of_type_in (atype : str) (valid : list Event) (e : Event) :
  first_of_type atype valid e -> In e valid /\ alert_type_of e = Some atype.
Proof.
  intros [before [after [-> [H _]]]]. split; auto.
  apply in_or_app. right. now left.
Qed.

Lemma uniform_amount (valid : list Event) (e : Event) :
  Forall alert_like valid -> uniform_amounts valid -> In e valid ->
  get_or 0%Z (amount_of e)
  = amount_of_type valid (get_or NA (alert_type_of e)).
Proof.
  intros Hv Hu He. rewrite Forall_forall in Hv.
  destruct (alert_like_fields e (Hv e He)) as [a [amt [Ha [Hamt _]]]].
  rewrite Ha. cbn [get_or]. unfold amount_of_type.
  assert (Hin : In a (types_of valid)).
  { unfold types_of. apply in_map_iff. exists e. rewrite Ha. auto. }
  destruct (sample_event_found a valid ltac:(now apply Forall_forall) Hin)
    as [e0 [H0 Hi0]].
  rewrite H0. apply sample_event_first, first_of_type_in in H0 as [_ Ht0].
  f_equal. apply Hu; auto. congruence.
Qed.

Lemma risk_row_total (valid : list Event) (total : nat) (item : str * nat)
    (row : list cell) :
  Forall alert_like valid ->
  risk_row valid total item = Done row ->
  total_cell row (amount_of_type valid (fst item) * Z.of_nat (snd item)).
Proof.
  unfold risk_row, total_cell. destruct item as [atype count].
  intros Hv H. cbn [fst snd].
  apply and_then_done in H as [e [He H]].
  apply and_then_done in H as [amt [Ha H]].
  apply and_then_done in H as [q [_ H]].
  apply and_then_done in H as [per_alert [Hp H]].
  apply and_then_done in H as [tot [Ht H]].
  apply lift_done in Ht. inversion H. cbn [nth].
  unfold amount_item in Ha. destruct (amount_of e) as [a|] eqn:Hae;
    [|discriminate]. inversion Ha; subst a.
  unfold amount_of_type. rewrite He, Hae. cbn [get_or].
  exists tot. split; [reflexivity|].
  apply format_commas_read_back; [|exact Ht].
  apply sample_event_first, first_of_type_in in He as [Hin _].
  rewrite Forall_forall in Hv.
  destruct (alert_like_fields e (Hv e Hin)) as [a' [amt' [_ [Hamt [H0 _]]]]].
  rewrite Hae in Hamt. inversion Hamt; subst amt'. lia.
Qed.

(** When the alerts of each type all have the same amount, the total
    amounts of the rows of the risk table add up to the amount of its row of
    totals, the total amount at risk; every amount of that column reads back
    as its number. *)
Theorem risk_totals_add_up (raw : str) (d : Document)
    (table : list (list cell)) :
  extract_causal_chain raw = Ok d ->
  risk_table d = Done (Some table) ->
  uniform_amounts (valid_events (causal_chain d)) ->
  exists rows total_row amounts,
    table = risk_header :: rows ++ [total_row]
    /\ Forall2 total_cell rows amounts
    /\ total_cell total_row (total_amount_at_risk (summary d))
    /\ sum_of amounts = total_amount_at_risk (summary d).
Proof.
  intros Hd Ht Hu.
  destruct (risk_table_done d table Ht)
    as [types [rows [total [H1 [H2 [H3 ->]]]]]].
  pose proof (chain_alert_like raw d Hd) as Hv.
  rewrite (alert_types_of_valid _ Hv) in H1. inversion H1; subst types.
  set (valid := valid_events (causal_chain d)) in *.
  set (w := fun p : str * nat =>
              (amount_of_type valid (fst p) * Z.of_nat (snd p))%Z).
  exists rows. eexists.
  exists (map w (most_common (Counter (types_of valid)))).
  split; [reflexivity|]. split; [|split].
  - apply for_each_done in H2. clear - H2 Hv.
    induction H2 as [|item row items rows Hr _ IH]; cbn [map]; constructor;
      auto.
    apply (risk_row_total valid _ item row Hv Hr).
  - exists total. split; [reflexivity|].
    apply format_commas_read_back; [|exact H3].
    apply (total_not_negative _ _ Hd).
  - rewrite <- (sum_of_perm _ _
                  (Permutation_map w (most_common_perm _))).
    unfold w. rewrite (Counter_weight (amount_of_type valid)).
    destruct (extract_ok_summary _ _ Hd) as [_ [-> _]].
    fold (valid_events (causal_chain d)). fold valid.
    rewrite sum_amounts_sum. unfold types_of. rewrite map_map.
    f_equal. apply map_ext_in. intros e He. symmetry.
    now apply uniform_amount.
Qed.

Lemma risk_totals_add_up_witness :
  exists d table,
    extract_causal_chain mixed_text = Ok d
    /\ risk_table d = Done (Some table)
    /\ map (fun row => nth 4 row (Text [])) table
       = [ Text (s_ "Total Amount"); Text (s_ "$1,000"); Text (s_ "$1,000");
           Text (s_ "$2,000") ]
    /\ exists rows total_row amounts,
         table = risk_header :: rows ++ [total_row]
         /\ Forall2 total_cell rows amounts
         /\ total_cell total_row (total_amount_at_risk (summary d))
         /\ sum_of amounts = total_amount_at_risk (summary d).
Proof.
  eexists. eexists. split; [vm_compute; reflexivity|].
  split; [vm_compute; reflexivity|]. split; [reflexivity|].
  refine (risk_totals_add_up mixed_text _ _ _ _ _);
    try (vm_compute; reflexivity).
  intros e1 e2 H1 H2 Ht.
  cbn in H1, H2.
  destruct H1 as [<-|[<-|[<-|[]]]]; destruct H2 as [<-|[<-|[<-|[]]]];
    try reflexivity; vm_compute in Ht; discriminate Ht.
Defined.

(** * A document of the tabular format has an alert *)

Lemma blank_line_no_match (line : str) :
  strip line = [] -> re_match KAGGLE_PATTERN line = None.
Proof.
  intros Hs.
  destruct (lstrip_spec line) as [sp [E F]].
  assert (Hl : lstrip line = []).
  { destruct (rstrip_spec (lstrip line)) as [sp2 [E2 F2]].
    fold (strip line) in E2. rewrite Hs in E2. cbn [app] in E2.
    pose proof (lstrip_head line) as Hh.
    destruct (lstrip line) as [|c t]; [reflexivity|].
    rewrite <- E2 in F2. cbn [forallb] in F2.
    apply andb_true_iff in F2 as [Hc _]. congruence. }
  rewrite Hl in E.
  assert (Hlead : matches KAGGLE_PATTERN line = matches KAGGLE_PATTERN []).
  { rewrite E at 1. unfold KAGGLE_PATTERN, seq. cbn [fold_right].
    apply leading_space_skipped; auto.
    intros c t Hc. unfold plus, digit.
    rewrite !matches_cat. simpl. now rewrite (digit_not_space c Hc). }
  unfold re_match. rewrite Hlead. reflexivity.
Qed.

Lemma kaggle_loop_line (lines : list str) :
  forall n evs i line,
    kaggle_loop n lines = Ok evs ->
    nth_error lines i = Some line ->
    exists es, kaggle_line (n + i) line = Ok es /\ incl es evs.
Proof.
  induction lines as [|l lines IH]; intros n evs i line H Hi.
  - destruct i; discriminate.
  - simpl in H. apply bind_ok in H as [es1 [H1 H]].
    apply bind_ok in H as [es2 [H2 H]]. inversion H; subst; clear H.
    destruct i as [|i]; simpl in Hi.
    + inversion Hi; subst. rewrite Nat.add_0_r. exists es1.
      split; [exact H1|]. apply incl_appl, incl_refl.
    + destruct (IH _ _ _ _ H2 Hi) as [es [He Hin]].
      exists es. rewrite <- Nat.add_succ_comm. split; [exact He|].
      apply incl_appr, Hin.
Qed.

(** A document of the tabular format has at least one alert: the chain
    holds the alert of a line among the first 50 of the stripped text, with
    the line as its [raw_log], and [total_alerts] is not 0. *)
Theorem kaggle_document_has_alert (raw : str) (d : Document) :
  extract_causal_chain raw = Ok d ->
  detected_format (summary d) = KAGGLE ->
  1 <= total_alerts (summary d)
  /\ exists i line e,
       i < 50
       /\ nth_error (input_lines raw) i = Some line
       /\ In e (causal_chain d)
       /\ event_type e = FINANCIAL_CRIME_ALERT
       /\ raw_log e = rstrip line.
Proof.
  intros Hd Hf.
  destruct (extract_ok _ _ Hd) as [evs [Hp [Hc [_ [Hdet Ha]]]]].
  rewrite Hdet in Hf.
  assert (Hk : has_kaggle (input_lines raw) = true).
  { unfold detect in Hf. destruct (has_kaggle (input_lines raw)); auto.
    destruct (has_amlsim (input_lines raw)); discriminate. }
  apply has_kaggle_iff in Hk as [i [line [Hi [Hn Hm]]]].
  rewrite (detect_kaggle _ Hf) in Hp. unfold parse_kaggle_format in Hp.
  destruct (kaggle_loop_line _ _ _ _ _ Hp Hn) as [es [He Hin]].
  unfold is_match in Hm.
  destruct (re_match KAGGLE_PATTERN line) as [groups|] eqn:Hg;
    [|discriminate].
  assert (Hs : strip line <> []).
  { intros Hs. rewrite (blank_line_no_match _ Hs) in Hg. discriminate. }
  unfold kaggle_line in He.
  destruct (strip line) as [|c0 t0]; [congruence|]. rewrite Hg in He.
  apply bind_ok in He as [a [_ He]]. inversion He; subst es; clear He.
  set (e := {| timestamp := nth 0 groups [] ++ s_ " 00:00:00";
               event_type := FINANCIAL_CRIME_ALERT;
               raw_log := rstrip line;
               details := AlertDetails (nth 0 groups []) (nth 1 groups [])
                            (strip (nth 2 groups [])) a |}) in *.
  assert (Hchain : In e (causal_chain d)).
  { rewrite Hc. apply (Permutation_in _ (sort_by_perm sort_key evs)).
    apply Hin. now left. }
  split.
  - rewrite Ha, <- Hc.
    assert (Hv : In e (filter is_alert (causal_chain d)))
      by (apply filter_In; split; [exact Hchain|reflexivity]).
    destruct (filter is_alert (causal_chain d)); [destruct Hv|simpl; lia].
  - exists i, line, e. repeat split; auto.
Qed.

Lemma kaggle_document_has_alert_witness :
  exists d,
    extract_causal_chain unordered_text = Ok d
    /\ detected_format (summary d) = KAGGLE
    /\ 1 <= total_alerts (summary d).
Proof.
  assert (E : exists d, extract_causal_chain unordered_text = Ok d)
    by (eexists; vm_compute; reflexivity).
  destruct E as [d E].
  assert (F : detected_format (summary d) = KAGGLE)
    by (vm_compute in E; inversion E; reflexivity).
  exists d. split; [exact E|]. split; [exact F|].
  apply (kaggle_document_has_alert unordered_text d E F).
Defined.
